(** * LIA compiler (lia_compiler.js): lexer, parser and Scratch-block lowering

    A shallow embedding of [tokenize], [Parser] and [generateProject] of
    src/lia_compiler.js, and the properties of the specification checked
    against it.

    Conventions of the embedding:
    - a JS string is the list of its UTF-16 code units ([jsstring]);
    - a JS number that comes out of [Number(m[4])] is kept as the decimal it
      was read from ([jsnum]);
    - a thrown [Error] keeps the parts its message is concatenated from;
    - [uuidv4()] is an oracle: the n-th call returns [uuidv4 n]. *)

From Stdlib Require Import NArith String Ascii Sorted.
From stdpp Require Import base option list gmap.

Open Scope string_scope.
Open Scope list_scope.
Open Scope nat_scope.

(* ===================================================================== *)
(** ** JS values *)
(* ===================================================================== *)

(** One UTF-16 code unit. *)
Abbreviation char := N.

(** A JS string: its code units in order. *)
Abbreviation jsstring := (list N).

(** The code units of an ASCII literal of the source. *)
Definition str (s : string) : jsstring :=
  map N_of_ascii (list_ascii_of_string s).

(** [a === b] on strings. *)
Definition jsstring_eqb (a b : jsstring) : bool := bool_decide (a = b).

(** The number [Number(lexeme)] for a lexeme [d+(.d+)?]: the binary64 value
    nearest to [mant / 10^scale], where [mant] is the lexeme's digits without
    the dot and [scale] the number of digits after it.  Number literals of
    the source ([10], [15], [1], ...) have scale 0.  The code never compares
    two numbers; it only tests one for truthiness. *)
Record jsnum := Num { mant : N; scale : nat }.

Definition num (n : N) : jsnum := Num n 0.

(** A number is falsy exactly when it is zero.  The nearest binary64 of a
    non-negative decimal is zero exactly when the decimal is at most
    2^-1075 (half of the least subnormal; the tie goes to the even
    neighbour, zero; the engine's conversion rounds to nearest). *)
Definition jsnum_truthy (n : jsnum) : bool :=
  (10 ^ N.of_nat (scale n) <? mant n * 2 ^ 1075)%N.

(** A literal value of a call argument: a string or a number. *)
Inductive lit :=
| LNum (n : jsnum)
| LStr (s : jsstring).

(** ToBoolean of a literal: zero and the empty string are falsy. *)
Definition lit_truthy (v : lit) : bool :=
  match v with
  | LNum n => jsnum_truthy n
  | LStr s => negb (bool_decide (s = []))
  end.

(** [a[i] || d]: the element when there is one and it is truthy, [d]
    otherwise (a missing element is [undefined], which is falsy). *)
Definition lit_or (v : option lit) (d : lit) : lit :=
  match v with
  | Some a => if lit_truthy a then a else d
  | None => d
  end.

(** The JS values that end up in a block's [inputs] and [fields], and the
    values of tokens.  [VJoin parts] is the string [parts.join(' ')], kept
    unjoined (joining renders the numbers among the parts as text). *)
#[warnings="-register-all"]
Inductive jsval :=
| VUndef
| VNull
| VNum (n : jsnum)
| VStr (s : jsstring)
| VArr (l : list jsval)
| VJoin (parts : list jsval).

(** [a[i] === 'lit'] for a string literal of the source. *)
Definition arg_is (v : option lit) (lit : string) : bool :=
  match v with
  | Some (LStr s) => jsstring_eqb s (str lit)
  | _ => false
  end.

Definition lit_val (v : lit) : jsval :=
  match v with
  | LNum n => VNum n
  | LStr s => VStr s
  end.

(** [v === 'lit'] for a string literal of the source. *)
Definition is_str (v : jsval) (lit : string) : bool :=
  match v with
  | VStr s => jsstring_eqb s (str lit)
  | _ => false
  end.

(* ===================================================================== *)
(** ** Lexer *)
(* ===================================================================== *)

Module Regex.

(** The fragment of JS regular expressions the lexer's pattern is written
    in, matched the way JS matches: alternatives left to right, greedy
    quantifiers, backtracking into them on failure of what follows. *)
Inductive regex :=
| Cls (p : char -> bool)        (* one code unit of a class *)
| Lit (s : jsstring)            (* a literal sequence *)
| Seq (r1 r2 : regex)
| Alt (r1 r2 : regex)
| Star (p : char -> bool)       (* [c*] for a class [c], greedy *)
| Opt (r : regex)               (* [r?], greedy *)
| Grp (i : nat) (r : regex).    (* capture group number [i] *)

(** Captures: group number to captured text ([None] is [undefined]). *)
Definition caps := nat -> option jsstring.

Definition no_caps : caps := fun _ => None.

Definition set_cap (i : nat) (s : jsstring) (c : caps) : caps :=
  fun j => if Nat.eqb i j then Some s else c j.

Fixpoint lit_match (l s : jsstring) : option jsstring :=
  match l with
  | [] => Some s
  | c :: l' =>
      match s with
      | d :: s' => if N.eqb c d then lit_match l' s' else None
      | [] => None
      end
  end.

(** Greedy [c*] followed by [k]: take the longest run first, give back one
    code unit at a time while [k] fails. *)
Fixpoint star_match {R} (p : char -> bool) (s : jsstring)
    (k : jsstring -> option R) : option R :=
  match s with
  | c :: s' =>
      if p c then
        match star_match p s' k with
        | Some r => Some r
        | None => k s
        end
      else k s
  | [] => k s
  end.

(** [rmatch r s c k]: match [r] at the front of [s] with captures [c], then
    continue with [k] on the rest; [None] when every way fails. *)
Fixpoint rmatch {R} (r : regex) (s : jsstring) (c : caps)
    (k : jsstring -> caps -> option R) : option R :=
  match r with
  | Cls p =>
      match s with
      | d :: s' => if p d then k s' c else None
      | [] => None
      end
  | Lit l =>
      match lit_match l s with
      | Some s' => k s' c
      | None => None
      end
  | Seq r1 r2 => rmatch r1 s c (fun s' c' => rmatch r2 s' c' k)
  | Alt r1 r2 =>
      match rmatch r1 s c k with
      | Some x => Some x
      | None => rmatch r2 s c k
      end
  | Star p => star_match p s (fun s' => k s' c)
  | Opt r1 =>
      match rmatch r1 s c k with
      | Some x => Some x
      | None => k s c
      end
  | Grp i r1 =>
      rmatch r1 s c
        (fun s' c' => k s' (set_cap i (take (length s - length s') s) c'))
  end.

(** [re.exec(input)] for a sticky pattern with [re.lastIndex = pos]: the
    captures and the new [lastIndex], or [None] for [null]. *)
Definition exec (re : regex) (input : jsstring) (pos : nat)
    : option (caps * nat) :=
  rmatch re (drop pos input) no_caps
    (fun s' c => Some (c, length input - length s')).

(** The least number of code units a match of [r] takes. *)
Fixpoint min_len (r : regex) : nat :=
  match r with
  | Cls _ => 1
  | Lit l => length l
  | Seq r1 r2 => min_len r1 + min_len r2
  | Alt r1 r2 => min_len r1 `min` min_len r2
  | Star _ => 0
  | Opt _ => 0
  | Grp _ r1 => min_len r1
  end.

End Regex.

Import Regex.

Definition in_range (lo hi : N) (c : char) : bool :=
  (N.leb lo c && N.leb c hi)%bool.

(** [\s]: WhiteSpace and LineTerminator code units. *)
Definition is_space (c : char) : bool :=
  (in_range 9 13 c || N.eqb c 32 || N.eqb c 160 || N.eqb c 5760
   || in_range 8192 8202 c || N.eqb c 8232 || N.eqb c 8233
   || N.eqb c 8239 || N.eqb c 8287 || N.eqb c 12288 || N.eqb c 65279)%bool.

Definition is_digit (c : char) : bool := in_range 48 57 c.

(** [[A-Za-z_]] *)
Definition is_ident_start (c : char) : bool :=
  (in_range 65 90 c || in_range 97 122 c || N.eqb c 95)%bool.

(** The class of group 2 after its first code unit: letters, digits,
    underscore, dot and the double quote. *)
Definition is_ident_part (c : char) : bool :=
  (in_range 65 90 c || in_range 97 122 c || is_digit c || N.eqb c 95
   || N.eqb c 46 || N.eqb c 34)%bool.

(** Any code unit but the double quote. *)
Definition not_quote (c : char) : bool := negb (N.eqb c 34).

Definition quote : char := 34%N.

(** The alternatives of group 1, in the order of the pattern. *)
Definition punct_lits : list string :=
  ["=>"; ">="; "<="; "=="; "!="; "{"; "}"; "("; ")"; ";"; ","; "."; "+";
   "-"; "*"; "/"; ">="; "<="; ">"; "<"; "="].

Fixpoint alts (l : list regex) : regex :=
  match l with
  | [] => Cls (fun _ => false)
  | [r] => r
  | r :: l' => Alt r (alts l')
  end.

Definition re_punct : regex :=
  Seq (Star is_space)
    (Seq (Grp 1 (alts (map (fun s => Lit (str s)) punct_lits)))
         (Star is_space)).

Definition re_ident : regex :=
  Seq (Star is_space)
    (Seq (Grp 2 (Seq (Cls is_ident_start) (Star is_ident_part)))
         (Star is_space)).

Definition re_string : regex :=
  Seq (Star is_space)
    (Seq (Grp 3 (Seq (Lit [quote]) (Seq (Star not_quote) (Lit [quote]))))
         (Star is_space)).

Definition re_number : regex :=
  Seq (Star is_space)
    (Seq (Grp 4 (Seq (Cls is_digit)
                   (Seq (Star is_digit)
                      (Opt (Seq (Lit (str "."))
                              (Seq (Cls is_digit) (Star is_digit)))))))
         (Star is_space)).

(** The pattern [re] of [tokenize]. *)
Definition re : regex :=
  Alt re_punct (Alt re_ident (Alt re_string re_number)).

(** A token [{type, value}]; the end-of-input token has no value. *)
Inductive token :=
| TPunct (value : jsstring)
| TIdent (value : jsstring)
| TString (value : jsstring)
| TNumber (value : jsnum)
| TEof.

Inductive toktype := punct | ident | string_ | number | eof.

Definition tok_type (t : token) : toktype :=
  match t with
  | TPunct _ => punct
  | TIdent _ => ident
  | TString _ => string_
  | TNumber _ => number
  | TEof => eof
  end.

Definition tok_value (t : token) : jsval :=
  match t with
  | TPunct v | TIdent v | TString v => VStr v
  | TNumber n => VNum n
  | TEof => VUndef
  end.

#[global] Instance toktype_eq_dec : EqDecision toktype.
Proof. solve_decision. Defined.

(** Digits of a lexeme read as a base-10 numeral (other code units are
    passed over). *)
Definition digits_value (s : jsstring) : N :=
  fold_left (fun acc c => if is_digit c then (10 * acc + (c - 48))%N else acc)
    s 0%N.

Fixpoint after_dot (s : jsstring) : jsstring :=
  match s with
  | [] => []
  | c :: s' => if N.eqb c 46 then s' else after_dot s'
  end.

(** [Number(lexeme)] on a lexeme of group 4. *)
Definition Number (s : jsstring) : jsnum :=
  Num (digits_value s) (length (after_dot s)).

(** [s.slice(1, -1)] *)
Definition slice_1_m1 (s : jsstring) : jsstring :=
  take (length s - 2) (drop 1 s).

(** Truthiness of a capture: [undefined] and the empty string are falsy. *)
Definition cap_truthy (o : option jsstring) : bool :=
  match o with
  | Some (_ :: _) => true
  | _ => false
  end.

Definition cap_text (o : option jsstring) : jsstring := default [] o.

Inductive lex_result :=
| LexOk (tokens : list token)
| LexError (pos : nat) (snippet : jsstring)
    (* Error('Unexpected token at ' + pos + ': ' + input.slice(pos, pos+20)) *)
| LexOutOfFuel.

(** What one turn of the [while] loop of [tokenize] does at [pos]. *)
Inductive lex_step :=
| StepSkip                               (* pos++; continue *)
| StepThrow (snippet : jsstring)
| StepMatch (pos' : nat) (tok : option token).

Definition is_blank (c : char) : bool :=
  (N.eqb c 10 || N.eqb c 13 || N.eqb c 9 || N.eqb c 32)%bool.

Definition tokenize_step (input : jsstring) (pos : nat) : lex_step :=
  match exec re input pos with
  | None =>
      match input !! pos with
      | Some ch =>
          if is_blank ch then StepSkip
          else StepThrow (take 20 (drop pos input))
      | None => StepThrow (take 20 (drop pos input))
      end
  | Some (m, lastIndex) =>
      StepMatch lastIndex
        (if cap_truthy (m 1) then Some (TPunct (cap_text (m 1)))
         else if cap_truthy (m 2) then Some (TIdent (cap_text (m 2)))
         else if cap_truthy (m 3)
              then Some (TString (slice_1_m1 (cap_text (m 3))))
         else if cap_truthy (m 4) then Some (TNumber (Number (cap_text (m 4))))
         else None)
  end.

Definition push {A} (l : list A) (x : A) : list A := l ++ [x].

Definition push_opt {A} (l : list A) (x : option A) : list A :=
  match x with
  | Some a => push l a
  | None => l
  end.

(** The [while (pos < input.length)] loop; [fuel] bounds its turns. *)
Fixpoint tokenize_loop (fuel : nat) (input : jsstring) (pos : nat)
    (tokens : list token) : lex_result :=
  if negb (pos <? length input) then LexOk (push tokens TEof)
  else
    match fuel with
    | 0 => LexOutOfFuel
    | S fuel' =>
        match tokenize_step input pos with
        | StepSkip => tokenize_loop fuel' input (S pos) tokens
        | StepThrow snippet => LexError pos snippet
        | StepMatch pos' tok =>
            tokenize_loop fuel' input pos' (push_opt tokens tok)
        end
    end.

(** [tokenize(input)].  Every turn of the loop moves [pos] forward, so
    [input.length] turns are enough. *)
Definition tokenize (input : jsstring) : lex_result :=
  tokenize_loop (length input) input 0 [].

(* ===================================================================== *)
(** ** Program tree *)
(* ===================================================================== *)

Inductive event_kind := start | key | click | backdrop.

(** Statements.  [condition] holds the values of the condition's tokens;
    the source stores [VJoin condition]. *)
#[warnings="-register-all"]
Inductive stmt :=
| Event (kind : event_kind) (key : option jsstring) (name : option jsstring)
| Repeat (count : jsnum) (body : list stmt)
| LoopStatement (body : list stmt)
| If (condition : list jsval) (consequent : list stmt)
     (alternate : option (list stmt))
| AwaitUntil (condition : list jsval)
| Call (name : jsstring) (args : list lit) (for_ : option jsnum)
| Empty.

Record Program := { body : list stmt }.

(* ===================================================================== *)
(** ** Parser *)
(* ===================================================================== *)

(** The messages of the code's [throw new Error(...)], each with the
    parts it is concatenated from ([JSON.stringify(t)] is kept as [t]). *)
Inductive message :=
| ExpectedGot (type : toktype) (val : option string) (t : token)
    (* 'Expected '+type+(val? ':'+val:'')+' got '+JSON.stringify(t) *)
| UnexpectedTokenInStatement (t : token)
| UnclosedBlock
| ExpectedKey
| ExpectedString
| UnknownEvent (t : token)
| ExpectedNumberInRepeat
| UnknownAwaitForm
| UnexpectedArgToken (t : token)
| ExpectedNumberInFor
| ExpectedSemicolonAfterStatement (name : jsstring)
| UnhandledStmtType (type : string).   (* thrown by the lowering *)

(** What a run can throw: an [Error] of the code's own, or the engine's
    [TypeError] for reading a property of [undefined]. *)
Inductive jserror :=
| Error (m : message)
| TypeError.

(** A run on a mutable state [S]: it returns a value and the state it
    leaves, throws, or exhausts the fuel of the embedding's loops. *)
Inductive res (S A : Type) :=
| Ok (a : A) (s : S)
| Throw (e : jserror)
| OutOfFuel.
Arguments Ok {S A}.
Arguments Throw {S A}.
Arguments OutOfFuel {S A}.

Definition M (S A : Type) : Type := S -> res S A.

Definition ret {S A} (a : A) : M S A := fun s => Ok a s.

Definition bind {S A B} (m : M S A) (f : A -> M S B) : M S B :=
  fun s =>
    match m s with
    | Ok a s' => f a s'
    | Throw e => Throw e
    | OutOfFuel => OutOfFuel
    end.

Notation "x <- m ;; k" := (bind m (fun x => k))
  (at level 100, m at next level, right associativity).

Definition throw {S A} (m : message) : M S A := fun _ => Throw (Error m).
Definition out_of_fuel {S A} : M S A := fun _ => OutOfFuel.

(** Reading a property of a value that may be [undefined]. *)
Definition deref {S A} (o : option A) : M S A :=
  fun s => match o with Some a => Ok a s | None => Throw TypeError end.

(** The parser object: the token array and the cursor. *)
Record Parser := { tokens : list token; pos : nat }.

(** A method of [Parser]. *)
Abbreviation PM := (M Parser).

(** [this.tokens[this.pos]] *)
Definition peek : PM (option token) :=
  fun p => Ok (tokens p !! pos p) p.

(** [this.tokens[this.pos++]] *)
Definition next : PM (option token) :=
  fun p => Ok (tokens p !! pos p) {| tokens := tokens p; pos := S (pos p) |}.

(** [this.peek()] read for a property. *)
Definition peek_d : PM token := o <- peek ;; deref o.

(** [this.next()] read for a property. *)
Definition next_d : PM token := o <- next ;; deref o.

Definition is_tok (ty : toktype) (v : string) (t : token) : bool :=
  (bool_decide (tok_type t = ty) && is_str (tok_value t) v)%bool.

(** [this.peek().type === ty && this.peek().value === v] *)
Definition peek_is (ty : toktype) (v : string) : PM bool :=
  t <- peek_d ;;
  if bool_decide (tok_type t = ty)
  then (t' <- peek_d ;; ret (is_str (tok_value t') v))
  else ret false.

Definition expect (type : toktype) (val : option string) : PM (option token) :=
  t <- peek_d ;;
  if (negb (bool_decide (tok_type t = type))
      || match val with
         | Some v => negb (is_str (tok_value t) v)
         | None => false
         end)%bool
  then throw (ExpectedGot type val t)
  else next.

(** The [while] loop of [parseBlock], then its [expect]. *)
Fixpoint parseBlock_loop (parseStatement : PM stmt) (fuel : nat)
    (stmts : list stmt) : PM (list stmt) :=
  match fuel with
  | 0 => out_of_fuel
  | S fuel' =>
      closing <- peek_is punct "}" ;;
      if closing then (_ <- expect punct (Some "}") ;; ret stmts)
      else
        t <- peek_d ;;
        if bool_decide (tok_type t = eof) then throw UnclosedBlock
        else
          s <- parseStatement ;;
          parseBlock_loop parseStatement fuel' (push stmts s)
  end.

Definition parseEvent : PM stmt :=
  _ <- expect ident (Some "on") ;;
  t <- next_d ;;
  if is_tok ident "start" t then
    _ <- expect punct (Some ";") ;; ret (Event start None None)
  else if is_tok ident "key" t then
    _ <- expect punct (Some "(") ;;
    k <- next_d ;;
    match k with
    | TIdent v | TString v =>
        _ <- expect punct (Some ")") ;;
        _ <- expect punct (Some ";") ;;
        ret (Event key (Some v) None)
    | _ => throw ExpectedKey
    end
  else if is_tok ident "click" t then
    _ <- expect punct (Some ";") ;; ret (Event click None None)
  else if is_tok ident "backdrop" t then
    _ <- expect punct (Some "(") ;;
    n <- next_d ;;
    match n with
    | TString v | TIdent v =>
        _ <- expect punct (Some ")") ;;
        _ <- expect punct (Some ";") ;;
        ret (Event backdrop None (Some v))
    | _ => throw ExpectedString
    end
  else throw (UnknownEvent t).

Definition parseRepeat (parseBlock : PM (list stmt)) : PM stmt :=
  _ <- expect ident (Some "repeat") ;;
  _ <- expect punct (Some "(") ;;
  n <- next_d ;;
  match n with
  | TNumber count =>
      _ <- expect punct (Some ")") ;;
      _ <- expect punct (Some "{") ;;
      body <- parseBlock ;;
      ret (Repeat count body)
  | _ => throw ExpectedNumberInRepeat
  end.

(** [while (!(peek is ')')) condTokens.push(this.next())] *)
Fixpoint cond_loop (fuel : nat) (condTokens : list (option token))
    : PM (list (option token)) :=
  match fuel with
  | 0 => out_of_fuel
  | S fuel' =>
      closing <- peek_is punct ")" ;;
      if closing then ret condTokens
      else (t <- next ;; cond_loop fuel' (push condTokens t))
  end.

(** [condTokens.map(t => t.value)] *)
Fixpoint cond_values (condTokens : list (option token)) : PM (list jsval) :=
  match condTokens with
  | [] => ret []
  | o :: l => t <- deref o ;; vs <- cond_values l ;; ret (tok_value t :: vs)
  end.

Definition parseIf (fuel : nat) (parseBlock : PM (list stmt)) : PM stmt :=
  _ <- expect ident (Some "if") ;;
  _ <- expect punct (Some "(") ;;
  condTokens <- cond_loop fuel [] ;;
  _ <- expect punct (Some ")") ;;
  _ <- expect punct (Some "{") ;;
  consequent <- parseBlock ;;
  has_else <- peek_is ident "else" ;;
  alternate <-
    (if has_else then
       _ <- next ;; _ <- expect punct (Some "{") ;; b <- parseBlock ;; ret (Some b)
     else ret None) ;;
  condition <- cond_values condTokens ;;
  ret (If condition consequent alternate).

Definition parseAwait (fuel : nat) : PM stmt :=
  _ <- expect ident (Some "await") ;;
  until <- peek_is ident "until" ;;
  if until then
    _ <- next ;;
    _ <- expect punct (Some "(") ;;
    condTokens <- cond_loop fuel [] ;;
    _ <- expect punct (Some ")") ;;
    _ <- expect punct (Some ";") ;;
    condition <- cond_values condTokens ;;
    ret (AwaitUntil condition)
  else throw UnknownAwaitForm.

(** The argument loop of [parseSimple]. *)
Fixpoint args_loop (fuel : nat) (args : list lit) : PM (list lit) :=
  match fuel with
  | 0 => out_of_fuel
  | S fuel' =>
      closing <- peek_is punct ")" ;;
      if closing then ret args
      else
        t <- next_d ;;
        a <- match t with
            | TNumber n => ret (LNum n)
            | TString v | TIdent v => ret (LStr v)
            | _ => throw (UnexpectedArgToken t)
            end ;;
        comma <- peek_is punct "," ;;
        _ <- (if comma then next else ret None) ;;
        args_loop fuel' (push args a)
  end.

(** The text of a token's value; [parseSimple] is entered on an identifier
    token. *)
Definition tok_text (t : token) : jsstring :=
  match t with
  | TPunct v | TIdent v | TString v => v
  | _ => []
  end.

Definition parseSimple (fuel : nat) : PM stmt :=
  nameToken <- next_d ;;
  let name := tok_text nameToken in
  paren <- peek_is punct "(" ;;
  args <-
    (if paren then
       _ <- next ;; a <- args_loop fuel [] ;; _ <- expect punct (Some ")") ;; ret a
     else ret []) ;;
  has_for <- peek_is ident "for" ;;
  for_ <-
    (if has_for then
       _ <- next ;;
       _ <- expect punct (Some "(") ;;
       n <- next_d ;;
       match n with
       | TNumber v => _ <- expect punct (Some ")") ;; ret (Some v)
       | _ => throw ExpectedNumberInFor
       end
     else ret None) ;;
  semi <- peek_is punct ";" ;;
  if semi then (_ <- next ;; ret (Call name args for_))
  else throw (ExpectedSemicolonAfterStatement name).

Definition simple_verbs : list string :=
  ["say"; "think"; "show"; "hide"; "move"; "turn"; "costume"; "backdrop";
   "ease"; "point"; "change"; "set"; "sound"; "wait"; "clone"; "delete";
   "send"].

(** [parseStatement]; [fuel] bounds the nesting of blocks and the turns of
    the loops inside one statement. *)
Fixpoint parseStatement (fuel : nat) : PM stmt :=
  match fuel with
  | 0 => out_of_fuel
  | S fuel' =>
      let parseBlock := parseBlock_loop (parseStatement fuel') fuel' [] in
      t <- peek_d ;;
      if bool_decide (tok_type t = ident) then
        let val := tok_value t in
        if is_str val "on" then parseEvent
        else if is_str val "repeat" then parseRepeat parseBlock
        else if is_str val "loop" then
          _ <- next ;;
          _ <- expect punct (Some "{") ;;
          body <- parseBlock ;;
          ret (LoopStatement body)
        else if is_str val "if" then parseIf fuel' parseBlock
        else if is_str val "await" then parseAwait fuel'
        else if existsb (is_str val) simple_verbs then parseSimple fuel'
        else parseSimple fuel'
      else if is_tok punct ";" t then (_ <- next ;; ret Empty)
      else throw (UnexpectedTokenInStatement t)
  end.

(** The [while] loop of [parseProgram]. *)
Fixpoint parseProgram_loop (parseStatement : PM stmt) (fuel : nat)
    (body : list stmt) : PM Program :=
  match fuel with
  | 0 => out_of_fuel
  | S fuel' =>
      t <- peek_d ;;
      if negb (bool_decide (tok_type t = eof)) then
        s <- parseStatement ;;
        parseProgram_loop parseStatement fuel' (push body s)
      else ret {| body := body |}
  end.

Definition parseProgram (fuel : nat) : PM Program :=
  parseProgram_loop (parseStatement fuel) fuel [].

(** What [new Parser(tokens).parseProgram()] comes to. *)
Inductive parse_result :=
| ParseOk (ast : Program)
| ParseThrow (e : jserror)
| ParseOutOfFuel.

(** [new Parser(tokens).parseProgram()].  A statement takes at least one
    token, so [tokens.length + 1] bounds both the nesting and the turns of
    every loop. *)
Definition parse (toks : list token) : parse_result :=
  match parseProgram (S (length toks)) {| tokens := toks; pos := 0 |} with
  | Ok ast _ => ParseOk ast
  | Throw e => ParseThrow e
  | OutOfFuel => ParseOutOfFuel
  end.

(** Lexing then parsing, as [main] does; a lexer failure is passed on. *)
Definition parse_source (input : jsstring) : option parse_result :=
  match tokenize input with
  | LexOk toks => Some (parse toks)
  | _ => None
  end.

(* ===================================================================== *)
(** ** Lowering: program tree to Scratch blocks *)
(* ===================================================================== *)

Module Block.
(** One entry of [blocks]; [None] in [next] and [parent] is [null]. *)
Record t := Make {
  opcode : string;
  inputs : list (string * jsval);
  fields : list (string * jsval);
  next : option jsstring;
  parent : option jsstring
}.
End Block.

(** The state of one [generateProject] call: the [blocks] object, and the
    number of [uuidv4()] calls made so far.  [created] is a ghost log, read
    by no function: the ids [addBlock] returned, in order. *)
Record gen := {
  blocks : gmap (list N) Block.t;
  draws : nat;
  created : list jsstring
}.

Abbreviation GM := (M gen).

(** An id-or-null is falsy when it is [null] or the empty string. *)
Definition id_truthy (o : option jsstring) : bool :=
  match o with
  | Some (_ :: _) => true
  | _ => false
  end.

Definition id_val (o : option jsstring) : jsval :=
  match o with
  | Some i => VStr i
  | None => VNull
  end.

(** What [compileStatements] returns. *)
Record compiled := {
  first : option jsstring;
  last : option jsstring;
  blocksOrder : list (option jsstring)
}.

Definition stmt_type (s : stmt) : string :=
  match s with
  | Event _ _ _ => "Event"
  | Repeat _ _ => "Repeat"
  | LoopStatement _ => "LoopStatement"
  | If _ _ _ => "If"
  | AwaitUntil _ => "AwaitUntil"
  | Call _ _ _ => "Call"
  | Empty => "Empty"
  end.

(** [[1, [4, v]]] *)
Definition num_input (v : jsval) : jsval := VArr [VNum (num 1); VArr [VNum (num 4); v]].

(** [s.replace(/-/g, '').slice(0, 20)] *)
Definition short_id (s : jsstring) : jsstring :=
  take 20 (filter (fun c => c ≠ 45%N) s).

Section Lowering.

(** The n-th value [uuidv4()] returns in this run. *)
Variable uuidv4 : nat -> jsstring.

(** [uuidv4().replace(/-/g, '').slice(0, 20)] *)
Definition fresh_id : GM jsstring :=
  fun g =>
    Ok (short_id (uuidv4 (draws g)))
       {| blocks := blocks g; draws := S (draws g); created := created g |}.

Definition addBlock (opcode : string) (inputs fields : list (string * jsval))
    (next parent : option jsstring) : GM jsstring :=
  id <- fresh_id ;;
  fun g =>
    Ok id {| blocks := <[id := Block.Make opcode inputs fields next parent]>
                         (blocks g);
             draws := draws g;
             created := push (created g) id |}.

(** [blocks[id].next = v]; [blocks[id]] must be there to be written to. *)
Definition set_next (id : jsstring) (v : option jsstring) : GM unit :=
  fun g =>
    match blocks g !! id with
    | Some b =>
        Ok tt {| blocks := <[id := Block.Make (Block.opcode b) (Block.inputs b)
                                     (Block.fields b) v (Block.parent b)]>
                             (blocks g);
                 draws := draws g; created := created g |}
    | None => Throw TypeError
    end.

(** [blocks[id].parent = v] *)
Definition set_parent (id : jsstring) (v : option jsstring) : GM unit :=
  fun g =>
    match blocks g !! id with
    | Some b =>
        Ok tt {| blocks := <[id := Block.Make (Block.opcode b) (Block.inputs b)
                                     (Block.fields b) (Block.next b) v]>
                             (blocks g);
                 draws := draws g; created := created g |}
    | None => Throw TypeError
    end.

(** [blocks[o]] written to, for an [o] that may be [null]: the property
    key is then the string of [null], which [blocks] never holds. *)
Definition at_id {A} (o : option jsstring) (f : jsstring -> GM A) : GM A :=
  match o with
  | Some i => f i
  | None => fun _ => Throw TypeError
  end.

Section Statements.

Variable compileStatement : stmt -> GM (option jsstring).

(** The [for] loop of [compileStatements]. *)
Fixpoint compileStatements_loop (stmts : list stmt)
    (order : list (option jsstring)) (firstId prevId : option jsstring)
    : GM compiled :=
  match stmts with
  | [] => ret {| first := firstId; last := prevId; blocksOrder := order |}
  | s :: stmts' =>
      id <- compileStatement s ;;
      if negb (id_truthy id) then
        compileStatements_loop stmts' order firstId prevId
      else
        _ <- (if id_truthy prevId
              then at_id prevId (fun p => set_next p id)
              else ret tt) ;;
        compileStatements_loop stmts' (push order id)
          (if negb (id_truthy firstId) then id else firstId) id
  end.

Definition compileStatements (stmts : list stmt) : GM compiled :=
  compileStatements_loop stmts [] None None.

(** Lowering of a container: the body first, then the container's block,
    then the parent link of the body's first block. *)
Definition container (body : list stmt)
    (mk : option jsstring -> GM jsstring) : GM (option jsstring) :=
  bodyFirst <- compileStatements body ;;
  id <- mk (first bodyFirst) ;;
  _ <- (if negb (Nat.eqb (length (blocksOrder bodyFirst)) 0)
        then at_id (first bodyFirst) (fun f => set_parent f (Some id))
        else ret tt) ;;
  ret (Some id).

End Statements.

Definition compileCall (name : jsstring) (args : list lit)
    (for_ : option jsnum) : GM (option jsstring) :=
  let fallback :=
    id <- addBlock "procedures_call" [] [] None None ;; ret (Some id) in
  if jsstring_eqb name (str "move") then
    let steps := lit_or (args !! 0) (LNum (num 10)) in
    id <- addBlock "motion_movesteps" [("STEPS", num_input (lit_val steps))]
            [] None None ;;
    ret (Some id)
  else if jsstring_eqb name (str "turn") then
    let dir := args !! 0 in
    let amount := lit_or (args !! 1) (LNum (num 15)) in
    if arg_is dir "right" then
      id <- addBlock "motion_turnright"
              [("DEGREES", num_input (lit_val amount))] [] None None ;;
      ret (Some id)
    else if (arg_is dir "lef" || arg_is dir "left")%bool then
      id <- addBlock "motion_turnleft"
              [("DEGREES", num_input (lit_val amount))] [] None None ;;
      ret (Some id)
    else fallback
  else if jsstring_eqb name (str "say") then
    let txt := lit_or (args !! 0) (LStr []) in
    match for_ with
    | Some secs =>
        if jsnum_truthy secs then
          id <- addBlock "looks_sayforsecs"
                  [("MESSAGE", VArr [VNum (num 10); lit_val txt]);
                   ("SECS", num_input (VNum secs))] [] None None ;;
          ret (Some id)
        else
          id <- addBlock "looks_say"
                  [("MESSAGE", VArr [VNum (num 10); lit_val txt])]
                  [] None None ;;
          ret (Some id)
    | None =>
        id <- addBlock "looks_say"
                [("MESSAGE", VArr [VNum (num 10); lit_val txt])]
                [] None None ;;
        ret (Some id)
    end
  else if jsstring_eqb name (str "wait") then
    let t := lit_or (args !! 0) (LNum (num 1)) in
    id <- addBlock "control_wait" [("DURATION", num_input (lit_val t))]
            [] None None ;;
    ret (Some id)
  else fallback.

Definition opt_str (o : option jsstring) : jsval :=
  match o with
  | Some s => VStr s
  | None => VUndef
  end.

Fixpoint compileStatement (stmt : stmt) : GM (option jsstring) :=
  match stmt with
  | Call name args for_ => compileCall name args for_
  | Repeat count body =>
      _ <- fresh_id ;;          (* [repId], not used *)
      container compileStatement body
        (fun bodyFirst =>
           addBlock "control_repeat"
             [("TIMES", num_input (VNum count));
              ("SUBSTACK", VArr [VNum (num 2); id_val bodyFirst])]
             [] None None)
  | Event kind _ name =>
      match kind with
      | start =>
          id <- addBlock "event_whenflagclicked" [] [] None None ;;
          ret (Some id)
      | click =>
          id <- addBlock "event_whenthisspriteclicked" [] [] None None ;;
          ret (Some id)
      | backdrop =>
          id <- addBlock "event_whenbackdropswitchesto"
                  [("BACKDROP", VArr [VNum (num 10); opt_str name])]
                  [] None None ;;
          ret (Some id)
      | key => throw (UnhandledStmtType (stmt_type stmt))
      end
  | LoopStatement body =>
      container compileStatement body
        (fun bodyFirst =>
           addBlock "control_forever"
             [("SUBSTACK", VArr [VNum (num 2); id_val bodyFirst])]
             [] None None)
  | If condition consequent _ =>
      container compileStatement consequent
        (fun bodyFirst =>
           addBlock "control_if"
             [("CONDITION", VArr [VNum (num 1); VJoin condition]);
              ("SUBSTACK", VArr [VNum (num 2); id_val bodyFirst])]
             [] None None)
  | AwaitUntil condition =>
      id <- addBlock "control_wait_until"
              [("CONDITION", VArr [VNum (num 1); VJoin condition])]
              [] None None ;;
      ret (Some id)
  | Empty => ret None
  end.

Definition is_event (s : stmt) : bool :=
  match s with
  | Event _ _ _ => true
  | _ => false
  end.

(** The top-level [for (const node of ast.body)] loop; [all] is
    [ast.body], [nodes] what is left to visit. *)
Fixpoint top_loop (all nodes : list stmt) (scripts : list (option jsstring))
    : GM (list (option jsstring)) :=
  match nodes with
  | [] => ret scripts
  | node :: nodes' =>
      if is_event node then
        hatId <- compileStatement node ;;
        top_loop all nodes' (push scripts hatId)
      else
        startHat <- addBlock "event_whenflagclicked" [] [] None None ;;
        compiled <- compileStatements compileStatement all ;;
        _ <- (if id_truthy (first compiled)
              then set_next startHat (first compiled)
              else ret tt) ;;
        ret scripts                                   (* break *)
  end.

Definition init_gen : gen := {| blocks := ∅; draws := 0; created := [] |}.

(** [generateProject(ast)]: the run of the top-level loop on fresh
    [blocks].  The project returned holds the [blocks] of the state left;
    [scripts] is local to the function. *)
Definition generateProject (ast : Program)
    : res gen (list (option jsstring)) :=
  top_loop (body ast) (body ast) [] init_gen.

End Lowering.


(* ===================================================================== *)
(** ** Inputs the properties are stated on *)
(* ===================================================================== *)

(** The program of the file's header comment. *)
Definition example_source : jsstring :=
  str "on start; repeat(5) { move(10); turn right(15); }".

Definition example_repeat : stmt :=
  Repeat (num 5)
    [Call (str "move") [LNum (num 10)] None;
     Call (str "turn") [LStr (str "right"); LNum (num 15)] None].

(** The tree the specification gives for [example_source]. *)
Definition example_tree : Program :=
  {| body := [Event start None None; example_repeat] |}.

(** Tokens that [parseSimple] takes as an argument. *)
Definition is_arg_token (t : token) : bool :=
  match t with
  | TNumber _ | TString _ | TIdent _ => true
  | _ => false
  end.

(** The argument an argument token is read as. *)
Definition arg_value (t : token) : lit :=
  match t with
  | TNumber n => LNum n
  | TString v | TIdent v | TPunct v => LStr v
  | TEof => LStr []
  end.

(** The tokens of an argument list: each argument token, followed by a
    comma where its flag is set. *)
Definition render_args (ats : list (token * bool)) : list token :=
  flat_map (fun x : token * bool =>
              if x.2 then [x.1; TPunct (str ",")] else [x.1]) ats.

(** The tokens of the call statement [name(args);] at the end of input. *)
Definition call_tokens (name : jsstring) (ats : list (token * bool))
    : list token :=
  [TIdent name; TPunct (str "(")] ++ render_args ats
    ++ [TPunct (str ")"); TPunct (str ";"); TEof].

(** The identifiers [parseStatement] does not take as a call name. *)
Definition statement_keywords : list string :=
  ["on"; "repeat"; "loop"; "if"; "await"].

Definition foo_1_2 : Program :=
  {| body := [Call (str "foo") [LNum (num 1); LNum (num 2)] None] |}.

(** The source text [if (x > 0) { say("hi");], its block left open. *)
Definition unclosed_block_source : jsstring :=
  str "if (x > 0) { say(" ++ [quote] ++ str "hi" ++ [quote] ++ str ");".

(** The source text [if (x > 0], its parenthesis left open. *)
Definition unclosed_paren_source : jsstring := str "if (x > 0".

(** Two blanks, then a string literal that is not closed. *)
Definition unterminated_sample : jsstring := str "  " ++ [quote] ++ str "abc".

(** *** What a message of the parser shows *)

(** Whether the message names what the parser wanted. *)
Definition msg_expected (m : message) : bool :=
  match m with
  | ExpectedGot _ _ _ | ExpectedKey | ExpectedString
  | ExpectedNumberInRepeat | ExpectedNumberInFor
  | ExpectedSemicolonAfterStatement _ => true
  | _ => false
  end.

(** The token found, when the message shows it (as JSON: type and
    value). *)
Definition msg_actual (m : message) : option token :=
  match m with
  | ExpectedGot _ _ t | UnexpectedTokenInStatement t | UnknownEvent t
  | UnexpectedArgToken t => Some t
  | _ => None
  end.

(** The position in the token sequence or in the source the message
    shows: no message is built from the cursor or from an offset. *)
Definition msg_position (m : message) : option nat :=
  match m with
  | _ => None
  end.

(** *** Id sources *)

Definition hexdigit (n : N) : N :=
  if (n <? 10)%N then (48 + n)%N else (87 + n)%N.

(** [n] in [w] hexadecimal digits. *)
Fixpoint hex (w : nat) (n : N) : jsstring :=
  match w with
  | 0 => []
  | S w' => hex w' (n / 16)%N ++ [hexdigit (n mod 16)%N]
  end.

(** A source of version-4 UUIDs that differ in their first eight digits:
    the n-th is [hex8(n)-0000-4000-8000-000000000000]. *)
Definition uuid_counter (n : nat) : jsstring :=
  hex 8 (N.of_nat n) ++ str "-0000-4000-8000-000000000000".

(** A source of version-4 UUIDs, all different, that differ only in their
    last twelve digits: the n-th is [00000000-0000-4000-8000-hex12(n)]. *)
Definition uuid_tail (n : nat) : jsstring :=
  str "00000000-0000-4000-8000-" ++ hex 12 (N.of_nat n).

(** The id made from the n-th UUID of [uuid_counter]. *)
Definition nid (n : nat) : jsstring := short_id (uuid_counter n).

(** *** Reading the outcome of a lowering run *)

Definition is_ok {S A} (r : res S A) : bool :=
  match r with
  | Ok _ _ => true
  | _ => false
  end.

Definition returned {A} (r : res gen A) : option A :=
  match r with
  | Ok a _ => Some a
  | _ => None
  end.

Definition block_at {A} (r : res gen A) (id : jsstring) : option Block.t :=
  match r with
  | Ok _ g => blocks g !! id
  | _ => None
  end.

Definition created_in {A} (r : res gen A) : list jsstring :=
  match r with
  | Ok _ g => created g
  | _ => []
  end.

Definition block_count {A} (r : res gen A) : nat :=
  match r with
  | Ok _ g => size (blocks g)
  | _ => 0
  end.

(** *** Statements the properties are stated on *)

Definition move10 : stmt := Call (str "move") [LNum (num 10)] None.
Definition move0 : stmt := Call (str "move") [LNum (num 0)] None.
Definition wait1 : stmt := Call (str "wait") [LNum (num 1)] None.
Definition turn_up : stmt :=
  Call (str "turn") [LStr (str "up"); LNum (num 15)] None.
Definition on_key_a : stmt := Event key (Some (str "a")) None.

(** A hat block with its [next]. *)
Definition hat (next : option jsstring) : Block.t :=
  Block.Make "event_whenflagclicked" [] [] next None.

(** Whether a key event stands where the lowering visits: in the list
    itself or in the body of a Repeat, of a loop, or in the consequent of
    an If (the alternate is not lowered). *)
Fixpoint has_key (s : stmt) : bool :=
  match s with
  | Event key _ _ => true
  | Repeat _ b | LoopStatement b | If _ b _ => existsb has_key b
  | _ => false
  end.

(** A program of [n] top-level [move(10);] statements. *)
Definition moves (n : nat) : Program := {| body := replicate n move10 |}.

(* ===================================================================== *)
(** ** Vocabulary of the properties *)
(* ===================================================================== *)

(** [wp m s Q E]: the run of [m] from [s] returns with [Q], or throws an
    error in [E]; it does not exhaust the fuel of the embedding. *)
Definition wp {S A} (m : M S A) (s : S) (Q : A -> S -> Prop)
    (E : jserror -> Prop) : Prop :=
  match m s with
  | Ok a s' => Q a s'
  | Throw e => E e
  | OutOfFuel => False
  end.

(** *** Lexer *)

(** [token_start input pos]: the loop of [tokenize] reaches the cursor
    position [pos] at the top of a turn; it starts its next token there. *)
Inductive token_start (input : jsstring) : nat -> Prop :=
| ts_begin : token_start input 0
| ts_skip pos :
    token_start input pos -> pos < length input ->
    tokenize_step input pos = StepSkip ->
    token_start input (S pos)
| ts_match pos pos' tok :
    token_start input pos -> pos < length input ->
    tokenize_step input pos = StepMatch pos' tok ->
    token_start input pos'.

(** *** Parser *)

(** Tokens still to read. *)
Definition left_to_read (p : Parser) : nat := length (tokens p) - pos p.

(** The cursor did not move back ([steady]), moved forward ([moved]). *)
Definition steady (p p' : Parser) : Prop :=
  tokens p' = tokens p /\ pos p <= pos p'.

Definition moved (p p' : Parser) : Prop :=
  tokens p' = tokens p /\ pos p < pos p'.

(** The cursor is on a token. *)
Definition on_token (p : Parser) : Prop := pos p < length (tokens p).

(** The messages the parser throws (the lowering has one of its own). *)
Definition is_parser_message (m : message) : bool :=
  match m with
  | UnhandledStmtType _ => false
  | _ => true
  end.

(** What the parser may throw on the tokens [toks]: the engine's
    TypeError, or one of its own messages, where a token shown as found
    is a token of [toks]. *)
Definition parse_error_ok (toks : list token) (e : jserror) : Prop :=
  match e with
  | TypeError => True
  | Error m =>
      is_parser_message m = true
      /\ forall t, msg_actual m = Some t -> t ∈ toks
  end.

(** [post m p Q]: the run of the parser method [m] from [p] does not
    exhaust its fuel; when it returns, the tokens are the same and [Q]
    holds of the value and the parser left; when it throws, it throws as
    [parse_error_ok] says. *)
Definition post {A} (m : PM A) (p : Parser) (Q : A -> Parser -> Prop)
    : Prop :=
  wp m p (fun a p' => tokens p' = tokens p /\ Q a p')
    (parse_error_ok (tokens p)).

(** The parser with [pre] read and [suf] still to read. *)
Definition cursor_at (pre suf : list token) : Parser :=
  {| tokens := pre ++ suf; pos := length pre |}.

(** *** Lowering *)

(** The id [addBlock] gives out in state [g]. *)
Definition next_id (uuidv4 : nat -> jsstring) (g : gen) : jsstring :=
  short_id (uuidv4 (draws g)).

(** The state after [addBlock] put [b] in. *)
Definition added (uuidv4 : nat -> jsstring) (g : gen) (b : Block.t) : gen :=
  {| blocks := <[next_id uuidv4 g := b]> (blocks g);
     draws := S (draws g);
     created := created g ++ [next_id uuidv4 g] |}.

(** The direction of a [turn] is one the lowering has a block for. *)
Definition known_direction (args : list lit) : bool :=
  (arg_is (args !! 0) "right" || arg_is (args !! 0) "lef"
   || arg_is (args !! 0) "left")%bool.

(** The ids given out so far come from different calls of [uuidv4], in
    the order of the calls, and [blocks] holds exactly these ids. *)
Definition Inv (uuidv4 : nat -> jsstring) (g : gen) : Prop :=
  exists ks : list nat,
    created g = map (fun k => short_id (uuidv4 k)) ks
    /\ StronglySorted lt ks
    /\ Forall (fun k => k < draws g) ks
    /\ dom (blocks g) = list_to_set (created g).

(** The run only added to the state. *)
Definition ext (g g' : gen) : Prop :=
  draws g <= draws g' /\ exists new, created g' = created g ++ new.

(** An id-or-null that is an id is the id of a block. *)
Definition known (g : gen) (o : option jsstring) : Prop :=
  forall i, o = Some i -> i ∈ created g.

(** The one error the lowering throws. *)
Definition unhandled_event (e : jserror) : Prop :=
  e = Error (UnhandledStmtType "Event").

(** What the lowering of a statement leaves when it returns. *)
Definition stmt_post (uuidv4 : nat -> jsstring) (s : stmt) (g : gen)
    (r : option jsstring) (g' : gen) : Prop :=
  Inv uuidv4 g' /\ ext g g' /\ known g' r /\ has_key s = false.

Definition stmt_ok (uuidv4 : nat -> jsstring)
    (cs : stmt -> GM (option jsstring)) (s : stmt) : Prop :=
  forall g, Inv uuidv4 g -> wp (cs s) g (stmt_post uuidv4 s g) unhandled_event.

(** What the lowering of a statement list leaves when it returns. *)
Definition list_post (uuidv4 : nat -> jsstring) (stmts : list stmt)
    (g : gen) (c : compiled) (g' : gen) : Prop :=
  Inv uuidv4 g' /\ ext g g' /\ known g' (first c)
  /\ (blocksOrder c <> [] -> id_truthy (first c) = true)
  /\ existsb has_key stmts = false.


(* ===================================================================== *)
(** ** Vocabulary of further properties *)
(* ===================================================================== *)

(** *** The texts the pattern matches *)

Module RegexLang.
Import Regex.

(** The texts a pattern matches, captures left aside. *)
Fixpoint lang (r : regex) (w : jsstring) : Prop :=
  match r with
  | Cls p => exists d, w = [d] /\ p d = true
  | Lit l => w = l
  | Seq r1 r2 => exists w1 w2, w = w1 ++ w2 /\ lang r1 w1 /\ lang r2 w2
  | Alt r1 r2 => lang r1 w \/ lang r2 w
  | Star p => Forall (fun d => p d = true) w
  | Opt r1 => w = [] \/ lang r1 w
  | Grp _ r1 => lang r1 w
  end.

(** Every capture group of [r] captures only texts in [P]. *)
Fixpoint groups_in (P : nat -> jsstring -> Prop) (r : regex) : Prop :=
  match r with
  | Seq r1 r2 | Alt r1 r2 => groups_in P r1 /\ groups_in P r2
  | Opt r1 => groups_in P r1
  | Grp i r1 => (forall w, lang r1 w -> P i w) /\ groups_in P r1
  | _ => True
  end.

(** The captures made so far are in [P]. *)
Definition caps_in (P : nat -> jsstring -> Prop) (c : caps) : Prop :=
  forall i t, c i = Some t -> P i t.

End RegexLang.

(** What the groups of the lexer's pattern capture: group 1 one of the
    punctuation literals; group 2 a letter or underscore, then letters,
    digits, underscores, dots and quotes; group 3 a quote, code units that
    are no quote, a quote; group 4 digits with at most dots among them. *)
Definition lexeme_of_group (i : nat) (t : jsstring) : Prop :=
  match i with
  | 1 => t ∈ map str punct_lits
  | 2 => exists d r, t = d :: r /\ is_ident_start d = true
                     /\ Forall (fun x => is_ident_part x = true) r
  | 3 => exists b, t = [quote] ++ b ++ [quote]
                   /\ Forall (fun x => not_quote x = true) b
  | 4 => t <> [] /\ Forall (fun x => (is_digit x || N.eqb x 46)%bool = true) t
  | _ => True
  end.

(** A token as the lexer makes it. *)
Definition token_wf (t : token) : Prop :=
  match t with
  | TPunct v => v ∈ map str punct_lits
  | TIdent v => exists d r, v = d :: r /\ is_ident_start d = true
                            /\ Forall (fun x => is_ident_part x = true) r
  | TString v => Forall (fun x => x <> quote) v
  | TNumber _ => True
  | TEof => True
  end.

(** *** Tokens as written *)

(** A token as it is written in the source: a punctuation literal, an
    identifier, the text of a string between its quotes, the digits of a
    number before and after the dot. *)
Inductive written :=
| WPunct (v : string)
| WIdent (v : jsstring)
| WString (v : jsstring)
| WNumber (int : jsstring) (frac : option jsstring).

Definition lexeme (w : written) : jsstring :=
  match w with
  | WPunct v => str v
  | WIdent v => v
  | WString v => [quote] ++ v ++ [quote]
  | WNumber i f =>
      i ++ match f with
           | Some d => str "." ++ d
           | None => []
           end
  end.

(** The token the lexer makes of it. *)
Definition token_of (w : written) : token :=
  match w with
  | WPunct v => TPunct (str v)
  | WIdent v => TIdent v
  | WString v => TString v
  | WNumber _ _ => TNumber (Number (lexeme w))
  end.

Definition digits (s : jsstring) : bool :=
  match s with
  | [] => false
  | _ => forallb is_digit s
  end.

Definition written_ok (w : written) : bool :=
  match w with
  | WPunct v => existsb (String.eqb v) punct_lits
  | WIdent v =>
      match v with
      | c :: r => is_ident_start c && forallb is_ident_part r
      | [] => false
      end
  | WString v => forallb not_quote v
  | WNumber i f =>
      digits i && match f with
                  | Some d => digits d
                  | None => true
                  end
  end.

Definition space : char := 32%N.

(** The source text of written tokens: each followed by one space. *)
Definition text (ws : list written) : jsstring :=
  flat_map (fun w => lexeme w ++ [space]) ws.

(** [t] is empty or starts with a code unit outside the class [p]. *)
Definition stops (p : char -> bool) (t : jsstring) : Prop :=
  match t with
  | [] => True
  | c :: _ => p c = false
  end.

(** The pattern [body] takes the text [lex] in front of [t] when what
    follows it matches. *)
Definition consumes (body : Regex.regex) (lex t : jsstring) : Prop :=
  forall R c (k : jsstring -> Regex.caps -> option R),
    is_Some (k t c) -> Regex.rmatch body (lex ++ t) c k = k t c.

(** The pattern [body] matches nowhere at the front of [s]. *)
Definition rejects (body : Regex.regex) (s : jsstring) : Prop :=
  forall R c (k : jsstring -> Regex.caps -> option R),
    Regex.rmatch body s c k = None.

(** The capture group a written token is matched by. *)
Definition group_of (w : written) : nat :=
  match w with
  | WPunct _ => 1
  | WIdent _ => 2
  | WString _ => 3
  | WNumber _ _ => 4
  end.

(** *** The statements the parser reads, with their tokens *)

(** A statement as written: the condition of an [if] or an [await] with
    its tokens, the arguments of a call with, for each, whether a comma
    follows it, and [None] for a call written without parentheses. *)
#[warnings="-register-all"]
Inductive syntax :=
| SOnStart
| SOnClick
| SOnKey (k : token)
| SOnBackdrop (n : token)
| SRepeat (count : jsnum) (body : list syntax)
| SLoop (body : list syntax)
| SIf (cond : list token) (consequent : list syntax)
      (alternate : option (list syntax))
| SAwaitUntil (cond : list token)
| SCall (name : jsstring) (args : option (list (token * bool)))
        (for_ : option jsnum)
| SSemicolon.

Definition for_tokens (f : option jsnum) : list token :=
  match f with
  | Some n => [TIdent (str "for"); TPunct (str "("); TNumber n;
               TPunct (str ")")]
  | None => []
  end.

(** The tokens of a statement. *)
Fixpoint tokens_of (s : syntax) : list token :=
  match s with
  | SOnStart => [TIdent (str "on"); TIdent (str "start"); TPunct (str ";")]
  | SOnClick => [TIdent (str "on"); TIdent (str "click"); TPunct (str ";")]
  | SOnKey k =>
      [TIdent (str "on"); TIdent (str "key"); TPunct (str "("); k;
       TPunct (str ")"); TPunct (str ";")]
  | SOnBackdrop n =>
      [TIdent (str "on"); TIdent (str "backdrop"); TPunct (str "("); n;
       TPunct (str ")"); TPunct (str ";")]
  | SRepeat count body =>
      [TIdent (str "repeat"); TPunct (str "("); TNumber count;
       TPunct (str ")"); TPunct (str "{")]
        ++ flat_map tokens_of body ++ [TPunct (str "}")]
  | SLoop body =>
      [TIdent (str "loop"); TPunct (str "{")]
        ++ flat_map tokens_of body ++ [TPunct (str "}")]
  | SIf cond consequent alternate =>
      [TIdent (str "if"); TPunct (str "(")] ++ cond
        ++ [TPunct (str ")"); TPunct (str "{")]
        ++ flat_map tokens_of consequent ++ [TPunct (str "}")]
        ++ match alternate with
           | Some b =>
               [TIdent (str "else"); TPunct (str "{")]
                 ++ flat_map tokens_of b ++ [TPunct (str "}")]
           | None => []
           end
  | SAwaitUntil cond =>
      [TIdent (str "await"); TIdent (str "until"); TPunct (str "(")] ++ cond
        ++ [TPunct (str ")"); TPunct (str ";")]
  | SCall name args for_ =>
      [TIdent name]
        ++ match args with
           | Some ats =>
               [TPunct (str "(")] ++ render_args ats ++ [TPunct (str ")")]
           | None => []
           end
        ++ for_tokens for_ ++ [TPunct (str ";")]
  | SSemicolon => [TPunct (str ";")]
  end.

(** The statement of the tree it stands for. *)
Fixpoint tree_of (s : syntax) : stmt :=
  match s with
  | SOnStart => Event start None None
  | SOnClick => Event click None None
  | SOnKey k => Event key (Some (tok_text k)) None
  | SOnBackdrop n => Event backdrop None (Some (tok_text n))
  | SRepeat count body => Repeat count (map tree_of body)
  | SLoop body => LoopStatement (map tree_of body)
  | SIf cond consequent alternate =>
      If (map tok_value cond) (map tree_of consequent)
        (option_map (map tree_of) alternate)
  | SAwaitUntil cond => AwaitUntil (map tok_value cond)
  | SCall name args for_ =>
      Call name
        (map (fun x : token * bool => arg_value x.1) (default [] args)) for_
  | SSemicolon => Empty
  end.

Definition is_name_token (t : token) : bool :=
  match t with
  | TIdent _ | TString _ => true
  | _ => false
  end.

(** What the parser asks of the written statement: a key or a backdrop
    name is an identifier or a string, a condition holds no closing
    parenthesis, the arguments of a call are numbers, strings or
    identifiers, and the name of a call is none of the keywords, [else]
    among them. *)
Fixpoint well_formed (s : syntax) : bool :=
  match s with
  | SOnStart | SOnClick | SSemicolon => true
  | SOnKey k => is_name_token k
  | SOnBackdrop n => is_name_token n
  | SRepeat _ body | SLoop body => forallb well_formed body
  | SIf cond consequent alternate =>
      forallb (fun t => negb (is_tok punct ")" t)) cond
      && forallb well_formed consequent
      && match alternate with
         | Some b => forallb well_formed b
         | None => true
         end
  | SAwaitUntil cond => forallb (fun t => negb (is_tok punct ")" t)) cond
  | SCall name args _ =>
      forallb (fun kw => negb (jsstring_eqb name (str kw)))
        ("else" :: statement_keywords)
      && forallb (fun x : token * bool => is_arg_token x.1) (default [] args)
  end.

(** A sample with every form, nested. *)
Definition sample_syntax : list syntax :=
  [SOnStart;
   SRepeat (num 3)
     [SIf [TIdent (str "x"); TPunct (str "=="); TNumber (num 1)]
        [SCall (str "move") (Some [(TNumber (num 10), false)]) None;
         SLoop [SSemicolon; SAwaitUntil [TIdent (str "done")]]]
        (Some [SCall (str "say")
                 (Some [(TString (str "hi"), true); (TIdent (str "x"), false)])
                 (Some (num 2))]);
      SCall (str "hide") None None];
   SOnKey (TIdent (str "a"));
   SOnBackdrop (TString (str "night"));
   SOnClick;
   SIf [] [] None].

(** [ps] reads the statement [s] where it stands, whatever follows it
    that is not [else]. *)
Definition reads (ps : PM stmt) (s : syntax) : Prop :=
  forall pre t rest,
    is_tok ident "else" t = false ->
    ps (cursor_at pre (tokens_of s ++ t :: rest))
    = Ok (tree_of s) (cursor_at (pre ++ tokens_of s) (t :: rest)).

(** *** What the parser accepts *)

(** The shape of a statement the parser accepts: as [well_formed], but
    with any name that is no keyword for a call. *)
Fixpoint shaped (s : syntax) : bool :=
  match s with
  | SOnStart | SOnClick | SSemicolon => true
  | SOnKey k => is_name_token k
  | SOnBackdrop n => is_name_token n
  | SRepeat _ body | SLoop body => forallb shaped body
  | SIf cond consequent alternate =>
      forallb (fun t => negb (is_tok punct ")" t)) cond
      && forallb shaped consequent
      && match alternate with
         | Some b => forallb shaped b
         | None => true
         end
  | SAwaitUntil cond => forallb (fun t => negb (is_tok punct ")" t)) cond
  | SCall name args _ =>
      forallb (fun kw => negb (jsstring_eqb name (str kw))) statement_keywords
      && forallb (fun x : token * bool => is_arg_token x.1) (default [] args)
  end.

(** [ps] returns only on the tokens of a statement of that shape, with
    the tree of that statement, having read these tokens and no more. *)
Definition reads_only (ps : PM stmt) : Prop :=
  forall pre suf s p',
    ps (cursor_at pre suf) = Ok s p' ->
    exists syn suf',
      suf = tokens_of syn ++ suf'
      /\ p' = cursor_at (pre ++ tokens_of syn) suf'
      /\ s = tree_of syn
      /\ shaped syn = true.

(** *** Blocks left open *)

(** The start of a statement up to the opening brace of a block of it. *)
Inductive opener :=
| OLoop
| ORepeat (count : jsnum)
| OIf (cond : list token)
| OElse (cond : list token) (consequent : list syntax).

Definition opener_tokens (o : opener) : list token :=
  match o with
  | OLoop => [TIdent (str "loop"); TPunct (str "{")]
  | ORepeat count =>
      [TIdent (str "repeat"); TPunct (str "("); TNumber count;
       TPunct (str ")"); TPunct (str "{")]
  | OIf cond =>
      [TIdent (str "if"); TPunct (str "(")] ++ cond
        ++ [TPunct (str ")"); TPunct (str "{")]
  | OElse cond consequent =>
      [TIdent (str "if"); TPunct (str "(")] ++ cond
        ++ [TPunct (str ")"); TPunct (str "{")]
        ++ flat_map tokens_of consequent
        ++ [TPunct (str "}"); TIdent (str "else"); TPunct (str "{")]
  end.

Definition opener_ok (o : opener) : bool :=
  match o with
  | OLoop | ORepeat _ => true
  | OIf cond => forallb (fun t => negb (is_tok punct ")" t)) cond
  | OElse cond consequent =>
      forallb (fun t => negb (is_tok punct ")" t)) cond
      && forallb well_formed consequent
  end.

(** A block being read: the statements already in it and the opener of
    the statement whose block comes next. *)
Definition frame : Type := list syntax * opener.

Definition frame_tokens (f : frame) : list token :=
  flat_map tokens_of f.1 ++ opener_tokens f.2.

Definition frame_ok (f : frame) : bool :=
  forallb well_formed f.1 && opener_ok f.2.

(** The input that ends inside the blocks [fs], from the outermost to the
    innermost, after the statements [body] of the innermost. *)
Definition unclosed_tokens (fs : list frame) (body : list syntax)
    : list token :=
  flat_map frame_tokens fs ++ flat_map tokens_of body ++ [TEof].

(** *** The blocks a run leaves *)

(** Blocks created for a statement, and calls of [uuidv4] made for it: a
    Repeat draws one id it does not use. *)
Fixpoint nodes (s : stmt) : nat :=
  match s with
  | Repeat _ b | LoopStatement b | If _ b _ => S (list_sum (map nodes b))
  | Empty => 0
  | _ => 1
  end.

Fixpoint uuids (s : stmt) : nat :=
  match s with
  | Repeat _ b => 2 + list_sum (map uuids b)
  | LoopStatement b | If _ b _ => S (list_sum (map uuids b))
  | Empty => 0
  | _ => 1
  end.

(** The same for a program: a hat for each event before the first
    statement that is no event, then, if there is such a statement, the
    start hat and the whole body. *)
Fixpoint leading_events (body : list stmt) : nat :=
  match body with
  | s :: l => if is_event s then S (leading_events l) else 0
  | [] => 0
  end.

Definition all_events (body : list stmt) : bool := forallb is_event body.

Definition top_nodes (body : list stmt) : nat :=
  leading_events body
  + (if all_events body then 0 else S (list_sum (map nodes body))).

Definition top_uuids (body : list stmt) : nat :=
  leading_events body
  + (if all_events body then 0 else S (list_sum (map uuids body))).

(** The block an input named SUBSTACK points to. *)
Definition substack_ref (i : string * jsval) : list jsstring :=
  if String.eqb i.1 "SUBSTACK" then
    match i.2 with
    | VArr [_; VStr x] => [x]
    | _ => []
    end
  else [].

(** The ids a block refers to: its [next], its [parent], its substack. *)
Definition refs (b : Block.t) : list jsstring :=
  option_list (Block.next b) ++ option_list (Block.parent b)
    ++ flat_map substack_ref (Block.inputs b).

(** No block refers to an id [blocks] does not hold. *)
Definition closed (g : gen) : Prop :=
  forall id b, blocks g !! id = Some b ->
    forall r, r ∈ refs b -> r ∈ dom (blocks g).

Definition Good (uuidv4 : nat -> jsstring) (g : gen) : Prop :=
  Inv uuidv4 g /\ closed g.

(** What a run for [n] blocks and [u] calls of [uuidv4] adds. *)
Definition grown (g g' : gen) (n u : nat) : Prop :=
  ext g g'
  /\ length (created g') = length (created g) + n
  /\ draws g' = draws g + u.

Definition stmt_grown (uuidv4 : nat -> jsstring) (s : stmt) (g : gen)
    (r : option jsstring) (g' : gen) : Prop :=
  Good uuidv4 g' /\ known g' r /\ grown g g' (nodes s) (uuids s).

(** The lowering throws only for a key event that is there. *)
Definition key_event_error (found : bool) (e : jserror) : Prop :=
  unhandled_event e /\ found = true.

Definition stmt_grows (uuidv4 : nat -> jsstring)
    (cs : stmt -> GM (option jsstring)) (s : stmt) : Prop :=
  forall g, Good uuidv4 g ->
    wp (cs s) g (stmt_grown uuidv4 s g) (key_event_error (has_key s)).

Definition list_grown (uuidv4 : nat -> jsstring) (stmts : list stmt)
    (g : gen) (c : compiled) (g' : gen) : Prop :=
  Good uuidv4 g' /\ known g' (first c)
  /\ (blocksOrder c <> [] -> id_truthy (first c) = true)
  /\ grown g g' (list_sum (map nodes stmts)) (list_sum (map uuids stmts)).

(** The ids given out from [g] on, in [g']. *)
Definition news (g g' : gen) : list jsstring :=
  drop (length (created g)) (created g').

(** *** What the lowering reads of a tree *)

Definition is_empty (s : stmt) : bool :=
  match s with
  | Empty => true
  | _ => false
  end.

(** The part of a call the lowering reads: the first argument of [move],
    [say] and [wait], the first two of [turn], none of any other call;
    the [for] of [say] only. *)
Definition read_call (name : jsstring) (args : list lit)
    (for_ : option jsnum) : stmt :=
  if jsstring_eqb name (str "move") then Call name (take 1 args) None
  else if jsstring_eqb name (str "turn") then Call name (take 2 args) None
  else if jsstring_eqb name (str "say") then Call name (take 1 args) for_
  else if jsstring_eqb name (str "wait") then Call name (take 1 args) None
  else Call name [] None.

(** The part of a statement the lowering reads: no [else] block, no empty
    statement in a block, no key of an event, the name of a backdrop
    event only. *)
Fixpoint read_part (s : stmt) : stmt :=
  match s with
  | Event k _ n =>
      Event k None match k with backdrop => n | _ => None end
  | Repeat c b =>
      Repeat c (List.filter (fun x => negb (is_empty x)) (map read_part b))
  | LoopStatement b =>
      LoopStatement (List.filter (fun x => negb (is_empty x)) (map read_part b))
  | If c b _ =>
      If c (List.filter (fun x => negb (is_empty x)) (map read_part b)) None
  | AwaitUntil c => AwaitUntil c
  | Call n a f => read_call n a f
  | Empty => Empty
  end.

(** *** The blocks of a tree *)

(** Opcode and inputs of the block of a call. *)
Definition call_node (name : jsstring) (args : list lit)
    (for_ : option jsnum) : string * list (string * jsval) :=
  if jsstring_eqb name (str "move") then
    ("motion_movesteps",
     [("STEPS", num_input (lit_val (lit_or (args !! 0) (LNum (num 10)))))])
  else if jsstring_eqb name (str "turn") then
    let amount := lit_or (args !! 1) (LNum (num 15)) in
    if arg_is (args !! 0) "right" then
      ("motion_turnright", [("DEGREES", num_input (lit_val amount))])
    else if (arg_is (args !! 0) "lef" || arg_is (args !! 0) "left")%bool then
      ("motion_turnleft", [("DEGREES", num_input (lit_val amount))])
    else ("procedures_call", [])
  else if jsstring_eqb name (str "say") then
    let message :=
      ("MESSAGE", VArr [VNum (num 10);
                        lit_val (lit_or (args !! 0) (LStr []))]) in
    match for_ with
    | Some secs =>
        if jsnum_truthy secs
        then ("looks_sayforsecs", [message; ("SECS", num_input (VNum secs))])
        else ("looks_say", [message])
    | None => ("looks_say", [message])
    end
  else if jsstring_eqb name (str "wait") then
    ("control_wait",
     [("DURATION", num_input (lit_val (lit_or (args !! 0) (LNum (num 1)))))])
  else ("procedures_call", []).

(** Opcode and inputs of the block of a statement, given the first block
    of its body if it has one.  A key event and an empty statement have
    no block. *)
Definition node_of (s : stmt) (bodyFirst : option jsstring)
    : string * list (string * jsval) :=
  match s with
  | Call name args for_ => call_node name args for_
  | Event start _ _ => ("event_whenflagclicked", [])
  | Event click _ _ => ("event_whenthisspriteclicked", [])
  | Event backdrop _ name =>
      ("event_whenbackdropswitchesto",
       [("BACKDROP", VArr [VNum (num 10); opt_str name])])
  | Event key _ _ => ("", [])
  | AwaitUntil condition =>
      ("control_wait_until",
       [("CONDITION", VArr [VNum (num 1); VJoin condition])])
  | Repeat count _ =>
      ("control_repeat",
       [("TIMES", num_input (VNum count));
        ("SUBSTACK", VArr [VNum (num 2); id_val bodyFirst])])
  | LoopStatement _ =>
      ("control_forever",
       [("SUBSTACK", VArr [VNum (num 2); id_val bodyFirst])])
  | If condition _ _ =>
      ("control_if",
       [("CONDITION", VArr [VNum (num 1); VJoin condition]);
        ("SUBSTACK", VArr [VNum (num 2); id_val bodyFirst])])
  | Empty => ("", [])
  end.

Definition block_of (s : stmt) (bodyFirst next parent : option jsstring)
    : Block.t :=
  Block.Make (node_of s bodyFirst).1 (node_of s bodyFirst).2 [] next parent.

(** The body that is lowered, and the calls of [uuidv4] made before it. *)
Definition body_of (s : stmt) : list stmt :=
  match s with
  | Repeat _ b | LoopStatement b | If _ b _ => b
  | _ => []
  end.

Definition body_offset (s : stmt) : nat :=
  match s with
  | Repeat _ _ => 1
  | _ => 0
  end.

Definition with_next (v : option jsstring) (b : Block.t) : Block.t :=
  Block.Make (Block.opcode b) (Block.inputs b) (Block.fields b) v
    (Block.parent b).

Definition with_parent (v : option jsstring) (b : Block.t) : Block.t :=
  Block.Make (Block.opcode b) (Block.inputs b) (Block.fields b)
    (Block.next b) v.

(** [blocks[p].next = v] and [blocks[p].parent = v] on a block that is
    there. *)
Definition put_next (p : jsstring) (v : option jsstring)
    (m : gmap (list N) Block.t) : gmap (list N) Block.t :=
  match m !! p with
  | Some b => <[p := with_next v b]> m
  | None => m
  end.

Definition put_parent (p : jsstring) (v : option jsstring)
    (m : gmap (list N) Block.t) : gmap (list N) Block.t :=
  match m !! p with
  | Some b => <[p := with_parent v b]> m
  | None => m
  end.

Section Reference.

Variable uuidv4 : nat -> jsstring.

(** The id made of the k-th UUID of the run. *)
Definition sid (k : nat) : jsstring := short_id (uuidv4 k).

(** The id of the block of a statement lowered from the k-th UUID on: made
    of the last UUID drawn for it. *)
Definition root (s : stmt) (k : nat) : option jsstring :=
  match s with
  | Empty => None
  | _ => Some (sid (k + uuids s - 1))
  end.

(** The id of the first block of a list of statements. *)
Fixpoint first_root (l : list stmt) (k : nat) : option jsstring :=
  match l with
  | [] => None
  | s :: l' =>
      match root s k with
      | Some i => Some i
      | None => first_root l' (k + uuids s)
      end
  end.

(** The blocks of a statement lowered from the k-th UUID on, with [next]
    and [parent] for its own block: its block, and the blocks of its body,
    each statement's block linked to the next statement's, the first one
    with the statement's block as parent. *)
Fixpoint lowered (s : stmt) (k : nat) (next parent : option jsstring)
    : gmap (list N) Block.t :=
  let fix lowered_list (l : list stmt) (k : nat) (parent : option jsstring)
      : gmap (list N) Block.t :=
    match l with
    | [] => ∅
    | x :: l' =>
        lowered_list l' (k + uuids x) (if is_empty x then parent else None)
          ∪ lowered x k (first_root l' (k + uuids x)) parent
    end in
  match s with
  | Empty => ∅
  | Repeat _ b | LoopStatement b | If _ b _ =>
      let me := sid (k + uuids s - 1) in
      <[me := block_of s (first_root b (k + body_offset s)) next parent]>
        (lowered_list b (k + body_offset s) (Some me))
  | _ =>
      <[sid k := block_of s None next parent]> ∅
  end.

Fixpoint lowered_list (l : list stmt) (k : nat) (parent : option jsstring)
    : gmap (list N) Block.t :=
  match l with
  | [] => ∅
  | x :: l' =>
      lowered_list l' (k + uuids x) (if is_empty x then parent else None)
        ∪ lowered x k (first_root l' (k + uuids x)) parent
  end.

(** The blocks of a program: the hats of the leading events, then, from
    the first statement that is no event on, the start hat linked to the
    blocks of the whole body. *)
Fixpoint top_lowered (all rest : list stmt) (k : nat)
    : gmap (list N) Block.t :=
  match rest with
  | [] => ∅
  | node :: rest' =>
      if is_event node then
        top_lowered all rest' (S k) ∪ lowered node k None None
      else
        lowered_list all (S k) None
          ∪ <[sid k := hat (first_root all (S k))]> ∅
  end.

(** The UUIDs from the k-th on, [n] of them, give ids that are not empty
    and differ from one another. *)
Definition ids_ok (k n : nat) : Prop :=
  forall i, k <= i < k + n ->
    sid i <> [] /\ forall j, k <= j < k + n -> sid i = sid j -> i = j.

End Reference.

(** The link from the block before a list to the first block of the
    list, when both are there. *)
Definition link (prevId first : option jsstring)
    (m : gmap (list N) Block.t) : gmap (list N) Block.t :=
  match prevId, first with
  | Some p, Some _ => put_next p first m
  | _, _ => m
  end.

(** [cs] lowers the statement [s] to its blocks, from any state, when
    the UUIDs drawn for it give good ids. *)
Definition lowers_to (uuidv4 : nat -> jsstring)
    (cs : stmt -> GM (option jsstring)) (s : stmt) : Prop :=
  forall g,
    has_key s = false -> ids_ok uuidv4 (draws g) (uuids s) ->
    exists g',
      cs s g = Ok (root uuidv4 s (draws g)) g'
      /\ blocks g' = lowered uuidv4 s (draws g) None None ∪ blocks g
      /\ draws g' = draws g + uuids s.

(** The id of the last block made before a list is the id of a block,
    not empty and none of the ids to come. *)
Definition prev_ok (uuidv4 : nat -> jsstring) (prevId : option jsstring)
    (g : gen) (n : nat) : Prop :=
  forall p, prevId = Some p ->
    p <> [] /\ is_Some (blocks g !! p)
    /\ forall j, draws g <= j < draws g + n -> sid uuidv4 j <> p.

(** *** From the source text to the project *)

(** What the [compile] command of [main] computes before it writes the
    file: the tokens of the source, their tree, the project of the tree.
    [None] stands for a failure of the lexer or the parser. *)
Definition compile_source (uuidv4 : nat -> jsstring) (input : jsstring)
    : option (res gen (list (option jsstring))) :=
  match parse_source input with
  | Some (ParseOk ast) => Some (generateProject uuidv4 ast)
  | _ => None
  end.

(** A sample program as written, and its statements. *)
Definition sample_written : list written :=
  [WIdent (str "on"); WIdent (str "start"); WPunct ";";
   WIdent (str "repeat"); WPunct "("; WNumber (str "3") None; WPunct ")";
   WPunct "{";
   WIdent (str "move"); WPunct "("; WNumber (str "10") None; WPunct ")";
   WPunct ";";
   WIdent (str "say"); WPunct "("; WString (str "hi"); WPunct ")";
   WIdent (str "for"); WPunct "("; WNumber (str "2") None; WPunct ")";
   WPunct ";";
   WPunct "}"].

Definition sample_statements : list syntax :=
  [SOnStart;
   SRepeat (num 3)
     [SCall (str "move") (Some [(TNumber (num 10), false)]) None;
      SCall (str "say") (Some [(TString (str "hi"), false)])
        (Some (num 2))]].

(* ===================================================================== *)
(** ** The lexer: progress and termination *)
(* ===================================================================== *)

Module RegexFacts.

Lemma lit_match_length l s s' :
  lit_match l s = Some s' -> length s' + length l = length s.
Proof.
  revert s. induction l as [|c l IH]; intros [|d s] H; simpl in *;
    try discriminate.
  - by inversion H.
  - by inversion H.
  - destruct (N.eqb c d); [|discriminate]. apply IH in H. lia.
Qed.

Lemma star_match_some {R} p s (k : jsstring -> option R) x :
  star_match p s k = Some x ->
  exists s', k s' = Some x /\ length s' <= length s.
Proof.
  induction s as [|c s IH]; simpl; intros H.
  - exists []. done.
  - destruct (p c).
    + destruct (star_match p s k) eqn:E.
      * inversion H; subst. destruct (IH eq_refl) as (s' & Hk & Hl).
        exists s'. split; [done | lia].
      * exists (c :: s). done.
    + exists (c :: s). done.
Qed.

(** A successful match hands to its continuation a rest that is shorter
    by at least [min_len r]. *)
Lemma rmatch_some {R} r : forall s c (k : jsstring -> caps -> option R) x,
  rmatch r s c k = Some x ->
  exists s' c', k s' c' = Some x /\ length s' + min_len r <= length s.
Proof.
  induction r as [p|l|r1 IH1 r2 IH2|r1 IH1 r2 IH2|p|r1 IH1|i r1 IH1];
    intros s c k x H; simpl in H.
  - destruct s as [|d s]; [discriminate|]. destruct (p d); [|discriminate].
    exists s, c. simpl. split; [done | lia].
  - destruct (lit_match l s) as [s'|] eqn:E; [|discriminate].
    apply lit_match_length in E. exists s', c. simpl. split; [done | lia].
  - apply IH1 in H as (s1 & c1 & H & L1).
    apply IH2 in H as (s2 & c2 & H & L2).
    exists s2, c2. simpl. split; [done | lia].
  - destruct (rmatch r1 s c k) eqn:E.
    + inversion H; subst. apply IH1 in E as (s' & c' & Hk & L).
      exists s', c'. simpl. split; [done | lia].
    + apply IH2 in H as (s' & c' & Hk & L).
      exists s', c'. simpl. split; [done | lia].
  - apply star_match_some in H as (s' & Hk & L).
    exists s', c. simpl. split; [done | lia].
  - destruct (rmatch r1 s c k) eqn:E.
    + inversion H; subst. apply IH1 in E as (s' & c' & Hk & L).
      exists s', c'. simpl. split; [done | lia].
    + exists s, c. simpl. split; [done | lia].
  - apply IH1 in H as (s' & c' & Hk & L). eauto.
Qed.

Lemma exec_progress r input pos m lastIndex :
  0 < min_len r -> pos < length input ->
  exec r input pos = Some (m, lastIndex) ->
  pos < lastIndex <= length input.
Proof.
  intros Hr Hp H. unfold exec in H.
  apply rmatch_some in H as (s' & c' & Hk & L).
  inversion Hk; subst. rewrite length_drop in L. lia.
Qed.

Lemma star_match_none {R} p s (k : jsstring -> option R) :
  (forall n, k (drop n s) = None) -> star_match p s k = None.
Proof.
  induction s as [|c s IH]; intros Hk; simpl.
  - apply (Hk 0).
  - rewrite IH; [| intros n; apply (Hk (S n))].
    destruct (p c); apply (Hk 0).
Qed.

End RegexFacts.

Import RegexFacts.

Lemma re_min_len : min_len re = 1.
Proof. reflexivity. Qed.

(** A matching turn of the loop moves the cursor forward, inside the
    input. *)
Lemma tokenize_step_progress input pos pos' tok :
  pos < length input ->
  tokenize_step input pos = StepMatch pos' tok ->
  pos < pos' <= length input.
Proof.
  intros Hp H. unfold tokenize_step in H.
  destruct (exec re input pos) as [[m li]|] eqn:E.
  - inversion H; subst.
    eapply exec_progress; [|done|exact E]. rewrite re_min_len. lia.
  - destruct (input !! pos) as [ch|]; [destruct (is_blank ch)|]; discriminate.
Qed.

Lemma tokenize_loop_fuel fuel : forall input pos tokens,
  length input - pos <= fuel ->
  tokenize_loop fuel input pos tokens <> LexOutOfFuel.
Proof.
  induction fuel as [|fuel IH]; intros input pos tokens Hf; simpl.
  - destruct (pos <? length input) eqn:E; simpl; [|done].
    apply Nat.ltb_lt in E. lia.
  - destruct (pos <? length input) eqn:E; simpl; [|done].
    apply Nat.ltb_lt in E.
    destruct (tokenize_step input pos) as [|sn|pos' tok] eqn:Es; [| done |].
    + apply IH. lia.
    + apply tokenize_step_progress in Es; [|done]. apply IH. lia.
Qed.

(** [tokenize] returns the tokens or throws on every input: the fuel of the
    embedding's loop is never exhausted. *)
Lemma tokenize_total input : tokenize input <> LexOutOfFuel.
Proof. apply tokenize_loop_fuel. lia. Qed.

(** From a position the loop reaches, the run of [tokenize] is the run of
    the loop from there, with fuel left for all of the remaining input. *)
Lemma token_start_run input pos :
  token_start input pos ->
  exists fuel tokens,
    length input - pos <= fuel /\
    tokenize input = tokenize_loop fuel input pos tokens.
Proof.
  induction 1 as [|pos Hts IH Hlt Hs|pos pos' tok Hts IH Hlt Hs].
  - exists (length input), []. split; [lia | done].
  - destruct IH as (fuel & tokens & Hf & Hrun).
    destruct fuel as [|fuel]; [lia|].
    exists fuel, tokens. split; [lia|].
    rewrite Hrun. simpl. apply Nat.ltb_lt in Hlt. by rewrite Hlt, Hs.
  - destruct IH as (fuel & tokens & Hf & Hrun).
    destruct fuel as [|fuel]; [lia|].
    pose proof (tokenize_step_progress _ _ _ _ Hlt Hs).
    exists fuel, (push_opt tokens tok). split; [lia|].
    rewrite Hrun. simpl. apply Nat.ltb_lt in Hlt. by rewrite Hlt, Hs.
Qed.

Lemma re_punct_quote {R} rest (k : jsstring -> caps -> option R) :
  rmatch re_punct (quote :: rest) no_caps k = None.
Proof. reflexivity. Qed.

Lemma re_ident_quote {R} rest (k : jsstring -> caps -> option R) :
  rmatch re_ident (quote :: rest) no_caps k = None.
Proof. reflexivity. Qed.

Lemma re_number_quote {R} rest (k : jsstring -> caps -> option R) :
  rmatch re_number (quote :: rest) no_caps k = None.
Proof. reflexivity. Qed.

Lemma re_string_quote {R} rest (k : jsstring -> caps -> option R) :
  Forall (fun c => c <> quote) rest ->
  rmatch re_string (quote :: rest) no_caps k = None.
Proof.
  intros Hr. unfold re_string.
  cbn [rmatch star_match lit_match].
  change (is_space quote) with false. cbn iota.
  change (quote =? quote)%N with true. cbn iota.
  apply star_match_none. intros n.
  assert (Hn : Forall (fun c => c <> quote) (drop n rest))
    by by apply Forall_drop.
  destruct (drop n rest) as [|d t]; [reflexivity|].
  cbn [lit_match]. inversion Hn; subst.
  destruct (N.eqb_spec quote d); [congruence | reflexivity].
Qed.

(** The pattern does not match at an opening quote that is never closed. *)
Lemma exec_unterminated input pos rest :
  drop pos input = quote :: rest -> Forall (fun c => c <> quote) rest ->
  exec re input pos = None.
Proof.
  intros Hd Hr. unfold exec, re. rewrite Hd.
  cbn [rmatch].
  rewrite re_punct_quote, re_ident_quote, re_string_quote, re_number_quote;
    done.
Qed.

(** C10. When the lexer starts a token at a double quote after which the
    input holds no other double quote, [tokenize] throws its error with the
    position of that quote (and the 20 code units from there); it neither
    returns tokens nor skips the quote. *)
Theorem tokenize_unterminated_string (input : jsstring) (pos : nat) :
  token_start input pos ->
  input !! pos = Some quote ->
  (forall j, pos < j -> input !! j <> Some quote) ->
  tokenize input = LexError pos (take 20 (drop pos input)).
Proof.
  intros Hts Hq Hlater.
  destruct (token_start_run _ _ Hts) as (fuel & tokens & Hf & ->).
  pose proof (lookup_lt_Some _ _ _ Hq) as Hlt.
  destruct fuel as [|fuel]; [lia|]. simpl.
  apply Nat.ltb_lt in Hlt as Hb. rewrite Hb. simpl.
  assert (Hd : drop pos input = quote :: drop (S pos) input).
  { by apply drop_S. }
  assert (Hr : Forall (fun c => c <> quote) (drop (S pos) input)).
  { apply Forall_lookup. intros i c Hi ->.
    rewrite lookup_drop in Hi. apply (Hlater (S pos + i)); [lia | done]. }
  unfold tokenize_step. rewrite (exec_unterminated _ _ _ Hd Hr), Hq.
  reflexivity.
Qed.

Lemma tokenize_unterminated_string_witness :
  tokenize unterminated_sample = LexError 2 ([quote] ++ str "abc").
Proof.
  apply (tokenize_unterminated_string unterminated_sample 2).
  - apply ts_skip; [apply ts_skip; [apply ts_begin | vm_compute; lia | reflexivity]
                   | vm_compute; lia | reflexivity].
  - reflexivity.
  - intros j Hj. unfold unterminated_sample.
    do 3 (destruct j as [|j]; [lia|]).
    do 3 (destruct j as [|j]; [discriminate|]). discriminate.
Defined.

(* ===================================================================== *)
(** ** The parser: every run ends, and what it throws *)
(* ===================================================================== *)

Lemma post_ret {A} (a : A) p (Q : A -> Parser -> Prop) :
  Q a p -> post (ret a) p Q.
Proof. by split. Qed.

Lemma post_throw {A} m p (Q : A -> Parser -> Prop) :
  is_parser_message m = true ->
  (forall t, msg_actual m = Some t -> t ∈ tokens p) ->
  post (throw m) p Q.
Proof. by split. Qed.

Lemma post_bind {A B} (m : PM A) (f : A -> PM B) p
    (Q1 : A -> Parser -> Prop) (Q : B -> Parser -> Prop) :
  post m p Q1 ->
  (forall a p', tokens p' = tokens p -> Q1 a p' -> post (f a) p' Q) ->
  post (bind m f) p Q.
Proof.
  unfold post, wp, bind. destruct (m p) as [a p'| |]; [|done..].
  intros [Ht H1] H2. specialize (H2 a p' Ht H1). rewrite Ht in H2.
  destruct (f a p') as [b p''| |]; [|done..].
  destruct H2 as [Ht' H2]. split; [congruence | done].
Qed.

Lemma post_mono {A} (m : PM A) p (Q Q' : A -> Parser -> Prop) :
  post m p Q ->
  (forall a p', tokens p' = tokens p -> Q a p' -> Q' a p') ->
  post m p Q'.
Proof.
  unfold post, wp. destruct (m p); [|done..].
  intros [Ht H] HQ. split; [done | by apply HQ].
Qed.

Ltac cursor :=
  unfold steady, moved, on_token, left_to_read in *;
  repeat match goal with
         | H : _ /\ _ |- _ => destruct H
         end;
  subst; simpl in *;
  repeat match goal with
         | H : tokens ?a = tokens ?b |- _ => rewrite H in *; clear H
         end;
  repeat split; try congruence; try lia.

(** The token an error shows was read from the tokens. *)
Ltac shown_token :=
  let t := fresh "t" in
  let H := fresh "H" in
  intros t H; simpl in H;
  first
    [ discriminate H
    | injection H as <-; cursor;
      eapply list_elem_of_lookup_2; eassumption ].

Lemma deref_post {A} (o : option A) p :
  post (deref o) p (fun a p' => p' = p /\ o = Some a).
Proof. destruct o; by repeat split. Qed.

Lemma peek_d_post p :
  post peek_d p
    (fun t p' => p' = p /\ on_token p /\ tokens p !! pos p = Some t).
Proof.
  unfold post, wp, peek_d, bind, peek, deref.
  destruct (tokens p !! pos p) eqn:E; [|done].
  repeat split. by eapply lookup_lt_Some.
Qed.

Lemma next_post p :
  post next p (fun _ p' => pos p' = S (pos p)).
Proof. by split. Qed.

Lemma next_d_post p :
  post next_d p
    (fun t p' => on_token p /\ pos p' = S (pos p)
                 /\ tokens p !! pos p = Some t).
Proof.
  unfold post, wp, next_d, bind, next, deref.
  destruct (tokens p !! pos p) eqn:E; [|done].
  repeat split. by eapply lookup_lt_Some.
Qed.

(** One step of a proof about a run: the next call by its lemma, then the
    rest of the run. *)
Ltac run_with lem :=
  eapply post_bind; [apply lem | cbv beta; intros ? ? ? ?].

Lemma peek_is_post ty v p :
  post (peek_is ty v) p (fun _ p' => p' = p /\ on_token p).
Proof.
  unfold peek_is. run_with peek_d_post.
  destruct (bool_decide _); [|apply post_ret; cursor].
  run_with peek_d_post. apply post_ret; cursor.
Qed.

Lemma expect_post ty v p :
  post (expect ty v) p
    (fun _ p' => on_token p /\ pos p' = S (pos p)).
Proof.
  unfold expect. run_with peek_d_post.
  destruct (_ || _)%bool.
  - apply post_throw; [done | shown_token].
  - eapply post_mono; [apply next_post|]. intros; cursor.
Qed.

Lemma cond_values_post l p :
  post (cond_values l) p (fun _ p' => p' = p).
Proof.
  revert p. induction l as [|o l IH]; intros p; simpl.
  - by apply post_ret.
  - eapply post_bind; [eapply deref_post | cbv beta; intros ? ? ? ?].
    run_with IH. apply post_ret. cursor.
Qed.

(** A throw of one of the parser's messages. *)
Ltac thrown := apply post_throw; [reflexivity | shown_token].

Ltac run :=
  first
    [ run_with expect_post
    | run_with peek_is_post
    | run_with next_d_post
    | run_with peek_d_post
    | run_with next_post
    | run_with cond_values_post
    | thrown
    | apply post_ret ].

(** Case analysis on the test the run starts with. *)
Ltac branch :=
  match goal with
  | |- post (if ?b then _ else _) _ _ => destruct b
  | |- post (match ?t with _ => _ end) _ _ => destruct t
  end.

(** A first part that leaves the cursor where it is or further. *)
Ltac part_steady :=
  match goal with
  | |- post (bind _ _) ?s _ =>
      eapply post_bind with (Q1 := fun _ p' => steady s p');
      [| cbv beta; intros ? ? ? ?]
  end.

Lemma cond_loop_post fuel : forall acc p,
  left_to_read p < fuel ->
  post (cond_loop fuel acc) p (fun _ p' => steady p p').
Proof.
  induction fuel as [|fuel IH]; intros acc p Hf; [lia|]. simpl.
  run. branch; [run; cursor|].
  run. eapply post_mono; [apply IH; cursor|].
  intros; cursor.
Qed.

Lemma args_loop_post fuel : forall acc p,
  left_to_read p < fuel ->
  post (args_loop fuel acc) p (fun _ p' => steady p p').
Proof.
  induction fuel as [|fuel IH]; intros acc p Hf; [lia|]. simpl.
  run. branch; [run; cursor|].
  run. part_steady.
  { branch; run; cursor. }
  run. part_steady.
  { branch; [eapply post_mono; [apply next_post|] | apply post_ret];
      intros; cursor. }
  eapply post_mono; [apply IH; cursor|]. intros; cursor.
Qed.

Lemma parseEvent_post p :
  post parseEvent p (fun _ p' => moved p p').
Proof.
  unfold parseEvent. run. run.
  repeat (match goal with
          | |- context [if ?b then _ else _] => destruct b
          | |- context [match ?t with TPunct _ => _ | _ => _ end] => destruct t
          end; repeat run; try cursor).
Qed.

Section Blocks.

(** The statement parser the loops are run with, and its fuel. *)
Variable ps : PM stmt.
Variable f : nat.
Hypothesis ps_post :
  forall p, left_to_read p < f -> post ps p (fun _ p' => moved p p').

Lemma parseBlock_loop_post fuel : forall stmts p,
  left_to_read p < fuel -> left_to_read p < f ->
  post (parseBlock_loop ps fuel stmts) p (fun _ p' => steady p p').
Proof.
  induction fuel as [|fuel IH]; intros stmts p Hn Hf; [lia|]. simpl.
  run. branch.
  { run. run. cursor. }
  run. branch; [run|].
  run_with ps_post; [cursor|].
  eapply post_mono; [apply IH; cursor|]. intros; cursor.
Qed.

Lemma parseProgram_loop_post fuel : forall stmts p,
  left_to_read p < fuel -> left_to_read p < f ->
  post (parseProgram_loop ps fuel stmts) p (fun _ p' => steady p p').
Proof.
  induction fuel as [|fuel IH]; intros stmts p Hn Hf; [lia|]. simpl.
  run. branch; [|run; cursor].
  run_with ps_post; [cursor|].
  eapply post_mono; [apply IH; cursor|]. intros; cursor.
Qed.

End Blocks.

Section Statement.

(** The block parser a statement is parsed with. *)
Variable pb : PM (list stmt).
Variable f : nat.
Hypothesis pb_post :
  forall p, left_to_read p < f -> post pb p (fun _ p' => steady p p').

Lemma parseRepeat_post p :
  left_to_read p <= f -> post (parseRepeat pb) p (fun _ p' => moved p p').
Proof.
  intros Hf. unfold parseRepeat. run. run. run.
  branch; try thrown.
  run. run. run_with pb_post; [cursor|]. run. cursor.
Qed.

Lemma parseIf_post p :
  left_to_read p <= f -> post (parseIf f pb) p (fun _ p' => moved p p').
Proof.
  intros Hf. unfold parseIf. run. run.
  run_with cond_loop_post; [cursor|].
  run. run. run_with pb_post; [cursor|]. run.
  part_steady.
  { branch; [|run; cursor].
    run. run. run_with pb_post; [cursor|]. run. cursor. }
  run. run. cursor.
Qed.

End Statement.

Lemma parseAwait_post f p :
  left_to_read p <= f -> post (parseAwait f) p (fun _ p' => moved p p').
Proof.
  intros Hf. unfold parseAwait. run. run.
  branch; [|run].
  run. run. run_with cond_loop_post; [cursor|].
  run. run. run. run. cursor.
Qed.

Lemma parseSimple_post f p :
  left_to_read p <= f -> post (parseSimple f) p (fun _ p' => moved p p').
Proof.
  intros Hf. unfold parseSimple. run. cbv zeta. run.
  part_steady.
  { branch; [|run; cursor].
    run. run_with args_loop_post; [cursor|]. run. run. cursor. }
  run. part_steady.
  { branch; [|run; cursor].
    run. run. run. branch; try thrown. run. run. cursor. }
  run. branch; [|run]. run. run. cursor.
Qed.

(** A statement that parses takes at least one token; parsing it never
    exhausts a fuel above the number of tokens left; and what it throws is
    a TypeError or a message of the parser whose token, if it shows one,
    is a token of the input. *)
Lemma parseStatement_post fuel : forall p,
  left_to_read p < fuel ->
  post (parseStatement fuel) p (fun _ p' => moved p p').
Proof.
  induction fuel as [|fuel IH]; intros p Hf; [lia|].
  assert (Hpb : forall p0, left_to_read p0 < fuel ->
            post (parseBlock_loop (parseStatement fuel) fuel []) p0
              (fun _ p' => steady p0 p')).
  { intros p0 H0. by apply parseBlock_loop_post with (f := fuel). }
  simpl. run.
  match goal with H : _ = p /\ _ |- _ => destruct H as (-> & Hr & Hl) end.
  destruct (bool_decide (tok_type a = ident)).
  - destruct (is_str (tok_value a) "on"); [apply parseEvent_post|].
    destruct (is_str (tok_value a) "repeat").
    { apply parseRepeat_post with (f := fuel); [done | cursor]. }
    destruct (is_str (tok_value a) "loop").
    { run. run. run_with Hpb; [cursor|]. run. cursor. }
    destruct (is_str (tok_value a) "if").
    { apply parseIf_post; [done | cursor]. }
    destruct (is_str (tok_value a) "await").
    { apply parseAwait_post; cursor. }
    branch; apply parseSimple_post; cursor.
  - destruct (is_tok punct ";" a).
    + run. run. cursor.
    + apply post_throw; [done|]. intros t [= <-].
      eapply list_elem_of_lookup_2; eassumption.
Qed.

Lemma parseProgram_post toks :
  post (parseProgram (S (length toks))) {| tokens := toks; pos := 0 |}
    (fun _ _ => True).
Proof.
  unfold parseProgram. eapply post_mono.
  - apply (parseProgram_loop_post (parseStatement (S (length toks)))
             (S (length toks)) (parseStatement_post _));
      unfold left_to_read; simpl; lia.
  - done.
Qed.

(** [parse] returns or throws on every token sequence. *)
Lemma parse_total toks : parse toks <> ParseOutOfFuel.
Proof.
  unfold parse. pose proof (parseProgram_post toks) as H.
  unfold post, wp in H.
  by destruct (parseProgram _ _).
Qed.

(** An Error [parse] throws is one of the parser's messages, and the
    token it shows as found, if any, is a token of the input. *)
Lemma parse_error_sound toks m :
  parse toks = ParseThrow (Error m) ->
  is_parser_message m = true
  /\ forall t, msg_actual m = Some t -> t ∈ toks.
Proof.
  unfold parse. pose proof (parseProgram_post toks) as H.
  unfold post, wp in H.
  destruct (parseProgram _ _) as [a p'|e|]; [done| |done].
  intros [= ->]. exact H.
Qed.

(* ===================================================================== *)
(** ** The parser on the documented program and on call arguments *)
(* ===================================================================== *)

(** C1. The parser does not accept the source text
    [on start; repeat(5) { move(10); turn right(15); }]: lexing succeeds,
    and [parseSimple] on [turn] finds the identifier [right] where it
    wants [(], [for] or the semicolon, and throws
    'Expected semicolon after statement turn'.  No Program is returned. *)
Theorem parse_example_program_throws :
  parse_source example_source
  = Some (ParseThrow (Error (ExpectedSemicolonAfterStatement (str "turn")))).
Proof. vm_compute. reflexivity. Qed.

(** The tree the specification gives for that text is the one the parser
    returns when the direction is written as the first argument. *)
Lemma parse_example_with_direction_argument :
  parse_source (str "on start; repeat(5) { move(10); turn(right, 15); }")
  = Some (ParseOk example_tree).
Proof. vm_compute. reflexivity. Qed.

Lemma cursor_at_lookup pre t suf :
  tokens (cursor_at pre (t :: suf)) !! pos (cursor_at pre (t :: suf)) = Some t.
Proof. simpl. by apply list_lookup_middle. Qed.

Lemma cursor_at_step pre t suf :
  {| tokens := tokens (cursor_at pre (t :: suf));
     pos := S (pos (cursor_at pre (t :: suf))) |}
  = cursor_at (pre ++ [t]) suf.
Proof.
  unfold cursor_at. simpl. rewrite <- app_assoc, length_app. simpl.
  f_equal. lia.
Qed.

Lemma peek_is_cur ty v pre t suf :
  peek_is ty v (cursor_at pre (t :: suf))
  = Ok (is_tok ty v t) (cursor_at pre (t :: suf)).
Proof.
  unfold peek_is, bind, peek_d, bind, peek, deref, is_tok.
  rewrite cursor_at_lookup. destruct (bool_decide _); [|done].
  by rewrite cursor_at_lookup.
Qed.

Lemma peek_d_cur pre t suf :
  peek_d (cursor_at pre (t :: suf)) = Ok t (cursor_at pre (t :: suf)).
Proof. unfold peek_d, bind, peek, deref. by rewrite cursor_at_lookup. Qed.

Lemma next_cur pre t suf :
  next (cursor_at pre (t :: suf)) = Ok (Some t) (cursor_at (pre ++ [t]) suf).
Proof. unfold next. by rewrite cursor_at_lookup, cursor_at_step. Qed.

Lemma next_d_cur pre t suf :
  next_d (cursor_at pre (t :: suf)) = Ok t (cursor_at (pre ++ [t]) suf).
Proof. unfold next_d, bind. by rewrite next_cur. Qed.

Lemma expect_cur v pre t suf :
  is_tok punct v t = true ->
  expect punct (Some v) (cursor_at pre (t :: suf))
  = Ok (Some t) (cursor_at (pre ++ [t]) suf).
Proof.
  intros Ht. unfold expect, bind. rewrite peek_d_cur.
  unfold is_tok in Ht. apply andb_true_iff in Ht as [H1 H2].
  rewrite H1, H2. simpl. apply next_cur.
Qed.

Lemma is_arg_token_not_punct t v :
  is_arg_token t = true -> is_tok punct v t = false.
Proof. by destruct t. Qed.

Lemma arg_of_token_eval t (p : Parser) :
  is_arg_token t = true ->
  match t with
  | TNumber n => ret (LNum n)
  | TString v | TIdent v => ret (LStr v)
  | _ => throw (UnexpectedArgToken t)
  end p = Ok (arg_value t) p.
Proof. by destruct t. Qed.

(** What follows the arguments still to read is never a comma. *)
Lemma render_args_head ats rest :
  Forall (fun x : token * bool => is_arg_token x.1 = true) ats ->
  exists t l, render_args ats ++ TPunct (str ")") :: rest = t :: l
              /\ is_tok punct "," t = false.
Proof.
  intros H. destruct ats as [|[t c] ats]; simpl.
  - by eexists _, _.
  - inversion H; subst. simpl in *. exists t.
    destruct c; simpl; eexists; (split; [done|]);
      by apply is_arg_token_not_punct.
Qed.

(** The argument loop reads the argument tokens in order, with or without
    a comma after each, up to the closing parenthesis. *)
Lemma args_loop_render ats : forall pre rest acc fuel,
  Forall (fun x : token * bool => is_arg_token x.1 = true) ats ->
  length ats < fuel ->
  args_loop fuel acc
    (cursor_at pre (render_args ats ++ TPunct (str ")") :: rest))
  = Ok (acc ++ map (fun x : token * bool => arg_value x.1) ats)
       (cursor_at (pre ++ render_args ats) (TPunct (str ")") :: rest)).
Proof.
  induction ats as [|[t c] ats IH]; intros pre rest acc fuel Hall Hf.
  - destruct fuel as [|fuel]; [simpl in Hf; lia|]. simpl. unfold bind.
    rewrite peek_is_cur. simpl. unfold ret. by rewrite !app_nil_r.
  - destruct fuel as [|fuel]; [simpl in Hf; lia|].
    inversion Hall as [|? ? Ht Hall']; subst. simpl in Ht, Hf.
    destruct (render_args_head ats rest Hall') as (u & l & Hu & Hnc).
    cbn [args_loop]. unfold bind at 1.
    replace (render_args ((t, c) :: ats) ++ TPunct (str ")") :: rest)
      with (t :: (if c then [TPunct (str ",")] else [])
              ++ render_args ats ++ TPunct (str ")") :: rest)
      by (destruct c; simpl; by rewrite <- ?app_assoc).
    rewrite peek_is_cur, (is_arg_token_not_punct _ _ Ht).
    unfold bind at 1. rewrite next_d_cur.
    unfold bind at 1. rewrite (arg_of_token_eval _ _ Ht).
    unfold bind at 1. destruct c; simpl app.
    + rewrite peek_is_cur.
      change (is_tok punct "," (TPunct (str ","))) with true.
      unfold bind at 1. rewrite next_cur. unfold push.
      rewrite IH by (done || lia).
      by rewrite <- !app_assoc.
    + rewrite Hu, peek_is_cur, Hnc. unfold bind at 1. unfold ret at 1.
      rewrite <- Hu. unfold push. rewrite IH by (done || lia).
      by rewrite <- !app_assoc.
Qed.

Lemma is_str_keyword name (kw : string) :
  name <> str kw -> is_str (VStr name) kw = false.
Proof.
  intros H. unfold is_str, jsstring_eqb. by apply bool_decide_eq_false.
Qed.

(** A call statement, commas or not, is parsed to its Call. *)
Lemma parseStatement_call fuel name ats pre rest :
  Forall (fun x : token * bool => is_arg_token x.1 = true) ats ->
  Forall (fun kw => name <> str kw) statement_keywords ->
  length ats < fuel ->
  parseStatement (S fuel)
    (cursor_at pre
       (TIdent name :: TPunct (str "(") :: render_args ats
          ++ TPunct (str ")") :: TPunct (str ";") :: rest))
  = Ok (Call name (map (fun x : token * bool => arg_value x.1) ats) None)
       (cursor_at
          (pre ++ TIdent name :: TPunct (str "(") :: render_args ats
             ++ [TPunct (str ")"); TPunct (str ";")])
          rest).
Proof.
  intros Hall Hkw Hf.
  assert (Hsimple : parseSimple fuel
            (cursor_at pre
               (TIdent name :: TPunct (str "(") :: render_args ats
                  ++ TPunct (str ")") :: TPunct (str ";") :: rest))
          = Ok (Call name (map (fun x : token * bool => arg_value x.1) ats)
                  None)
               (cursor_at
                  (pre ++ TIdent name :: TPunct (str "(") :: render_args ats
                     ++ [TPunct (str ")"); TPunct (str ";")])
                  rest)).
  { unfold parseSimple. unfold bind at 1. rewrite next_d_cur.
    unfold bind at 1. rewrite peek_is_cur.
    change (is_tok punct "(" (TPunct (str "("))) with true.
    unfold bind at 1. unfold bind at 1. rewrite next_cur.
    unfold bind at 1.
    rewrite (args_loop_render ats _ (TPunct (str ";") :: rest) [] fuel Hall Hf).
    unfold bind at 1. rewrite expect_cur by done. unfold ret at 1.
    unfold bind at 1. rewrite peek_is_cur.
    change (is_tok ident "for" (TPunct (str ";"))) with false.
    unfold bind at 1. unfold ret at 1.
    unfold bind at 1. rewrite peek_is_cur.
    change (is_tok punct ";" (TPunct (str ";"))) with true.
    unfold bind at 1. rewrite next_cur. unfold ret. simpl.
    by rewrite <- !app_assoc. }
  cbn [parseStatement]. unfold bind at 1. rewrite peek_d_cur.
  change (bool_decide (tok_type (TIdent name) = ident)) with true.
  cbv iota. cbn [tok_value]. unfold statement_keywords in Hkw.
  repeat match goal with
         | H : Forall _ (_ :: _) |- _ => inversion H; clear H; subst
         end.
  rewrite (is_str_keyword name "on"), (is_str_keyword name "repeat"),
    (is_str_keyword name "loop"), (is_str_keyword name "if"),
    (is_str_keyword name "await") by done.
  by destruct (existsb _ _).
Qed.

(** A program of one statement. *)
Lemma parseProgram_loop_one (ps : PM stmt) fuel pre t suf s pre' :
  tok_type t <> eof ->
  ps (cursor_at pre (t :: suf)) = Ok s (cursor_at pre' [TEof]) ->
  parseProgram_loop ps (S (S fuel)) [] (cursor_at pre (t :: suf))
  = Ok {| body := [s] |} (cursor_at pre' [TEof]).
Proof.
  intros Ht Hps. cbn [parseProgram_loop]. unfold bind at 1.
  rewrite peek_d_cur. rewrite bool_decide_eq_false_2 by done.
  cbn [negb]. unfold bind at 1. rewrite Hps.
  unfold bind at 1. by rewrite peek_d_cur.
Qed.

(** C9. In the argument list of a call, a comma after an argument is
    optional, also after the last one: for a name that is no statement
    keyword and argument tokens (numbers, strings, identifiers), each
    followed by a comma or not, [name(args);] parses to the one Call with
    these arguments in order.  So [foo(1 2);], [foo(1,2,);] and
    [foo(1,2);] all parse to Call foo [1, 2]. *)
Theorem call_commas_optional :
  (forall (name : jsstring) (ats : list (token * bool)),
     Forall (fun x : token * bool => is_arg_token x.1 = true) ats ->
     Forall (fun kw => name <> str kw) statement_keywords ->
     parse (call_tokens name ats)
     = ParseOk {| body := [Call name
                             (map (fun x : token * bool => arg_value x.1) ats)
                             None] |})
  /\ parse_source (str "foo(1 2);") = Some (ParseOk foo_1_2)
  /\ parse_source (str "foo(1,2,);") = Some (ParseOk foo_1_2)
  /\ parse_source (str "foo(1,2);") = Some (ParseOk foo_1_2).
Proof.
  split; [|by vm_compute].
  intros name ats Hall Hkw.
  unfold parse, parseProgram, call_tokens.
  assert (Hn : exists n, length ([TIdent name; TPunct (str "(")]
                  ++ render_args ats
                  ++ [TPunct (str ")"); TPunct (str ";"); TEof]) = S (S n)
               /\ length ats < S n) .
  { simpl. rewrite length_app. simpl.
    assert (length ats <= length (render_args ats)).
    { clear. induction ats as [|[t []] ats IH]; simpl; lia. }
    exists (length (render_args ats) + 3). lia. }
  destruct Hn as (n & -> & Hn).
  change {| tokens := ?l; pos := 0 |} with (cursor_at [] l).
  cbn [app].
  erewrite parseProgram_loop_one; [done | done |].
  by apply (parseStatement_call (S (S n)) name ats [] [TEof]); [..|lia].
Qed.

Lemma call_commas_optional_witness :
  parse (call_tokens (str "foo")
           [(TNumber (num 1), true); (TIdent (str "x"), false);
            (TString (str "hi"), true)])
  = ParseOk {| body := [Call (str "foo")
                          [LNum (num 1); LStr (str "x"); LStr (str "hi")]
                          None] |}.
Proof.
  apply (proj1 call_commas_optional (str "foo")
           [(TNumber (num 1), true); (TIdent (str "x"), false);
            (TString (str "hi"), true)]).
  - repeat constructor.
  - repeat constructor; discriminate.
Defined.

(* ===================================================================== *)
(** ** The parser's failures *)
(* ===================================================================== *)

(** The claim of C6 fails: on [if (x > 0) { say("hi");] the parser throws
    'Unclosed block', an Error that shows neither what was expected, nor
    the token found, nor a position. *)
Lemma unclosed_block_error_carries_nothing :
  parse_source unclosed_block_source = Some (ParseThrow (Error UnclosedBlock))
  /\ msg_expected UnclosedBlock = false
  /\ msg_actual UnclosedBlock = None
  /\ msg_position UnclosedBlock = None.
Proof. vm_compute. done. Qed.

(** On [if (x > 0], the parenthesis never closed, the condition loop takes
    the end-of-input token too and then reads [type] of [undefined]: the
    run ends in the engine's TypeError, not in an Error of the parser. *)
Lemma unclosed_paren_type_error :
  parse_source unclosed_paren_source = Some (ParseThrow TypeError).
Proof. vm_compute. reflexivity. Qed.

(** C6 (amended). On every token sequence [parse] ends: it returns a
    Program or throws.  An Error it throws is one of the parser's fixed
    messages; it shows no position; a token it shows as found (type and
    value) is a token of the input; and it shows both the expected token
    and the token found exactly when it comes from an [expect] point: the
    other messages show one of the two or neither. *)
Theorem parse_ends_and_errors_have_no_position (toks : list token) :
  parse toks <> ParseOutOfFuel
  /\ forall m, parse toks = ParseThrow (Error m) ->
       is_parser_message m = true
       /\ msg_position m = None
       /\ (forall t, msg_actual m = Some t -> t ∈ toks)
       /\ ((msg_expected m = true /\ is_Some (msg_actual m))
           <-> exists ty v t, m = ExpectedGot ty v t).
Proof.
  split; [apply parse_total|]. intros m Hm.
  destruct (parse_error_sound toks m Hm) as [Hp Ht].
  split; [done|]. split; [done|]. split; [done|]. split.
  - intros [He [t Hs]]. destruct m; try discriminate; eauto.
  - intros (ty & v & t & ->). split; [done | by eexists].
Qed.

Lemma parse_ends_and_errors_have_no_position_witness :
  let toks := [TIdent (str "on"); TIdent (str "start"); TEof] in
  let m := ExpectedGot punct (Some ";") TEof in
  is_parser_message m = true
  /\ msg_position m = None
  /\ (forall t, msg_actual m = Some t -> t ∈ toks)
  /\ ((msg_expected m = true /\ is_Some (msg_actual m))
      <-> exists ty v t, m = ExpectedGot ty v t).
Proof.
  apply (proj2 (parse_ends_and_errors_have_no_position
                  [TIdent (str "on"); TIdent (str "start"); TEof])).
  vm_compute. reflexivity.
Defined.

(* ===================================================================== *)
(** ** The lowering: evaluation on single statements *)
(* ===================================================================== *)

Lemma addBlock_eval uuidv4 opcode inputs fields nx pa g :
  addBlock uuidv4 opcode inputs fields nx pa g
  = Ok (next_id uuidv4 g)
       (added uuidv4 g (Block.Make opcode inputs fields nx pa)).
Proof. reflexivity. Qed.

(** C5. [move(0);] is lowered to a [motion_movesteps] block whose STEPS
    input is 10, not the 0 that was parsed: [stmt.args[0] || 10] takes the
    default for every falsy first argument, not only for a missing one. *)
Theorem move_zero_steps_is_ten (uuidv4 : nat -> jsstring) (g : gen) :
  compileStatement uuidv4 move0 g
  = Ok (Some (next_id uuidv4 g))
       (added uuidv4 g
          (Block.Make "motion_movesteps"
             [("STEPS", num_input (VNum (num 10)))] [] None None)).
Proof. reflexivity. Qed.

(** The source text [move(0);] parses to that statement. *)
Lemma parse_move_zero :
  parse_source (str "move(0);") = Some (ParseOk {| body := [move0] |}).
Proof. vm_compute. reflexivity. Qed.

(** A truthy first argument of [move] is passed on as it was parsed; a
    missing one gives 10. *)
Lemma move_truthy_steps uuidv4 g a args for_ :
  lit_truthy a = true ->
  compileStatement uuidv4 (Call (str "move") (a :: args) for_) g
  = Ok (Some (next_id uuidv4 g))
       (added uuidv4 g
          (Block.Make "motion_movesteps"
             [("STEPS", num_input (lit_val a))] [] None None)).
Proof.
  intros Ha. cbn [compileStatement]. unfold compileCall.
  change (jsstring_eqb (str "move") (str "move")) with true. cbv iota zeta.
  cbn [lookup list_lookup lit_or]. rewrite Ha. reflexivity.
Qed.

Lemma move_no_argument_steps uuidv4 g for_ :
  compileStatement uuidv4 (Call (str "move") [] for_) g
  = Ok (Some (next_id uuidv4 g))
       (added uuidv4 g
          (Block.Make "motion_movesteps"
             [("STEPS", num_input (VNum (num 10)))] [] None None)).
Proof. reflexivity. Qed.

Lemma compileCall_turn_other uuidv4 args for_ g :
  known_direction args = false ->
  compileCall uuidv4 (str "turn") args for_ g
  = Ok (Some (next_id uuidv4 g))
       (added uuidv4 g (Block.Make "procedures_call" [] [] None None)).
Proof.
  unfold known_direction. intros H.
  apply orb_false_iff in H as [H H3]. apply orb_false_iff in H as [H1 H2].
  unfold compileCall.
  change (jsstring_eqb (str "turn") (str "move")) with false.
  change (jsstring_eqb (str "turn") (str "turn")) with true.
  cbv iota zeta. rewrite H1, H2, H3. reflexivity.
Qed.

(** The claim of C4 fails: [turn up(15)] between [move(10)] and [wait(1)]
    gets a block of its own, a [procedures_call], and the chain runs
    through it: the [next] of the move block is that block, whose [next]
    is the wait block. *)
Lemma turn_other_direction_gets_a_node :
  let r := compileStatements (compileStatement uuid_counter)
             [move10; turn_up; wait1] init_gen in
  (blocksOrder <$> returned r) = Some [Some (nid 0); Some (nid 1); Some (nid 2)]
  /\ block_count r = 3
  /\ block_at r (nid 1)
     = Some (Block.Make "procedures_call" [] [] (Some (nid 2)) None)
  /\ (Block.next <$> block_at r (nid 0)) = Some (Some (nid 1)).
Proof. vm_compute. done. Qed.

(** C4 (amended). A [turn] whose first argument is none of right, lef and
    left is lowered like any call the lowering does not know: to one
    [procedures_call] block with no inputs.  The list lowering counts it
    as a node: alone in a list it is the list's first and last node, and
    after a node [p] the loop writes its id to the [next] of [p] and goes
    on with it as the previous node for what follows. *)
Theorem turn_other_direction_is_fallback (uuidv4 : nat -> jsstring)
    (args : list lit) (for_ : option jsnum) (g : gen) :
  known_direction args = false ->
  let id := next_id uuidv4 g in
  let fallback := Block.Make "procedures_call" [] [] None None in
  compileStatement uuidv4 (Call (str "turn") args for_) g
  = Ok (Some id) (added uuidv4 g fallback)
  /\ (id <> [] ->
      compileStatements (compileStatement uuidv4)
        [Call (str "turn") args for_] g
      = Ok {| first := Some id; last := Some id; blocksOrder := [Some id] |}
           (added uuidv4 g fallback))
  /\ (forall stmts order firstId p b,
        id <> [] -> p <> [] -> p <> id -> blocks g !! p = Some b ->
        compileStatements_loop (compileStatement uuidv4)
          (Call (str "turn") args for_ :: stmts) order firstId (Some p) g
        = compileStatements_loop (compileStatement uuidv4) stmts
            (order ++ [Some id])
            (if id_truthy firstId then firstId else Some id) (Some id)
            {| blocks :=
                 <[p := Block.Make (Block.opcode b) (Block.inputs b)
                          (Block.fields b) (Some id) (Block.parent b)]>
                   (<[id := fallback]> (blocks g));
               draws := S (draws g);
               created := created g ++ [id] |}).
Proof.
  intros H id fallback. split; [|split].
  - by apply compileCall_turn_other.
  - intros Hid. unfold compileStatements. cbn [compileStatements_loop].
    unfold bind at 1. cbn [compileStatement].
    rewrite compileCall_turn_other by done. fold id.
    destruct id eqn:E; [done|]. reflexivity.
  - intros stmts order firstId p b Hid Hp Hne Hb.
    cbn [compileStatements_loop]. unfold bind at 1. cbn [compileStatement].
    rewrite compileCall_turn_other by done. fold id fallback.
    assert (Ti : id_truthy (Some id) = true) by by destruct id.
    assert (Tp : id_truthy (Some p) = true) by by destruct p.
    rewrite Ti, Tp. cbn [negb at_id]. unfold bind at 1.
    unfold set_next, added. cbn [blocks draws created]. fold id.
    rewrite lookup_insert_ne by done. rewrite Hb.
    unfold push. by destruct (id_truthy firstId).
Qed.

Lemma turn_other_direction_is_fallback_witness :
  compileStatement uuid_counter turn_up init_gen
  = Ok (Some (nid 0))
       (added uuid_counter init_gen
          (Block.Make "procedures_call" [] [] None None))
  /\ compileStatements (compileStatement uuid_counter) [turn_up] init_gen
     = Ok {| first := Some (nid 0); last := Some (nid 0);
             blocksOrder := [Some (nid 0)] |}
          (added uuid_counter init_gen
             (Block.Make "procedures_call" [] [] None None)).
Proof.
  destruct (turn_other_direction_is_fallback uuid_counter
              [LStr (str "up"); LNum (num 15)] None init_gen eq_refl)
    as (H1 & H2 & _).
  split; [exact H1|]. apply H2. vm_compute. discriminate.
Defined.

(* ===================================================================== *)
(** ** The lowering: invariants of a run *)
(* ===================================================================== *)

Lemma wp_ret {S A} (a : A) (s : S) Q E : Q a s -> wp (ret a) s Q E.
Proof. done. Qed.

Lemma wp_bind {S A B} (m : M S A) (f : A -> M S B) s
    (Q1 : A -> S -> Prop) (Q : B -> S -> Prop) E :
  wp m s Q1 E ->
  (forall a s', Q1 a s' -> wp (f a) s' Q E) ->
  wp (bind m f) s Q E.
Proof.
  unfold wp, bind. destruct (m s) as [a s'| |]; [|done..].
  intros H1 H2. by apply H2.
Qed.

Lemma wp_mono {S A} (m : M S A) s (Q Q' : A -> S -> Prop) E :
  wp m s Q E -> (forall a s', Q a s' -> Q' a s') -> wp m s Q' E.
Proof. unfold wp. destruct (m s); eauto. Qed.

(** Induction on statements, with the hypothesis for every statement of a
    body that is lowered. *)
Lemma stmt_lowered_ind (P : stmt -> Prop) :
  (forall k a b, P (Event k a b)) ->
  (forall c b, Forall P b -> P (Repeat c b)) ->
  (forall b, Forall P b -> P (LoopStatement b)) ->
  (forall c b a, Forall P b -> P (If c b a)) ->
  (forall c, P (AwaitUntil c)) ->
  (forall n a f, P (Call n a f)) ->
  P Empty ->
  forall s, P s.
Proof.
  intros HEvent HRepeat HLoop HIf HAwait HCall HEmpty.
  fix IH 1. intros [k a b|c b|b|c b a|c|n a f|].
  - apply HEvent.
  - apply HRepeat. induction b as [|x b IHb]; constructor; [apply IH | exact IHb].
  - apply HLoop. induction b as [|x b IHb]; constructor; [apply IH | exact IHb].
  - apply HIf. induction b as [|x b IHb]; constructor; [apply IH | exact IHb].
  - apply HAwait.
  - apply HCall.
  - apply HEmpty.
Qed.

Section Invariant.

Variable uuidv4 : nat -> jsstring.

Lemma ext_refl g : ext g g.
Proof. split; [done|]. exists []. by rewrite app_nil_r. Qed.

Lemma ext_trans g1 g2 g3 : ext g1 g2 -> ext g2 g3 -> ext g1 g3.
Proof.
  intros [H1 (n1 & E1)] [H2 (n2 & E2)]. split; [lia|].
  exists (n1 ++ n2). by rewrite E2, E1, app_assoc.
Qed.

Lemma known_ext g g' o : ext g g' -> known g o -> known g' o.
Proof.
  intros [_ (new & E)] H i Hi. rewrite E. apply elem_of_app. left. by apply H.
Qed.

Lemma Inv_init : Inv uuidv4 init_gen.
Proof.
  exists []. split; [done|]. split; [constructor|]. split; [constructor|].
  apply dom_empty_L.
Qed.

Lemma fresh_id_wp g E :
  Inv uuidv4 g -> wp (fresh_id uuidv4) g (fun _ g' => Inv uuidv4 g' /\ ext g g') E.
Proof.
  intros (ks & Hc & Hs & Hb & Hd). split.
  - exists ks. repeat split; try done. simpl.
    eapply Forall_impl; [exact Hb|]. simpl. lia.
  - split; simpl; [lia|]. exists []. by rewrite app_nil_r.
Qed.

Lemma addBlock_wp op i f n p g E :
  Inv uuidv4 g ->
  wp (addBlock uuidv4 op i f n p) g
    (fun id g' => Inv uuidv4 g' /\ ext g g' /\ id ∈ created g') E.
Proof.
  intros (ks & Hc & Hs & Hb & Hd). unfold wp.
  unfold addBlock, bind, fresh_id. simpl. repeat split.
  - exists (ks ++ [draws g]). simpl. repeat split.
    + unfold push. by rewrite Hc, map_app.
    + clear Hc Hd. induction Hs as [|k ks Hs IH Hk]; simpl.
      * repeat constructor.
      * inversion Hb; subst. constructor; [by apply IH|].
        apply Forall_app. split; [done|]. by repeat constructor.
    + apply Forall_app. split.
      * eapply Forall_impl; [exact Hb|]. simpl. lia.
      * repeat constructor.
    + rewrite dom_insert_L, Hd. unfold push.
      rewrite list_to_set_app_L. simpl.
      rewrite (right_id_L ∅ (∪)). apply (comm_L (∪)).
  - simpl. lia.
  - simpl. by eexists.
  - simpl. unfold push. apply elem_of_app. right. by apply list_elem_of_singleton.
Qed.

Lemma known_block g i :
  Inv uuidv4 g -> i ∈ created g -> is_Some (blocks g !! i).
Proof.
  intros (ks & Hc & Hs & Hb & Hd) Hi.
  apply elem_of_dom. rewrite Hd. by apply elem_of_list_to_set.
Qed.

Lemma Inv_rewrite g i b :
  Inv uuidv4 g -> i ∈ created g ->
  Inv uuidv4 {| blocks := <[i := b]> (blocks g); draws := draws g;
         created := created g |}.
Proof.
  intros (ks & Hc & Hs & Hb & Hd) Hi. exists ks. repeat split; try done.
  simpl. rewrite dom_insert_L, Hd.
  apply subseteq_union_1_L, singleton_subseteq_l.
  by apply elem_of_list_to_set.
Qed.

Lemma set_next_wp i v g E :
  Inv uuidv4 g -> i ∈ created g ->
  wp (set_next i v) g (fun _ g' => Inv uuidv4 g' /\ ext g g') E.
Proof.
  intros HI Hi. unfold wp, set_next.
  destruct (known_block g i HI Hi) as [b ->]. split.
  - by apply Inv_rewrite.
  - split; simpl; [lia|]. exists []. by rewrite app_nil_r.
Qed.

Lemma set_parent_wp i v g E :
  Inv uuidv4 g -> i ∈ created g ->
  wp (set_parent i v) g (fun _ g' => Inv uuidv4 g' /\ ext g g') E.
Proof.
  intros HI Hi. unfold wp, set_parent.
  destruct (known_block g i HI Hi) as [b ->]. split.
  - by apply Inv_rewrite.
  - split; simpl; [lia|]. exists []. by rewrite app_nil_r.
Qed.

(** A block just added, returned as the statement's node. *)
Lemma node_wp op i f n p g s :
  has_key s = false -> Inv uuidv4 g ->
  wp (id <- addBlock uuidv4 op i f n p ;; ret (Some id)) g
    (stmt_post uuidv4 s g) unhandled_event.
Proof.
  intros Hs HI. eapply wp_bind; [by apply addBlock_wp|].
  intros id g' (HI' & He & Hid). apply wp_ret.
  refine (conj HI' (conj He (conj _ Hs))). by intros ? [= <-].
Qed.

Lemma compileCall_wp name args for_ :
  stmt_ok uuidv4 (fun _ => compileCall uuidv4 name args for_) (Call name args for_).
Proof.
  intros g HI. unfold compileCall.
  repeat match goal with
         | |- wp (if ?b then _ else _) _ _ _ => destruct b
         | |- wp (match ?o with Some _ => _ | None => _ end) _ _ _ =>
             destruct o
         | |- wp (let _ := _ in _) _ _ _ => cbv zeta
         end; by apply node_wp.
Qed.

Section Lists.

Variable cs : stmt -> GM (option jsstring).

Lemma compileStatements_loop_wp stmts :
  Forall (stmt_ok uuidv4 cs) stmts ->
  forall order firstId prevId g,
    Inv uuidv4 g -> known g firstId -> known g prevId ->
    (order <> [] -> id_truthy firstId = true) ->
    wp (compileStatements_loop cs stmts order firstId prevId) g
      (list_post uuidv4 stmts g) unhandled_event.
Proof.
  induction 1 as [|s stmts Hs Hall IH];
    intros order firstId prevId g HI Hf Hp Ho; cbn [compileStatements_loop].
  - apply wp_ret. exact (conj HI (conj (ext_refl g) (conj Hf (conj Ho eq_refl)))).
  - eapply wp_bind; [by apply Hs|].
    intros id g1 (HI1 & He1 & Hk1 & Hkey).
    destruct (id_truthy id) eqn:Hid; cbn [negb].
    + eapply wp_bind
        with (Q1 := fun _ g2 => Inv uuidv4 g2 /\ ext g1 g2).
      { destruct (id_truthy prevId) eqn:Hpt.
        - destruct prevId as [p|]; [|done]. cbn [at_id].
          apply set_next_wp; [done|].
          eapply known_ext; [exact He1 | exact Hp | done].
        - apply wp_ret. split; [done | apply ext_refl]. }
      intros _u g2 (HI2 & He2).
      eapply wp_mono.
      * apply IH; [done | | by eapply known_ext | ].
        -- destruct (id_truthy firstId); cbn [negb];
             eapply known_ext; try exact He2; try done.
           eapply known_ext; [exact He1 | done].
        -- intros _. destruct (id_truthy firstId) eqn:Hft; by cbn [negb].
      * intros c g3 (HI3 & He3 & Hk3 & Ho3 & Hkeys).
        refine (conj HI3 (conj _ (conj Hk3 (conj Ho3 _)))).
        -- eapply ext_trans; [exact He1|]. by eapply ext_trans.
        -- simpl. by rewrite Hkey, Hkeys.
    + eapply wp_mono.
      * apply IH; [done | | | done]; by eapply known_ext.
      * intros c g3 (HI3 & He3 & Hk3 & Ho3 & Hkeys).
        refine (conj HI3 (conj _ (conj Hk3 (conj Ho3 _)))).
        -- by eapply ext_trans.
        -- simpl. by rewrite Hkey, Hkeys.
Qed.

Lemma compileStatements_wp stmts g :
  Forall (stmt_ok uuidv4 cs) stmts -> Inv uuidv4 g ->
  wp (compileStatements cs stmts) g (list_post uuidv4 stmts g) unhandled_event.
Proof.
  intros Hall HI. by apply compileStatements_loop_wp.
Qed.

Lemma container_wp body mk s g :
  Forall (stmt_ok uuidv4 cs) body ->
  (forall o g0, Inv uuidv4 g0 ->
     wp (mk o) g0 (fun id g' => Inv uuidv4 g' /\ ext g0 g' /\ id ∈ created g')
       unhandled_event) ->
  has_key s = existsb has_key body ->
  Inv uuidv4 g ->
  wp (container cs body mk) g (stmt_post uuidv4 s g) unhandled_event.
Proof.
  intros Hall Hmk Hs HI. unfold container.
  eapply wp_bind; [by apply compileStatements_wp|].
  intros c g1 (HI1 & He1 & Hk1 & Ho1 & Hkeys).
  eapply wp_bind; [by apply Hmk|].
  intros id g2 (HI2 & He2 & Hid).
  eapply wp_bind with (Q1 := fun _ g3 => Inv uuidv4 g3 /\ ext g2 g3).
  { destruct (length (blocksOrder c) =? 0) eqn:El; cbn [negb].
    - apply wp_ret. split; [done | apply ext_refl].
    - assert (Hne : blocksOrder c <> []).
      { intros Hnil. rewrite Hnil in El. done. }
      specialize (Ho1 Hne). destruct (first c) as [fi|] eqn:Ef; [|done].
      cbn [at_id]. apply set_parent_wp; [done|].
      eapply known_ext; [exact He2 | exact Hk1 | done]. }
  intros _u g3 (HI3 & He3). apply wp_ret.
  refine (conj HI3 (conj _ (conj _ _))).
  - eapply ext_trans; [exact He1|]. by eapply ext_trans.
  - intros ? [= <-]. destruct He3 as [_ (new & ->)].
    apply elem_of_app. by left.
  - by rewrite Hs.
Qed.

End Lists.

(** Every statement's lowering keeps the invariant, returns the id of a
    block or null, throws nothing but the error for a key event, and
    returns only when no key event stands in what it lowers. *)
Lemma compileStatement_wp s : stmt_ok uuidv4 (compileStatement uuidv4) s.
Proof.
  induction s as [k a b|c b IH|b IH|c b a IH|c|n a f|]
    using stmt_lowered_ind; intros g HI; cbn [compileStatement].
  - destruct k; try by apply node_wp. done.
  - eapply wp_bind; [by apply fresh_id_wp|].
    intros _u g1 (HI1 & He1).
    eapply wp_mono.
    + apply container_wp with (s := Repeat c b); try done.
      intros o g0 HI0. by apply addBlock_wp.
    + intros r g2 (HI2 & He2 & Hk2 & Hkey).
      refine (conj HI2 (conj _ (conj Hk2 Hkey))). by eapply ext_trans.
  - apply container_wp; try done.
    intros o g0 HI0. by apply addBlock_wp.
  - apply container_wp; try done.
    intros o g0 HI0. by apply addBlock_wp.
  - by apply node_wp.
  - by apply compileCall_wp.
  - apply wp_ret. refine (conj HI (conj (ext_refl g) (conj _ eq_refl))).
    by intros ? [=].
Qed.

Lemma top_loop_wp all nodes : forall scripts g,
  (exists pre, all = pre ++ nodes) -> Inv uuidv4 g ->
  wp (top_loop uuidv4 all nodes scripts) g
    (fun _ g' => Inv uuidv4 g' /\ existsb has_key nodes = false) unhandled_event.
Proof.
  induction nodes as [|node nodes IH]; intros scripts g Hpre HI;
    cbn [top_loop].
  - by apply wp_ret.
  - destruct (is_event node).
    + eapply wp_bind; [by apply compileStatement_wp|].
      intros hatId g1 (HI1 & He1 & Hk1 & Hkey).
      eapply wp_mono.
      * apply IH; [|done]. destruct Hpre as (pre & ->).
        exists (pre ++ [node]). by rewrite <- app_assoc.
      * intros r g2 (HI2 & Hkeys). split; [done|].
        simpl. by rewrite Hkey, Hkeys.
    + eapply wp_bind; [by apply addBlock_wp|].
      intros startHat g1 (HI1 & He1 & Hh).
      eapply wp_bind.
      { apply compileStatements_wp; [|done].
        apply Forall_forall. intros ? _. apply compileStatement_wp. }
      intros c g2 (HI2 & He2 & Hk2 & Ho2 & Hkeys).
      eapply wp_bind with (Q1 := fun _ g3 => Inv uuidv4 g3).
      { destruct (id_truthy (first c)).
        - eapply wp_mono.
          + apply set_next_wp; [done|].
            destruct He2 as [_ (new & ->)]. apply elem_of_app. by left.
          + by intros ? ? [? ?].
        - by apply wp_ret. }
      intros _u g3 HI3. apply wp_ret. split; [done|].
      destruct Hpre as (pre & ->). rewrite existsb_app in Hkeys.
      by apply orb_false_iff in Hkeys as [_ ?].
Qed.

(** [generateProject] returns with the invariant and only on a program
    with no key event where it lowers; else it throws the error for the
    key event. *)
Lemma generateProject_wp ast :
  wp (fun g => generateProject uuidv4 ast) init_gen
    (fun _ g' => Inv uuidv4 g' /\ existsb has_key (body ast) = false)
    unhandled_event.
Proof.
  unfold generateProject.
  apply (top_loop_wp (body ast) (body ast) [] init_gen).
  - by exists [].
  - apply Inv_init.
Qed.

End Invariant.

(* ===================================================================== *)
(** ** The lowering: key events, ids, containers, top level *)
(* ===================================================================== *)

(** The claim of C3 fails: a key event between [move(10)] and [wait(1)]
    makes the list lowering throw; no chain is returned. *)
Lemma key_event_lowering_throws :
  compileStatements (compileStatement uuid_counter)
    [move10; on_key_a; wait1] init_gen
  = Throw (Error (UnhandledStmtType "Event")).
Proof. vm_compute. reflexivity. Qed.

(** The lowering throws nothing but the error for a key event: the writes
    to [next] and [parent] always find their block. *)
Lemma generateProject_throws_only_unhandled uuidv4 ast e :
  generateProject uuidv4 ast = Throw e ->
  e = Error (UnhandledStmtType "Event").
Proof.
  intros Hrun. pose proof (generateProject_wp uuidv4 ast) as H.
  unfold wp in H. by rewrite Hrun in H.
Qed.

(** C3 (amended). The lowering has no case for a key event: the statement
    falls through to the final [throw], so its lowering throws
    'Unhandled stmt type Event' and returns no node; and [generateProject]
    throws that error, and returns no project, for every program tree
    with a key event at the top level or in a body that is lowered. *)
Theorem key_event_is_unhandled (uuidv4 : nat -> jsstring) :
  (forall k n g,
     compileStatement uuidv4 (Event key k n) g
     = Throw (Error (UnhandledStmtType "Event")))
  /\ (forall ast,
        existsb has_key (body ast) = true ->
        generateProject uuidv4 ast = Throw (Error (UnhandledStmtType "Event"))).
Proof.
  split; [done|]. intros ast Hkey.
  pose proof (generateProject_wp uuidv4 ast) as H. unfold wp in H.
  destruct (generateProject uuidv4 ast) as [r g|e|].
  - destruct H as [_ H]. congruence.
  - by rewrite H.
  - done.
Qed.

Lemma key_event_is_unhandled_witness :
  generateProject uuid_counter
    {| body := [Event start None None;
                Repeat (num 2) [move10; on_key_a]] |}
  = Throw (Error (UnhandledStmtType "Event")).
Proof.
  apply (proj2 (key_event_is_unhandled uuid_counter)). reflexivity.
Defined.

(** The claim of C8 fails: the ids are the first 20 hexadecimal digits of
    random UUIDs, and different UUIDs can agree on them.  With the UUIDs of
    [uuid_tail], all different, the hat and the blocks of [move(10)] and
    [wait(1)] get one id: [blocks] ends with one entry for three blocks. *)
Lemma ids_can_collide :
  (forall i j, uuid_tail i = uuid_tail j -> i < 3 -> j < 3 -> i = j)
  /\ let r := generateProject uuid_tail {| body := [move10; wait1] |} in
     ~ NoDup (created_in r)
     /\ length (created_in r) = 3
     /\ block_count r = 1.
Proof.
  split.
  - intros i j H Hi Hj.
    destruct i as [|[|[|i]]]; [| | |lia];
      (destruct j as [|[|[|j]]]; [| | |lia]); try done;
      vm_compute in H; discriminate.
  - cbv zeta. split; [|by vm_compute].
    intros H. vm_compute in H. inversion H as [|x l Hx _]; subst.
    apply Hx. by left.
Qed.

(** A source whose first [n] ids are pairwise distinct. *)
Lemma distinct_ids_below (uuidv4 : nat -> jsstring) n :
  NoDup ((fun k => short_id (uuidv4 k)) <$> seq 0 n) ->
  forall i j, i < n -> j < n ->
    short_id (uuidv4 i) = short_id (uuidv4 j) -> i = j.
Proof.
  intros Hnd i j Hi Hj Heq.
  eapply NoDup_lookup; [exact Hnd | | ].
  - rewrite list_lookup_fmap, lookup_seq_lt by done. reflexivity.
  - rewrite list_lookup_fmap, lookup_seq_lt by done. simpl. by rewrite Heq.
Qed.

(** C8 (amended). When the UUIDs drawn in a compilation differ in their
    first 20 hexadecimal digits, every block gets an id no other block of
    that compilation has: the ids given out are pairwise distinct, they
    are exactly the keys of [blocks], and [blocks] has as many entries as
    there were blocks created, whatever the size of the program. *)
Theorem ids_unique_when_prefixes_differ (uuidv4 : nat -> jsstring)
    (ast : Program) (scripts : list (option jsstring)) (g : gen) :
  (forall i j, i < draws g -> j < draws g ->
     short_id (uuidv4 i) = short_id (uuidv4 j) -> i = j) ->
  generateProject uuidv4 ast = Ok scripts g ->
  NoDup (created g)
  /\ dom (blocks g) = list_to_set (created g)
  /\ size (blocks g) = length (created g).
Proof.
  intros Hinj Hrun.
  pose proof (generateProject_wp uuidv4 ast) as H. unfold wp in H.
  rewrite Hrun in H. destruct H as [(ks & Hc & Hs & Hb & Hd) _].
  assert (Hnd : NoDup (created g)).
  { rewrite Hc. apply (NoDup_fmap_2_strong _).
    - intros i j Hi Hj. apply Hinj.
      + eapply Forall_forall in Hb; [exact Hb | done].
      + eapply Forall_forall in Hb; [exact Hb | done].
    - clear -Hs. induction Hs as [|k ks Hs IH Hk]; constructor; [|done].
      intros Hin. eapply Forall_forall in Hk; [|done]. lia. }
  split; [done|]. split; [done|].
  rewrite <- size_dom, Hd. by apply size_list_to_set.
Qed.


Lemma is_ok_inv {S A} (r : res S A) :
  is_ok r = true -> exists a s, r = Ok a s.
Proof. destruct r; [eauto | done..]. Qed.

Lemma ids_unique_when_prefixes_differ_witness :
  let r := generateProject uuid_counter (moves 100) in
  NoDup (created_in r)
  /\ block_count r = length (created_in r)
  /\ length (created_in r) = 101.
Proof.
  cbv zeta.
  remember (generateProject uuid_counter (moves 100)) as r eqn:Er.
  assert (Hok : is_ok r = true) by (rewrite Er; vm_compute; reflexivity).
  destruct r as [scripts g|e|]; [|discriminate Hok..].
  assert (Hd : draws g = 101).
  { change (draws g) with (match Ok scripts g with
                           | Ok _ g0 => draws g0
                           | _ => 0
                           end).
    rewrite Er. vm_compute. reflexivity. }
  assert (Hl : length (created g) = 101).
  { change (length (created g))
      with (match Ok scripts g with
            | Ok _ g0 => length (created g0)
            | _ => 0
            end).
    rewrite Er. vm_compute. reflexivity. }
  destruct (ids_unique_when_prefixes_differ uuid_counter (moves 100)
              scripts g) as (H1 & H2 & H3).
  - rewrite Hd. apply distinct_ids_below.
    apply (bool_decide_unpack _). vm_compute. exact I.
  - symmetry. exact Er.
  - unfold created_in, block_count. rewrite H3.
    exact (conj H1 (conj eq_refl Hl)).
Defined.

Lemma fresh_id_eval uuidv4 g :
  fresh_id uuidv4 g
  = Ok (next_id uuidv4 g)
       {| blocks := blocks g; draws := S (draws g); created := created g |}.
Proof. reflexivity. Qed.

Lemma bind_ok {S A B} (m : M S A) (f : A -> M S B) s a s' :
  m s = Ok a s' -> bind m f s = f a s'.
Proof. unfold bind. by intros ->. Qed.

Lemma move10_eval uuidv4 g :
  compileStatement uuidv4 (Call (str "move") [LNum (num 10)] None) g
  = Ok (Some (next_id uuidv4 g))
       (added uuidv4 g
          (Block.Make "motion_movesteps"
             [("STEPS", num_input (VNum (num 10)))] [] None None)).
Proof. reflexivity. Qed.

Lemma turn_right_eval uuidv4 g :
  compileStatement uuidv4
    (Call (str "turn") [LStr (str "right"); LNum (num 15)] None) g
  = Ok (Some (next_id uuidv4 g))
       (added uuidv4 g
          (Block.Make "motion_turnright"
             [("DEGREES", num_input (VNum (num 15)))] [] None None)).
Proof. reflexivity. Qed.

Lemma id_truthy_nonempty i : i <> [] -> id_truthy (Some i) = true.
Proof. by destruct i. Qed.

(** C7. Lowering Repeat 5 [move(10); turn right(15)] from any state, with
    non-empty, pairwise distinct ids for the three blocks: the body is
    lowered first (its blocks get the ids of the UUIDs drawn before the
    container's), the [control_repeat] block is created after it with
    SUBSTACK the id of the [motion_movesteps] block (STEPS 10), whose
    [next] is the id of the [motion_turnright] block (DEGREES 15) and
    whose [parent] is the id of the repeat block; the repeat block's own
    [parent] is null.  With an empty body, SUBSTACK is null and no parent
    is written anywhere: the run only adds the repeat block. *)
Theorem repeat_lowering (uuidv4 : nat -> jsstring) (g : gen) :
  let id1 := short_id (uuidv4 (1 + draws g)) in
  let id2 := short_id (uuidv4 (2 + draws g)) in
  let id3 := short_id (uuidv4 (3 + draws g)) in
  (id1 <> [] -> id2 <> [] -> id1 <> id2 -> id3 <> id1 -> id3 <> id2 ->
   exists g',
     compileStatement uuidv4 example_repeat g = Ok (Some id3) g'
     /\ created g' = created g ++ [id1; id2; id3]
     /\ blocks g' !! id3
        = Some (Block.Make "control_repeat"
                  [("TIMES", num_input (VNum (num 5)));
                   ("SUBSTACK", VArr [VNum (num 2); VStr id1])]
                  [] None None)
     /\ blocks g' !! id1
        = Some (Block.Make "motion_movesteps"
                  [("STEPS", num_input (VNum (num 10)))] []
                  (Some id2) (Some id3))
     /\ blocks g' !! id2
        = Some (Block.Make "motion_turnright"
                  [("DEGREES", num_input (VNum (num 15)))] [] None None))
  /\ (forall count,
        compileStatement uuidv4 (Repeat count []) g
        = Ok (Some id1)
             {| blocks :=
                  <[id1 := Block.Make "control_repeat"
                             [("TIMES", num_input (VNum count));
                              ("SUBSTACK", VArr [VNum (num 2); VNull])]
                             [] None None]> (blocks g);
                draws := 2 + draws g;
                created := created g ++ [id1] |}).
Proof.
  intros id1 id2 id3. split; [|done].
  intros H1 H2 H12 H31 H32.
  pose (m := blocks g).
  pose (B1 := Block.Make "motion_movesteps"
                [("STEPS", num_input (VNum (num 10)))] [] None None).
  pose (B2 := Block.Make "motion_turnright"
                [("DEGREES", num_input (VNum (num 15)))] [] None None).
  pose (g1 := {| blocks := m; draws := S (draws g); created := created g |}).
  pose (g2 := added uuidv4 g1 B1).
  pose (g3 := added uuidv4 g2 B2).
  assert (Hbody :
    compileStatements (compileStatement uuidv4)
      [Call (str "move") [LNum (num 10)] None;
       Call (str "turn") [LStr (str "right"); LNum (num 15)] None] g1
    = Ok {| first := Some id1; last := Some id2;
            blocksOrder := [Some id1; Some id2] |}
         {| blocks := <[id1 := Block.Make "motion_movesteps"
                                 [("STEPS", num_input (VNum (num 10)))] []
                                 (Some id2) None]> (blocks g3);
            draws := draws g3; created := created g3 |}).
  { assert (T1 := id_truthy_nonempty id1 H1).
    assert (T2 := id_truthy_nonempty id2 H2).
    unfold compileStatements. cbn [compileStatements_loop].
    rewrite (bind_ok _ _ g1 (Some id1) g2) by apply move10_eval.
    rewrite T1. cbn [negb]. change (id_truthy None) with false. cbv iota.
    rewrite (bind_ok _ _ g2 tt g2) by reflexivity.
    rewrite (bind_ok _ _ g2 (Some id2) g3) by apply turn_right_eval.
    rewrite T2. cbn [negb]. rewrite T1. cbn [at_id].
    erewrite bind_ok; [reflexivity|].
    unfold set_next. subst g3 g2. unfold added. cbn [blocks draws created].
    change (next_id uuidv4 g1) with id1.
    change (next_id uuidv4 _) with id2.
    rewrite lookup_insert_ne by done. rewrite lookup_insert_eq.
    reflexivity. }
  eexists. split.
  - unfold example_repeat. cbn [compileStatement].
    erewrite bind_ok; [|apply fresh_id_eval].
    unfold container. erewrite bind_ok; [|exact Hbody].
    erewrite bind_ok; [|apply addBlock_eval]. cbn [blocksOrder length].
    cbn [Nat.eqb negb first at_id].
    erewrite bind_ok; [reflexivity|].
    unfold set_parent, added, next_id. cbn [blocks draws created]. fold id3.
    rewrite lookup_insert_ne by done. rewrite lookup_insert_eq.
    cbn [Block.opcode Block.inputs Block.fields Block.next Block.parent].
    reflexivity.
  - cbn [created blocks]. subst g3 g2 g1. unfold added, next_id.
    cbn [created draws blocks]. fold id1 id2 id3. split.
    { unfold push. by rewrite <- !app_assoc. }
    split; [|split].
    + rewrite lookup_insert_ne by done. by rewrite lookup_insert_eq.
    + by rewrite lookup_insert_eq.
    + rewrite lookup_insert_ne by done. rewrite lookup_insert_ne by done.
      rewrite lookup_insert_ne by done. by rewrite lookup_insert_eq.
Qed.

Lemma repeat_lowering_witness :
  exists g',
    compileStatement uuid_counter example_repeat init_gen = Ok (Some (nid 3)) g'
    /\ created g' = [nid 1; nid 2; nid 3]
    /\ blocks g' !! nid 3
       = Some (Block.Make "control_repeat"
                 [("TIMES", num_input (VNum (num 5)));
                  ("SUBSTACK", VArr [VNum (num 2); VStr (nid 1)])]
                 [] None None)
    /\ blocks g' !! nid 1
       = Some (Block.Make "motion_movesteps"
                 [("STEPS", num_input (VNum (num 10)))] []
                 (Some (nid 2)) (Some (nid 3)))
    /\ blocks g' !! nid 2
       = Some (Block.Make "motion_turnright"
                 [("DEGREES", num_input (VNum (num 15)))] [] None None).
Proof.
  apply (proj1 (repeat_lowering uuid_counter init_gen));
    vm_compute; discriminate.
Defined.

(** C2. For [on start; move(10);], an Event first and a statement after
    it, the top-level loop makes the Event's hat (id 0) and then, on the
    statement that is no Event, still makes a second start hat (id 1) and
    lowers the whole list again under it: the Event is lowered a second
    time (id 2) and the move block is attached to that hat as its [next].
    So a start hat is added although the first statement is an Event, and
    the one Event has two hats, one of them with the following statement
    attached. *)
Theorem event_then_statement_adds_start_hat :
  let r := generateProject uuid_counter
             {| body := [Event start None None; move10] |} in
  returned r = Some [Some (nid 0)]
  /\ created_in r = [nid 0; nid 1; nid 2; nid 3]
  /\ block_at r (nid 0) = Some (hat None)
  /\ block_at r (nid 1) = Some (hat (Some (nid 2)))
  /\ block_at r (nid 2) = Some (hat (Some (nid 3)))
  /\ block_at r (nid 3)
     = Some (Block.Make "motion_movesteps"
               [("STEPS", num_input (VNum (num 10)))] [] None None).
Proof. vm_compute. done. Qed.

(** The same on the program of the file's header comment, given as the
    tree the specification describes: three hats for its one Event; the
    blocks of the Repeat are linked as C7 says. *)
Lemma example_tree_lowering :
  let r := generateProject uuid_counter example_tree in
  created_in r = [nid 0; nid 1; nid 2; nid 4; nid 5; nid 6]
  /\ block_at r (nid 0) = Some (hat None)
  /\ block_at r (nid 1) = Some (hat (Some (nid 2)))
  /\ block_at r (nid 2) = Some (hat (Some (nid 6)))
  /\ block_at r (nid 6)
     = Some (Block.Make "control_repeat"
               [("TIMES", num_input (VNum (num 5)));
                ("SUBSTACK", VArr [VNum (num 2); VStr (nid 4)])]
               [] None None)
  /\ block_at r (nid 4)
     = Some (Block.Make "motion_movesteps"
               [("STEPS", num_input (VNum (num 10)))] []
               (Some (nid 5)) (Some (nid 6)))
  /\ block_at r (nid 5)
     = Some (Block.Make "motion_turnright"
               [("DEGREES", num_input (VNum (num 15)))] [] None None).
Proof. vm_compute. done. Qed.

(** Where the top-level loop does what the specification says: a program
    of start Events only gets one hat each, all isolated, and no other
    block. *)
Lemma events_only_lowering :
  let r := generateProject uuid_counter
             {| body := [Event start None None; Event click None None] |} in
  returned r = Some [Some (nid 0); Some (nid 1)]
  /\ created_in r = [nid 0; nid 1]
  /\ block_at r (nid 0) = Some (hat None)
  /\ block_at r (nid 1)
     = Some (Block.Make "event_whenthisspriteclicked" [] [] None None).
Proof. vm_compute. done. Qed.

(** ... and a program whose first statement is no Event gets one start
    hat, with the lowered list under it. *)
Lemma statements_only_lowering :
  let r := generateProject uuid_counter {| body := [move10; wait1] |} in
  returned r = Some []
  /\ created_in r = [nid 0; nid 1; nid 2]
  /\ block_at r (nid 0) = Some (hat (Some (nid 1)))
  /\ (Block.next <$> block_at r (nid 1)) = Some (Some (nid 2)).
Proof. vm_compute. done. Qed.


(* ===================================================================== *)
(** ** More on the lexer: the shape of its results *)
(* ===================================================================== *)

Lemma push_opt_not_eof tokens tok :
  Forall (fun t => t <> TEof) tokens ->
  (forall t, tok = Some t -> t <> TEof) ->
  Forall (fun t => t <> TEof) (push_opt tokens tok).
Proof.
  intros Ht Hk. destruct tok as [t|]; simpl; [|done].
  unfold push. apply Forall_app. split; [done|].
  constructor; [by apply Hk | constructor].
Qed.

Lemma tokenize_step_not_eof input pos pos' tok t :
  tokenize_step input pos = StepMatch pos' tok -> tok = Some t -> t <> TEof.
Proof.
  unfold tokenize_step. destruct (exec re input pos) as [[m li]|].
  - intros [= <- <-].
    repeat match goal with
           | |- context [if ?b then _ else _] => destruct b
           end; intros [= <-]; done.
  - destruct (input !! pos) as [ch|]; [destruct (is_blank ch)|]; done.
Qed.

Lemma push_opt_length {A} (l : list A) o :
  length (push_opt l o) <= S (length l).
Proof. destruct o; simpl; [unfold push; rewrite length_app; simpl|]; lia. Qed.

(** What the loop of [tokenize] returns, from a state where the tokens
    pushed so far hold no end-of-input token and are no more than the
    code units read. *)
Lemma tokenize_loop_shape fuel : forall input pos tokens,
  Forall (fun t => t <> TEof) tokens ->
  length tokens <= pos ->
  match tokenize_loop fuel input pos tokens with
  | LexOk out =>
      exists toks, out = toks ++ [TEof]
                   /\ Forall (fun t => t <> TEof) toks
                   /\ length toks <= pos `max` length input
  | LexError p snippet =>
      pos <= p < length input
      /\ snippet = take 20 (drop p input)
      /\ exec re input p = None
      /\ exists ch, input !! p = Some ch /\ is_blank ch = false
  | LexOutOfFuel => True
  end.
Proof.
  induction fuel as [|fuel IH]; intros input pos tokens Hne Hlen; simpl.
  - destruct (pos <? length input) eqn:E; simpl; [done|].
    exists tokens. split; [done|]. split; [done|]. lia.
  - destruct (pos <? length input) eqn:E; simpl.
    + apply Nat.ltb_lt in E.
      destruct (tokenize_step input pos) as [|sn|pos' tok] eqn:Es.
      * specialize (IH input (S pos) tokens Hne ltac:(lia)).
        destruct (tokenize_loop fuel input (S pos) tokens) as [out|p sn|];
          [|destruct IH as ([? ?] & ? & ? & ?); (split; [lia | done])|done].
        destruct IH as (toks & -> & Hf & Hl). exists toks.
        split; [done|]. split; [done|]. lia.
      * unfold tokenize_step in Es.
        destruct (exec re input pos) as [[m li]|] eqn:Ee; [done|].
        destruct (input !! pos) as [ch|] eqn:Ec.
        -- destruct (is_blank ch) eqn:Eb; [done|]. injection Es as <-.
           split; [lia|]. split; [done|]. split; [done|]. by exists ch.
        -- apply lookup_ge_None in Ec. lia.
      * pose proof (tokenize_step_progress _ _ _ _ E Es) as Hp.
        assert (Hne' : Forall (fun t => t <> TEof) (push_opt tokens tok)).
        { apply push_opt_not_eof; [done|]. intros t Ht.
          by eapply tokenize_step_not_eof. }
        pose proof (push_opt_length tokens tok) as Hpl.
        specialize (IH input pos' (push_opt tokens tok) Hne' ltac:(lia)).
        destruct (tokenize_loop fuel input pos' (push_opt tokens tok))
          as [out|p sn|];
          [|destruct IH as ([? ?] & ? & ? & ?); (split; [lia | done])|done].
        destruct IH as (toks & -> & Hf & Hl). exists toks.
        split; [done|]. split; [done|]. lia.
    + exists tokens. split; [done|]. split; [done|]. lia.
Qed.

(** X1. When [tokenize] returns, the token sequence is some tokens that are
    not the end-of-input token, followed by exactly one end-of-input token;
    and there are at most as many tokens before it as the input has code
    units. *)
Theorem tokenize_ok_ends_with_eof (input : jsstring) (out : list token) :
  tokenize input = LexOk out ->
  exists toks,
    out = toks ++ [TEof]
    /\ Forall (fun t => t <> TEof) toks
    /\ length toks <= length input.
Proof.
  intros H. pose proof (tokenize_loop_shape (length input) input 0 []) as S.
  unfold tokenize in H. rewrite H in S.
  destruct S as (toks & -> & Hf & Hl); [constructor | simpl; lia |].
  exists toks. split; [done|]. split; [done|]. lia.
Qed.

Lemma tokenize_ok_ends_with_eof_witness :
  exists toks,
    [TIdent (str "on"); TIdent (str "start"); TPunct (str ";"); TEof]
    = toks ++ [TEof]
    /\ Forall (fun t => t <> TEof) toks
    /\ length toks <= length (str "on start;").
Proof.
  apply (tokenize_ok_ends_with_eof (str "on start;")). vm_compute. reflexivity.
Defined.

(** X2. When [tokenize] throws, the position in the message is inside the
    input, the pattern does not match there, the code unit there is none
    of newline, carriage return, tab and space, and the message ends with
    the (at most 20) code units from that position on. *)
Theorem tokenize_error_position (input : jsstring) (pos : nat)
    (snippet : jsstring) :
  tokenize input = LexError pos snippet ->
  pos < length input
  /\ snippet = take 20 (drop pos input)
  /\ exec re input pos = None
  /\ exists ch, input !! pos = Some ch /\ is_blank ch = false.
Proof.
  intros H. pose proof (tokenize_loop_shape (length input) input 0 []) as S.
  unfold tokenize in H. rewrite H in S.
  destruct S as (Hp & ? & ? & ?); [constructor | simpl; lia |].
  split; [lia | done].
Qed.

Lemma tokenize_error_position_witness :
  2 < length (str "a @ b")
  /\ str "@ b" = take 20 (drop 2 (str "a @ b"))
  /\ exec re (str "a @ b") 2 = None
  /\ exists ch, str "a @ b" !! 2 = Some ch /\ is_blank ch = false.
Proof.
  apply (tokenize_error_position (str "a @ b") 2 (str "@ b")).
  vm_compute. reflexivity.
Defined.

(** No group of the pattern matches at a blank or at the end. *)
Lemma groups_fail_at_blank s (k : jsstring -> caps -> option (caps * nat)) c :
  Forall (fun c => is_blank c = true) s ->
  rmatch (Seq (Grp 1 (alts (map (fun s => Lit (str s)) punct_lits)))
            (Star is_space)) s c k = None
  /\ rmatch (Seq (Grp 2 (Seq (Cls is_ident_start) (Star is_ident_part)))
               (Star is_space)) s c k = None
  /\ rmatch (Seq (Grp 3 (Seq (Lit [quote])
                           (Seq (Star not_quote) (Lit [quote]))))
               (Star is_space)) s c k = None
  /\ rmatch (Seq (Grp 4 (Seq (Cls is_digit)
                           (Seq (Star is_digit)
                              (Opt (Seq (Lit (str "."))
                                      (Seq (Cls is_digit)
                                         (Star is_digit)))))))
               (Star is_space)) s c k = None.
Proof.
  intros Hs. destruct s as [|ch rest]; [done|].
  inversion Hs as [|? ? Hch _]; subst. unfold is_blank in Hch.
  repeat (apply orb_true_iff in Hch as [Hch|Hch]);
    apply N.eqb_eq in Hch; subst ch; done.
Qed.

Lemma rmatch_star_seq {R} p r s c (k : jsstring -> caps -> option R) :
  rmatch (Seq (Star p) r) s c k
  = star_match p s (fun s' => rmatch r s' c k).
Proof. reflexivity. Qed.

(** The pattern does not match where only blanks are left. *)
Lemma exec_blank_rest input pos :
  Forall (fun c => is_blank c = true) (drop pos input) ->
  exec re input pos = None.
Proof.
  intros Hb. unfold exec.
  assert (Hg := fun n k c =>
            groups_fail_at_blank (drop n (drop pos input)) k c
              (Forall_drop _ n _ Hb)).
  unfold re. cbn [rmatch].
  unfold re_punct, re_ident, re_string, re_number.
  rewrite !rmatch_star_seq.
  rewrite star_match_none by (intros n; apply (Hg n)).
  rewrite star_match_none by (intros n; apply (Hg n)).
  rewrite star_match_none by (intros n; apply (Hg n)).
  rewrite star_match_none by (intros n; apply (Hg n)).
  done.
Qed.

Lemma tokenize_loop_blank fuel : forall input pos tokens,
  length input - pos <= fuel ->
  Forall (fun c => is_blank c = true) (drop pos input) ->
  tokenize_loop fuel input pos tokens = LexOk (tokens ++ [TEof]).
Proof.
  induction fuel as [|fuel IH]; intros input pos tokens Hf Hb; simpl.
  - destruct (pos <? length input) eqn:E; simpl; [|done].
    apply Nat.ltb_lt in E. lia.
  - destruct (pos <? length input) eqn:E; simpl; [|done].
    apply Nat.ltb_lt in E. unfold tokenize_step.
    rewrite (exec_blank_rest _ _ Hb).
    destruct (input !! pos) as [ch|] eqn:Ec;
      [|apply lookup_ge_None in Ec; lia].
    rewrite (drop_S _ _ _ Ec) in Hb. inversion Hb as [|? ? Hch Hrest]; subst.
    rewrite Hch. apply IH; [lia | done].
Qed.

(** X3. An input of newlines, carriage returns, tabs and spaces only (the
    empty input too) is tokenized to the end-of-input token alone. *)
Theorem tokenize_blank_input (input : jsstring) :
  Forall (fun c => is_blank c = true) input ->
  tokenize input = LexOk [TEof].
Proof.
  intros Hb. unfold tokenize.
  by apply (tokenize_loop_blank (length input) input 0 []); [lia|].
Qed.

Lemma tokenize_blank_input_witness :
  tokenize (str "  ") = LexOk [TEof].
Proof.
  apply (tokenize_blank_input (str "  ")). repeat constructor.
Defined.

(** *** The tokens returned are well formed *)

Import RegexLang.

Lemma lit_match_app l s s' : lit_match l s = Some s' -> s = l ++ s'.
Proof.
  revert s. induction l as [|c l IH]; intros [|d s] H; simpl in *;
    try discriminate.
  - by inversion H.
  - by inversion H.
  - destruct (N.eqb_spec c d); [|discriminate]. subst. f_equal. by apply IH.
Qed.

Lemma star_match_lang {R} p s (k : jsstring -> option R) x :
  star_match p s k = Some x ->
  exists w s', s = w ++ s' /\ Forall (fun d => p d = true) w /\ k s' = Some x.
Proof.
  induction s as [|c s IH]; simpl; intros H.
  - by exists [], [].
  - destruct (p c) eqn:Ep.
    + destruct (star_match p s k) eqn:E.
      * inversion H; subst. destruct (IH eq_refl) as (w & s' & -> & Hw & Hk).
        exists (c :: w), s'. split; [done|]. split; [by constructor | done].
      * by exists [], (c :: s).
    + by exists [], (c :: s).
Qed.

(** A successful match splits the input into a text of the pattern and the
    rest handed to the continuation, with every capture in [P]. *)
Lemma rmatch_lang {R} P r :
  groups_in P r ->
  forall s c (k : jsstring -> caps -> option R) x,
    caps_in P c ->
    rmatch r s c k = Some x ->
    exists w s' c',
      s = w ++ s' /\ lang r w /\ caps_in P c' /\ k s' c' = Some x.
Proof.
  induction r as [p|l|r1 IH1 r2 IH2|r1 IH1 r2 IH2|p|r1 IH1|i r1 IH1];
    intros Hg s c k x Hc H; simpl in H, Hg.
  - destruct s as [|d s]; [discriminate|]. destruct (p d) eqn:Ep; [|discriminate].
    exists [d], s, c. repeat split; try done. by exists d.
  - destruct (lit_match l s) as [s'|] eqn:E; [|discriminate].
    apply lit_match_app in E. by exists l, s', c.
  - destruct Hg as [Hg1 Hg2].
    apply (IH1 Hg1) in H as (w1 & s1 & c1 & -> & L1 & Hc1 & H); [|done].
    apply (IH2 Hg2) in H as (w2 & s2 & c2 & -> & L2 & Hc2 & H); [|done].
    exists (w1 ++ w2), s2, c2. rewrite <- app_assoc.
    repeat split; try done. by exists w1, w2.
  - destruct Hg as [Hg1 Hg2]. destruct (rmatch r1 s c k) eqn:E.
    + inversion H; subst.
      apply (IH1 Hg1) in E as (w & s' & c' & -> & L & Hc' & Hk); [|done].
      exists w, s', c'. repeat split; try done. by left.
    + apply (IH2 Hg2) in H as (w & s' & c' & -> & L & Hc' & Hk); [|done].
      exists w, s', c'. repeat split; try done. by right.
  - apply star_match_lang in H as (w & s' & -> & Hw & Hk).
    by exists w, s', c.
  - destruct (rmatch r1 s c k) eqn:E.
    + inversion H; subst.
      apply (IH1 Hg) in E as (w & s' & c' & -> & L & Hc' & Hk); [|done].
      exists w, s', c'. repeat split; try done. by right.
    + exists [], s, c. repeat split; try done. by left.
  - destruct Hg as [Hp Hg].
    apply (IH1 Hg) in H as (w & s' & c' & -> & L & Hc' & Hk); [|done].
    exists w, s', (set_cap i w c'). repeat split; try done.
    + intros j t. unfold set_cap. destruct (Nat.eqb_spec i j).
      * intros [= <-]. subst. by apply Hp.
      * apply Hc'.
    + rewrite length_app in Hk.
      replace (length w + length s' - length s') with (length w) in Hk by lia.
      by rewrite take_app_length in Hk.
Qed.

Lemma lang_alts_lits (ls : list string) w :
  lang (alts (map (fun s => Lit (str s)) ls)) w -> w ∈ map str ls.
Proof.
  induction ls as [|a [|b ls] IH]; simpl.
  - by intros (d & _ & ?).
  - intros ->. by left.
  - intros [->|H]; [by left|]. right. by apply IH.
Qed.

Lemma groups_in_lits P (ls : list string) :
  groups_in P (alts (map (fun s => Lit (str s)) ls)).
Proof. induction ls as [|a [|b ls] IH]; simpl; done. Qed.

(** The groups of the lexer's pattern capture what [lexeme_of_group]
    says. *)
Lemma re_groups : groups_in lexeme_of_group re.
Proof.
  unfold re. cbn [groups_in]. split; [|split; [|split]].
  - unfold re_punct. cbn [groups_in].
    split; [done|]. split; [|done]. split; [|apply groups_in_lits].
    intros w. apply lang_alts_lits.
  - unfold re_ident. cbn [groups_in].
    split; [done|]. split; [|done]. split; [|done].
    cbn [lang]. intros w (w1 & w2 & -> & (d & -> & Hd) & Hr). by exists d, w2.
  - unfold re_string. cbn [groups_in].
    split; [done|]. split; [|done]. split; [|done].
    cbn [lang]. intros w (w1 & w2 & -> & -> & (b & w3 & -> & Hb & ->)).
    by exists b.
  - unfold re_number. cbn [groups_in].
    split; [done|]. split; [|done]. split; [|done].
    cbn [lang].
    intros w (w1 & w2 & -> & (d & -> & Hd) & (w3 & w4 & -> & H3 & H4)).
    split; [done|]. constructor; [by rewrite Hd|].
    apply Forall_app. split.
    + eapply Forall_impl; [exact H3|]. simpl. by intros ? ->.
    + destruct H4 as [->|(w5 & w6 & -> & -> & (e & w7 & -> & (f & -> & Hf) & H7))];
        [constructor|].
      constructor; [done|]. constructor; [by rewrite Hf|].
      eapply Forall_impl; [exact H7|]. simpl. by intros ? ->.
Qed.

Lemma exec_captures input pos m lastIndex :
  exec re input pos = Some (m, lastIndex) ->
  caps_in lexeme_of_group m.
Proof.
  unfold exec. intros H.
  apply (rmatch_lang lexeme_of_group re re_groups) in H
    as (w & s' & c' & _ & _ & Hc & [= <- _]); done.
Qed.

Lemma slice_1_m1_string b :
  slice_1_m1 ([quote] ++ b ++ [quote]) = b.
Proof.
  unfold slice_1_m1.
  change ([quote] ++ b ++ [quote]) with (quote :: (b ++ [quote])).
  cbn [drop]. rewrite length_cons, length_app. cbn [length].
  replace (S (length b + 1) - 2) with (length b) by lia.
  apply take_app_length.
Qed.

Lemma tokenize_step_wf input pos pos' t :
  tokenize_step input pos = StepMatch pos' (Some t) -> token_wf t.
Proof.
  unfold tokenize_step.
  destruct (exec re input pos) as [[m li]|] eqn:E.
  - pose proof (exec_captures _ _ _ _ E) as Hc. intros [= <- Ht].
    destruct (m 1) as [t1|] eqn:E1; simpl in Ht.
    + destruct t1 as [|a t1]; simpl in Ht.
      * destruct (m 2) as [[|a2 t2]|] eqn:E2; simpl in Ht;
          [| injection Ht as <-; exact (Hc 2 _ E2) |];
        (destruct (m 3) as [[|a3 t3]|] eqn:E3; simpl in Ht;
          [| injection Ht as <-;
             destruct (Hc 3 _ E3) as (b & -> & Hb);
             rewrite slice_1_m1_string; simpl;
             eapply Forall_impl; [exact Hb|];
             simpl; intros x Hx ->; done |];
         (destruct (m 4) as [[|a4 t4]|]; simpl in Ht;
            [discriminate | by injection Ht as <- | discriminate])).
      * injection Ht as <-. exact (Hc 1 _ E1).
    + destruct (m 2) as [[|a2 t2]|] eqn:E2; simpl in Ht;
        [| injection Ht as <-; exact (Hc 2 _ E2) |];
      (destruct (m 3) as [[|a3 t3]|] eqn:E3; simpl in Ht;
        [| injection Ht as <-;
           destruct (Hc 3 _ E3) as (b & -> & Hb);
           rewrite slice_1_m1_string; simpl;
           eapply Forall_impl; [exact Hb|];
           simpl; intros x Hx ->; done |];
       (destruct (m 4) as [[|a4 t4]|]; simpl in Ht;
          [discriminate | by injection Ht as <- | discriminate])).
  - destruct (input !! pos) as [ch|]; [destruct (is_blank ch)|]; done.
Qed.

Lemma tokenize_loop_wf fuel : forall input pos tokens out,
  Forall token_wf tokens ->
  tokenize_loop fuel input pos tokens = LexOk out ->
  Forall token_wf out.
Proof.
  induction fuel as [|fuel IH]; intros input pos tokens out Hwf; simpl.
  - destruct (pos <? length input); simpl; [done|].
    intros [= <-]. apply Forall_app. split; [done | by repeat constructor].
  - destruct (pos <? length input); simpl.
    + destruct (tokenize_step input pos) as [|sn|pos' tok] eqn:Es; [|done|].
      * by apply IH.
      * apply IH. destruct tok as [t|]; simpl; [|done].
        apply Forall_app. split; [done|].
        constructor; [|constructor]. by eapply tokenize_step_wf.
    + intros [= <-]. apply Forall_app. split; [done | by repeat constructor].
Qed.

(** X4. Every token [tokenize] returns is well formed: the value of a
    punctuation token is one of the pattern's punctuation literals, the
    value of an identifier token starts with a letter or an underscore and
    goes on with letters, digits, underscores, dots and double quotes, and
    the value of a string token holds no double quote. *)
Theorem tokenize_tokens_wf (input : jsstring) (out : list token) :
  tokenize input = LexOk out -> Forall token_wf out.
Proof. apply tokenize_loop_wf. constructor. Qed.

Lemma tokenize_tokens_wf_witness :
  Forall token_wf
    [TIdent (str "say"); TPunct (str "("); TString (str "hi");
     TPunct (str ")"); TPunct (str ";"); TEof].
Proof.
  apply (tokenize_tokens_wf (str "say(" ++ [quote] ++ str "hi" ++ [quote]
                               ++ str ");")).
  vm_compute. reflexivity.
Defined.

(** *** Written tokens are read back *)

Lemma star_match_stop {R} p s (k : jsstring -> option R) :
  stops p s -> star_match p s k = k s.
Proof. destruct s as [|c s]; [done|]. simpl. by intros ->. Qed.

Lemma star_match_run {R} p r t (k : jsstring -> option R) :
  forallb p r = true -> stops p t -> is_Some (k t) ->
  star_match p (r ++ t) k = k t.
Proof.
  intros Hr Ht [x Hk]. induction r as [|c r IH]; cbn [app].
  - by apply star_match_stop.
  - cbn [forallb] in Hr. apply andb_true_iff in Hr as [Hc Hr].
    cbn [star_match]. rewrite Hc, (IH Hr), Hk. done.
Qed.

Lemma captured_text (l t : jsstring) :
  take (length (l ++ t) - length t) (l ++ t) = l.
Proof.
  rewrite length_app. replace (length l + length t - length t) with (length l)
    by lia. by rewrite take_app_length.
Qed.

Lemma rmatch_alt {R} r1 r2 s c (k : jsstring -> caps -> option R) :
  rmatch (Alt r1 r2) s c k
  = match rmatch r1 s c k with
    | Some x => Some x
    | None => rmatch r2 s c k
    end.
Proof. reflexivity. Qed.

Lemma rmatch_lit {R} l s c (k : jsstring -> caps -> option R) :
  rmatch (Lit l) s c k
  = match lit_match l s with
    | Some s' => k s' c
    | None => None
    end.
Proof. reflexivity. Qed.

(** One alternative of the pattern, [\s*(body)\s*], on a lexeme followed
    by one space. *)
Lemma alternative_matches {R} i body lex rest c
    (k : jsstring -> caps -> option R) :
  consumes body lex (space :: rest) ->
  stops is_space (lex ++ space :: rest) -> stops is_space rest ->
  is_Some (k rest (set_cap i lex c)) ->
  rmatch (Seq (Star is_space) (Seq (Grp i body) (Star is_space)))
    (lex ++ space :: rest) c k
  = k rest (set_cap i lex c).
Proof.
  intros Hbody Hlex Hrest Hk. rewrite rmatch_star_seq.
  rewrite star_match_stop by done. cbn [rmatch].
  assert (Hspace : forall c',
            is_Some (k rest c') ->
            star_match is_space (space :: rest) (fun s' => k s' c')
            = k rest c').
  { intros c' [x Hx]. cbn [star_match].
    change (is_space space) with true. cbv iota.
    rewrite star_match_stop by done. by rewrite Hx. }
  rewrite Hbody; rewrite captured_text, Hspace; done.
Qed.

Lemma alternative_fails {R} i body s c (k : jsstring -> caps -> option R) :
  rejects body s -> stops is_space s ->
  rmatch (Seq (Star is_space) (Seq (Grp i body) (Star is_space))) s c k
  = None.
Proof.
  intros Hbody Hs. rewrite rmatch_star_seq.
  rewrite star_match_stop by done. cbn [rmatch]. apply Hbody.
Qed.

(** Classes of code units, decided by arithmetic. *)
Ltac char_class :=
  unfold is_space, is_ident_start, is_ident_part, is_digit, not_quote,
    in_range, space, quote in *;
  rewrite ?negb_true_iff, ?negb_false_iff in *;
  rewrite ?orb_true_iff, ?andb_true_iff, ?orb_false_iff, ?andb_false_iff,
    ?N.leb_le, ?N.leb_gt, ?N.eqb_eq, ?N.eqb_neq in *;
  lia.

Lemma lit_match_other d l c0 s :
  d <> c0 -> lit_match (d :: l) (c0 :: s) = None.
Proof. intros H. cbn [lit_match]. by rewrite (proj2 (N.eqb_neq d c0)). Qed.

Lemma literals_reject lits c0 s :
  Forall (fun l => exists d l', l = d :: l' /\ d <> c0) lits ->
  rejects (alts (map Lit lits)) (c0 :: s).
Proof.
  intros Hl R c k. induction Hl as [|l lits (d & l' & -> & Hd) Hall IH].
  - done.
  - destruct lits as [|l2 lits].
    + cbn [map alts]. by rewrite rmatch_lit, lit_match_other.
    + change (alts (map Lit ((d :: l') :: l2 :: lits)))
        with (Alt (Lit (d :: l')) (alts (map Lit (l2 :: lits)))).
      rewrite rmatch_alt, rmatch_lit, lit_match_other by done.
      apply IH.
Qed.

(** No punctuation literal starts with a letter, an underscore, a digit
    or a double quote. *)
Lemma punct_rejects c0 s :
  (is_ident_start c0 || is_digit c0 || N.eqb c0 quote)%bool = true ->
  rejects (alts (map (fun s => Lit (str s)) punct_lits)) (c0 :: s).
Proof.
  intros Hc.
  change (map (fun s => Lit (str s)) punct_lits)
    with (map Lit (map str punct_lits)).
  apply literals_reject.
  repeat (constructor;
          [eexists _, _; split; [reflexivity|]; intros <-; discriminate Hc|]).
  constructor.
Qed.

Lemma ident_rejects c0 s :
  is_ident_start c0 = false ->
  rejects (Seq (Cls is_ident_start) (Star is_ident_part)) (c0 :: s).
Proof. intros H R c k. cbn [rmatch]. by rewrite H. Qed.

Lemma string_rejects c0 s :
  c0 <> quote ->
  rejects (Seq (Lit [quote]) (Seq (Star not_quote) (Lit [quote]))) (c0 :: s).
Proof.
  intros H R c k. cbn [rmatch]. by rewrite lit_match_other.
Qed.

Lemma punct_consumes v rest :
  existsb (String.eqb v) punct_lits = true ->
  consumes (alts (map (fun s => Lit (str s)) punct_lits)) (str v)
    (space :: rest)
  /\ stops is_space (str v ++ space :: rest)
  /\ str v <> [].
Proof.
  intros Hv. apply existsb_exists in Hv as (u & Hin & Heq).
  apply String.eqb_eq in Heq. subst u. simpl in Hin.
  repeat (destruct Hin as [<-|Hin];
          [split; [|split; [vm_compute; reflexivity|vm_compute; discriminate]];
           intros R c k [x Hk]; unfold space in *; vm_compute; rewrite ?Hk;
           reflexivity|]).
  done.
Qed.

Lemma ident_consumes c0 r rest :
  is_ident_start c0 = true -> forallb is_ident_part r = true ->
  consumes (Seq (Cls is_ident_start) (Star is_ident_part)) (c0 :: r)
    (space :: rest).
Proof.
  intros Hc Hr R c k Hk. cbn [rmatch app]. rewrite Hc.
  by rewrite star_match_run.
Qed.

Lemma string_consumes v rest :
  forallb not_quote v = true ->
  consumes (Seq (Lit [quote]) (Seq (Star not_quote) (Lit [quote])))
    ([quote] ++ v ++ [quote]) (space :: rest).
Proof.
  intros Hv R c k Hk. cbn [rmatch app lit_match].
  change (N.eqb quote quote) with true. cbv iota.
  rewrite <- app_assoc. cbn [app].
  rewrite star_match_run; [|done|done|].
  - cbn [lit_match]. by change (N.eqb quote quote) with true.
  - cbn [lit_match]. by change (N.eqb quote quote) with true.
Qed.

Lemma digits_cons s :
  digits s = true ->
  exists d r, s = d :: r /\ is_digit d = true /\ forallb is_digit r = true.
Proof.
  destruct s as [|d r]; [done|]. cbn [digits forallb].
  intros [? ?]%andb_true_iff. by exists d, r.
Qed.

Lemma rmatch_opt {R} r s c (k : jsstring -> caps -> option R) :
  rmatch (Opt r) s c k
  = match rmatch r s c k with
    | Some x => Some x
    | None => k s c
    end.
Proof. reflexivity. Qed.

Lemma fraction_consumes e0 d' t :
  is_digit e0 = true -> forallb is_digit d' = true -> stops is_digit t ->
  consumes (Seq (Lit (str ".")) (Seq (Cls is_digit) (Star is_digit)))
    (str "." ++ e0 :: d') t.
Proof.
  intros He0 Hd' Ht R c k Hk. change (str ".") with [46%N].
  cbn [rmatch app lit_match]. change (N.eqb 46 46) with true. cbv iota.
  rewrite He0. by rewrite star_match_run.
Qed.

Lemma number_consumes i f rest :
  digits i = true ->
  match f with
  | Some d => digits d = true
  | None => True
  end ->
  consumes
    (Seq (Cls is_digit)
       (Seq (Star is_digit)
          (Opt (Seq (Lit (str "."))
                  (Seq (Cls is_digit) (Star is_digit))))))
    (lexeme (WNumber i f)) (space :: rest).
Proof.
  intros Hi Hf R c k Hk.
  apply digits_cons in Hi as (d0 & i' & -> & Hd0 & Hi').
  cbn [lexeme]. rewrite <- !app_assoc. cbn [app].
  set (fp := match f with Some d => str "." ++ d | None => [] end).
  set (frac := Seq (Lit (str ".")) (Seq (Cls is_digit) (Star is_digit))).
  change (rmatch (Seq (Cls is_digit) (Seq (Star is_digit) (Opt frac)))
            (d0 :: i' ++ fp ++ space :: rest) c k)
    with (if is_digit d0
          then star_match is_digit (i' ++ fp ++ space :: rest)
                 (fun s' => rmatch (Opt frac) s' c k)
          else None).
  rewrite Hd0.
  assert (Hopt : rmatch (Opt frac) (fp ++ space :: rest) c k
                 = k (space :: rest) c).
  { rewrite rmatch_opt. unfold fp. destruct f as [d|].
    - apply digits_cons in Hf as (e0 & d' & -> & He0 & Hd').
      unfold frac. rewrite fraction_consumes by done.
      by destruct Hk as [x ->].
    - reflexivity. }
  assert (Hstop : stops is_digit (fp ++ space :: rest)).
  { unfold fp. by destruct f. }
  rewrite star_match_run; [done|done|done|].
  by rewrite Hopt.
Qed.

(** The pattern on a written token followed by one space: the token's
    alternative matches, takes the lexeme and the space, and captures the
    lexeme in the token's group. *)
Lemma rmatch_re_written {R} w rest (k : jsstring -> caps -> option R) :
  written_ok w = true -> stops is_space rest ->
  (forall c, is_Some (k rest c)) ->
  rmatch re (lexeme w ++ space :: rest) no_caps k
  = k rest (set_cap (group_of w) (lexeme w) no_caps).
Proof.
  intros Hw Hrest Hk. unfold re.
  assert (Hsome : forall c (y : option R),
            match k rest c with Some x => Some x | None => y end = k rest c).
  { intros c y. by destruct (Hk c) as [x ->]. }
  destruct w as [v|v|v|i f]; cbn [written_ok group_of] in *.
  - destruct (punct_consumes v rest Hw) as (Hc & Hs & _).
    rewrite rmatch_alt. unfold re_punct.
    rewrite alternative_matches by done. apply Hsome.
  - destruct v as [|c0 r]; [done|]. apply andb_true_iff in Hw as [Hc0 Hr].
    cbn [lexeme].
    rewrite rmatch_alt. unfold re_punct.
    rewrite alternative_fails;
      [|apply (punct_rejects c0 (r ++ space :: rest)); by rewrite Hc0
       |cbn; char_class].
    rewrite rmatch_alt. unfold re_ident.
    rewrite (alternative_matches 2 _ (c0 :: r));
      [apply Hsome|by apply ident_consumes|cbn; char_class|done|done].
  - cbn [lexeme].
    rewrite rmatch_alt. unfold re_punct.
    rewrite alternative_fails;
      [|by apply (punct_rejects quote (v ++ [quote] ++ space :: rest))|done].
    rewrite rmatch_alt. unfold re_ident.
    rewrite alternative_fails;
      [|by apply (ident_rejects quote (v ++ [quote] ++ space :: rest))|done].
    rewrite rmatch_alt. unfold re_string.
    rewrite (alternative_matches 3 _ ([quote] ++ v ++ [quote]));
      [apply Hsome|by apply string_consumes|done|done|done].
  - apply andb_true_iff in Hw as [Hi Hf].
    assert (Hf' : match f with Some d => digits d = true | None => True end).
    { by destruct f. }
    destruct (digits_cons i Hi) as (d0 & i' & Ei & Hd0 & Hi').
    assert (Hhead : exists l, lexeme (WNumber i f) ++ space :: rest
                              = d0 :: l).
    { cbn [lexeme]. rewrite Ei. rewrite <- !app_assoc. by eexists. }
    destruct Hhead as [l Hl].
    rewrite rmatch_alt. unfold re_punct.
    rewrite alternative_fails;
      [|rewrite Hl; apply punct_rejects; by rewrite Hd0, orb_true_r
       |rewrite Hl; cbn; char_class].
    rewrite rmatch_alt. unfold re_ident.
    rewrite alternative_fails;
      [|rewrite Hl; apply ident_rejects; char_class
       |rewrite Hl; cbn; char_class].
    rewrite rmatch_alt. unfold re_string.
    rewrite alternative_fails;
      [|rewrite Hl; apply string_rejects; char_class
       |rewrite Hl; cbn; char_class].
    unfold re_number.
    rewrite (alternative_matches 4 _ (lexeme (WNumber i f)));
      [done|by apply number_consumes|rewrite Hl; cbn; char_class|done|done].
Qed.

Lemma lexeme_head w :
  written_ok w = true ->
  exists c l, lexeme w = c :: l /\ is_space c = false.
Proof.
  intros Hw. destruct w as [v|v|v|i f]; cbn [written_ok lexeme] in *.
  - destruct (punct_consumes v [] Hw) as (_ & Hs & Hne).
    destruct (str v) as [|c l]; [done|]. by exists c, l.
  - destruct v as [|c r]; [done|]. apply andb_true_iff in Hw as [Hc _].
    exists c, r. split; [done|]. char_class.
  - by eexists _, _.
  - apply andb_true_iff in Hw as [Hi _].
    apply digits_cons in Hi as (d & r & -> & Hd & _).
    eexists _, _. split; [reflexivity|]. char_class.
Qed.

Lemma text_stops ws :
  forallb written_ok ws = true -> stops is_space (text ws).
Proof.
  destruct ws as [|w ws]; [done|]. cbn [forallb]. intros [Hw _]%andb_true_iff.
  destruct (lexeme_head w Hw) as (c & l & Hl & Hc).
  cbn [text flat_map]. by rewrite Hl.
Qed.

(** One turn of the loop of [tokenize] on a written token. *)
Lemma tokenize_step_written pre w rest :
  written_ok w = true -> stops is_space rest ->
  tokenize_step (pre ++ lexeme w ++ space :: rest) (length pre)
  = StepMatch (length pre + S (length (lexeme w))) (Some (token_of w)).
Proof.
  intros Hw Hrest. unfold tokenize_step, exec. rewrite drop_app_length.
  rewrite rmatch_re_written by (done || by eexists).
  rewrite !length_app. cbn [length].
  replace (length pre + (length (lexeme w) + S (length rest)) - length rest)
    with (length pre + S (length (lexeme w))) by lia.
  f_equal.
  destruct (lexeme_head w Hw) as (c & l & Hl & _).
  destruct w as [v|v|v|i f]; cbn [group_of token_of];
    unfold set_cap, no_caps; cbn [Nat.eqb cap_truthy cap_text default].
  - rewrite Hl. cbn [cap_truthy]. by rewrite <- Hl.
  - rewrite Hl. cbn [cap_truthy]. by rewrite <- Hl.
  - cbn [lexeme app cap_truthy]. f_equal. f_equal.
    apply (slice_1_m1_string v).
  - rewrite Hl. cbn [cap_truthy]. by rewrite <- Hl.
Qed.

Lemma tokenize_loop_written ws : forall fuel pre acc,
  forallb written_ok ws = true -> length ws <= fuel ->
  tokenize_loop fuel (pre ++ text ws) (length pre) acc
  = LexOk (acc ++ map token_of ws ++ [TEof]).
Proof.
  induction ws as [|w ws IH]; intros fuel pre acc Hws Hf.
  - cbn [text flat_map map app]. rewrite app_nil_r.
    destruct fuel; cbn [tokenize_loop]; by rewrite Nat.ltb_irrefl.
  - cbn [forallb] in Hws. apply andb_true_iff in Hws as [Hw Hws].
    destruct fuel as [|fuel]; [simpl in Hf; lia|]. cbn [length] in Hf.
    cbn [text flat_map]. fold (text ws). rewrite <- app_assoc. cbn [app].
    cbn [tokenize_loop].
    assert (Hlt : (length pre
                   <? length (pre ++ lexeme w ++ space :: text ws)) = true).
    { apply Nat.ltb_lt. rewrite !length_app. cbn [length]. lia. }
    rewrite Hlt. cbn [negb].
    rewrite tokenize_step_written by (done || by apply text_stops).
    replace (pre ++ lexeme w ++ space :: text ws)
      with ((pre ++ lexeme w ++ [space]) ++ text ws)
      by (by rewrite <- !app_assoc).
    replace (length pre + S (length (lexeme w)))
      with (length (pre ++ lexeme w ++ [space]))
      by (rewrite !length_app; cbn [length]; lia).
    rewrite IH by (done || lia). cbn [push_opt map]. unfold push.
    by rewrite <- app_assoc.
Qed.

(** The text of written tokens is tokenized to these tokens. *)
Lemma tokenize_text ws :
  forallb written_ok ws = true ->
  tokenize (text ws) = LexOk (map token_of ws ++ [TEof]).
Proof.
  intros Hws. unfold tokenize.
  apply (tokenize_loop_written ws (length (text ws)) [] []); [done|].
  clear Hws. induction ws as [|w ws IH]; [done|].
  cbn [text flat_map length]. fold (text ws).
  rewrite !length_app. cbn [length]. lia.
Qed.

(** X17. Every sequence of written tokens is read back: the text of
    punctuation literals of the pattern, identifiers, strings without a
    double quote inside and numbers (digits, then maybe a dot and
    digits), each followed by one space, is tokenized to exactly these
    tokens and the end-of-input token. *)
Theorem tokenize_written (ws : list written) :
  forallb written_ok ws = true ->
  tokenize (text ws) = LexOk (map token_of ws ++ [TEof]).
Proof. apply tokenize_text. Qed.

Lemma tokenize_written_witness :
  tokenize (text [WIdent (str "say"); WPunct "("; WString (str "hi");
                  WPunct ")"; WIdent (str "for"); WPunct "(";
                  WNumber (str "2") (Some (str "5")); WPunct ")";
                  WPunct ";"])
  = LexOk (map token_of
             [WIdent (str "say"); WPunct "("; WString (str "hi");
              WPunct ")"; WIdent (str "for"); WPunct "(";
              WNumber (str "2") (Some (str "5")); WPunct ")"; WPunct ";"]
             ++ [TEof]).
Proof. apply tokenize_written. reflexivity. Defined.

(* ===================================================================== *)
(** ** More on the parser: what it consumes and how the forms parse *)
(* ===================================================================== *)

Lemma parseProgram_loop_stops_at_eof (ps : PM stmt) fuel :
  forall stmts p ast p',
    parseProgram_loop ps fuel stmts p = Ok ast p' ->
    exists t, tokens p' !! pos p' = Some t /\ tok_type t = eof.
Proof.
  induction fuel as [|fuel IH]; intros stmts p ast p'; [done|].
  cbn [parseProgram_loop]. unfold bind at 1. unfold peek_d, bind at 1, peek, deref.
  destruct (tokens p !! pos p) as [t|] eqn:Et; [|done].
  destruct (bool_decide (tok_type t = eof)) eqn:Ed; cbn [negb].
  - intros [= <- <-]. exists t. split; [done|]. by apply bool_decide_eq_true in Ed.
  - unfold bind at 1. destruct (ps p) as [s p1| |]; [|done..]. apply IH.
Qed.

(** X5. When the parser returns a Program, its cursor stands on an
    end-of-input token of the tokens it was given.  On a token sequence as
    the lexer makes it (the end-of-input token last and only there), that
    is the last token: every token before it was consumed. *)
Theorem parse_stops_at_eof (toks : list token) (ast : Program)
    (p' : Parser) :
  parseProgram (S (length toks)) {| tokens := toks; pos := 0 |} = Ok ast p' ->
  tokens p' = toks
  /\ toks !! pos p' = Some TEof
  /\ forall ts, toks = ts ++ [TEof] -> Forall (fun t => t <> TEof) ts ->
       pos p' = length ts.
Proof.
  intros H.
  assert (Ht : tokens p' = toks).
  { pose proof (parseProgram_post toks) as Hp. unfold post, wp in Hp.
    rewrite H in Hp. by destruct Hp. }
  destruct (parseProgram_loop_stops_at_eof _ _ _ _ _ _ H) as (t & Hl & Hty).
  rewrite Ht in Hl. assert (t = TEof) as -> by by destruct t.
  split; [done|]. split; [done|].
  intros ts -> Hne.
  destruct (decide (pos p' < length ts)) as [Hlt|Hge].
  - rewrite lookup_app_l in Hl by done.
    eapply Forall_lookup in Hne; [|exact Hl]. done.
  - apply lookup_lt_Some in Hl. rewrite length_app in Hl. simpl in Hl. lia.
Qed.

Lemma parse_stops_at_eof_witness :
  exists p',
    tokens p' = [TIdent (str "show"); TPunct (str ";"); TEof]
    /\ [TIdent (str "show"); TPunct (str ";"); TEof] !! pos p' = Some TEof
    /\ forall ts,
         [TIdent (str "show"); TPunct (str ";"); TEof] = ts ++ [TEof] ->
         Forall (fun t => t <> TEof) ts -> pos p' = length ts.
Proof.
  eexists.
  apply (parse_stops_at_eof [TIdent (str "show"); TPunct (str ";"); TEof]
           {| body := [Call (str "show") [] None] |}).
  vm_compute. reflexivity.
Defined.

(** *** Evaluating the parser on a cursor *)

Lemma bind_throw {S A B} (m : M S A) (f : A -> M S B) s e :
  m s = Throw e -> bind m f s = Throw e.
Proof. unfold bind. by intros ->. Qed.

Lemma expect_ok ty v pre t suf :
  is_tok ty v t = true ->
  expect ty (Some v) (cursor_at pre (t :: suf))
  = Ok (Some t) (cursor_at (pre ++ [t]) suf).
Proof.
  intros Ht. unfold expect, bind. rewrite peek_d_cur.
  unfold is_tok in Ht. apply andb_true_iff in Ht as [H1 H2].
  rewrite H1, H2. simpl. apply next_cur.
Qed.

Lemma expect_fail ty v pre t suf :
  is_tok ty v t = false ->
  expect ty (Some v) (cursor_at pre (t :: suf))
  = Throw (Error (ExpectedGot ty (Some v) t)).
Proof.
  intros Ht. unfold expect, bind. rewrite peek_d_cur.
  unfold is_tok in Ht.
  destruct (bool_decide (tok_type t = ty)); simpl in *; [|done].
  by rewrite Ht.
Qed.

(** The tests on the token at the cursor, computed. *)
Ltac ptests :=
  repeat match goal with
         | |- context [is_tok ?ty ?v ?t] =>
             let b := eval vm_compute in (is_tok ty v t) in
             match b with
             | true => change (is_tok ty v t) with true
             | false => change (is_tok ty v t) with false
             end
         end;
  cbv iota.

(** One call of the parser evaluated on the cursor. *)
Ltac pstep :=
  first
    [ erewrite bind_ok by apply peek_is_cur
    | erewrite bind_ok by apply peek_d_cur
    | erewrite bind_ok by apply next_d_cur
    | erewrite bind_ok by apply next_cur
    | erewrite bind_ok by (apply expect_ok; reflexivity)
    | erewrite bind_throw by (apply expect_fail; reflexivity) ];
  cbv beta; ptests.

(** The condition loop reads every token up to the first closing
    parenthesis. *)
Lemma cond_loop_reads cond : forall pre rest acc fuel,
  Forall (fun t => is_tok punct ")" t = false) cond ->
  length cond < fuel ->
  cond_loop fuel acc (cursor_at pre (cond ++ TPunct (str ")") :: rest))
  = Ok (acc ++ map Some cond)
       (cursor_at (pre ++ cond) (TPunct (str ")") :: rest)).
Proof.
  induction cond as [|t cond IH]; intros pre rest acc fuel Hall Hf.
  - destruct fuel as [|fuel]; [simpl in Hf; lia|]. cbn [cond_loop app].
    pstep. unfold ret. by rewrite !app_nil_r.
  - destruct fuel as [|fuel]; [simpl in Hf; lia|].
    inversion Hall as [|? ? Ht Hall']; subst. simpl in Hf.
    cbn [cond_loop app]. erewrite bind_ok by apply peek_is_cur.
    cbv beta. rewrite Ht. pstep. unfold push.
    rewrite IH by (done || lia). rewrite <- !app_assoc. done.
Qed.

Lemma cond_values_eval cond (p : Parser) :
  cond_values (map Some cond) p = Ok (map tok_value cond) p.
Proof.
  induction cond as [|t cond IH]; [done|]. simpl.
  unfold bind at 1, deref. unfold bind at 1. by rewrite IH.
Qed.

(** An empty block. *)
Lemma parseBlock_loop_empty (ps : PM stmt) fuel pre rest :
  parseBlock_loop ps (S fuel) [] (cursor_at pre (TPunct (str "}") :: rest))
  = Ok [] (cursor_at (pre ++ [TPunct (str "}")]) rest).
Proof. cbn [parseBlock_loop]. pstep. pstep. done. Qed.

(** An [if] with any condition tokens and empty blocks, as a statement. *)
Lemma parseStatement_if fuel cond pre rest :
  Forall (fun t => is_tok punct ")" t = false) cond ->
  length cond < S fuel ->
  (forall t l, rest = t :: l -> is_tok ident "else" t = false) ->
  rest <> [] ->
  parseStatement (S (S fuel))
    (cursor_at pre
       (TIdent (str "if") :: TPunct (str "(") :: cond
          ++ TPunct (str ")") :: TPunct (str "{") :: TPunct (str "}") :: rest))
  = Ok (If (map tok_value cond) [] None)
       (cursor_at
          (pre ++ TIdent (str "if") :: TPunct (str "(") :: cond
             ++ [TPunct (str ")"); TPunct (str "{"); TPunct (str "}")])
          rest).
Proof.
  intros Hall Hf Hrest Hne.
  destruct rest as [|u rest]; [done|]. specialize (Hrest u rest eq_refl).
  cbn [parseStatement]. pstep.
  change (bool_decide (tok_type (TIdent (str "if")) = ident)) with true.
  change (is_str (tok_value (TIdent (str "if"))) "on") with false.
  change (is_str (tok_value (TIdent (str "if"))) "repeat") with false.
  change (is_str (tok_value (TIdent (str "if"))) "loop") with false.
  change (is_str (tok_value (TIdent (str "if"))) "if") with true.
  cbv iota. unfold parseIf. pstep. pstep.
  erewrite bind_ok by (apply cond_loop_reads; [done | lia]).
  cbv beta. pstep. pstep.
  erewrite bind_ok by apply parseBlock_loop_empty. cbv beta.
  erewrite bind_ok by apply peek_is_cur. cbv beta. rewrite Hrest.
  unfold bind at 1. unfold ret at 1.
  unfold bind at 1. change ([] ++ map Some cond) with (map Some cond).
  rewrite cond_values_eval. unfold ret.
  rewrite <- !app_assoc. simpl. done.
Qed.

(** The same with an [else] and its empty block. *)
Lemma parseStatement_if_else fuel cond pre rest :
  Forall (fun t => is_tok punct ")" t = false) cond ->
  length cond < S fuel ->
  parseStatement (S (S fuel))
    (cursor_at pre
       (TIdent (str "if") :: TPunct (str "(") :: cond
          ++ TPunct (str ")") :: TPunct (str "{") :: TPunct (str "}")
          :: TIdent (str "else") :: TPunct (str "{") :: TPunct (str "}")
          :: rest))
  = Ok (If (map tok_value cond) [] (Some []))
       (cursor_at
          (pre ++ TIdent (str "if") :: TPunct (str "(") :: cond
             ++ [TPunct (str ")"); TPunct (str "{"); TPunct (str "}");
                 TIdent (str "else"); TPunct (str "{"); TPunct (str "}")])
          rest).
Proof.
  intros Hall Hf.
  cbn [parseStatement]. pstep.
  change (bool_decide (tok_type (TIdent (str "if")) = ident)) with true.
  change (is_str (tok_value (TIdent (str "if"))) "on") with false.
  change (is_str (tok_value (TIdent (str "if"))) "repeat") with false.
  change (is_str (tok_value (TIdent (str "if"))) "loop") with false.
  change (is_str (tok_value (TIdent (str "if"))) "if") with true.
  cbv iota. unfold parseIf. pstep. pstep.
  erewrite bind_ok by (apply cond_loop_reads; [done | lia]).
  cbv beta. pstep. pstep.
  erewrite bind_ok by apply parseBlock_loop_empty. cbv beta.
  pstep. unfold bind at 1. pstep. pstep.
  erewrite bind_ok by apply parseBlock_loop_empty. cbv beta.
  unfold ret at 1.
  unfold bind at 1. change ([] ++ map Some cond) with (map Some cond).
  rewrite cond_values_eval. unfold ret.
  rewrite <- !app_assoc. simpl. done.
Qed.

(** A condition closed before its end: what follows the first closing
    parenthesis has to be the opening brace. *)
Lemma parseStatement_if_early_close fuel cond u pre rest :
  Forall (fun t => is_tok punct ")" t = false) cond ->
  length cond < fuel ->
  is_tok punct "{" u = false ->
  parseStatement (S fuel)
    (cursor_at pre
       (TIdent (str "if") :: TPunct (str "(") :: cond
          ++ TPunct (str ")") :: u :: rest))
  = Throw (Error (ExpectedGot punct (Some "{") u)).
Proof.
  intros Hall Hf Hu.
  cbn [parseStatement]. pstep.
  change (bool_decide (tok_type (TIdent (str "if")) = ident)) with true.
  change (is_str (tok_value (TIdent (str "if"))) "on") with false.
  change (is_str (tok_value (TIdent (str "if"))) "repeat") with false.
  change (is_str (tok_value (TIdent (str "if"))) "loop") with false.
  change (is_str (tok_value (TIdent (str "if"))) "if") with true.
  cbv iota. unfold parseIf. pstep. pstep.
  erewrite bind_ok by (apply cond_loop_reads; [done | lia]).
  cbv beta. pstep.
  erewrite bind_throw by (by apply expect_fail). done.
Qed.

(** A program of one statement, and one that fails in its first
    statement. *)
Lemma parse_one t suf s pre' :
  tok_type t <> eof ->
  parseStatement (S (S (length suf))) (cursor_at [] (t :: suf))
  = Ok s (cursor_at pre' [TEof]) ->
  parse (t :: suf) = ParseOk {| body := [s] |}.
Proof.
  intros Ht Hs. unfold parse, parseProgram. cbn [length].
  change {| tokens := ?l; pos := 0 |} with (cursor_at [] l).
  by erewrite parseProgram_loop_one.
Qed.

Lemma parse_one_throw t suf e :
  tok_type t <> eof ->
  parseStatement (S (S (length suf))) (cursor_at [] (t :: suf)) = Throw e ->
  parse (t :: suf) = ParseThrow e.
Proof.
  intros Ht Hs. unfold parse, parseProgram. cbn [length].
  change {| tokens := ?l; pos := 0 |} with (cursor_at [] l).
  cbn [parseProgram_loop]. erewrite bind_ok by apply peek_d_cur. cbv beta.
  rewrite bool_decide_eq_false_2 by done. cbn [negb].
  by erewrite bind_throw.
Qed.

(** X6. The condition of an [if] is the values of all tokens between the
    opening parenthesis and the first closing parenthesis, whatever they
    are; no structure is read into them.  So a condition with a
    parenthesis of its own is cut at that parenthesis, and the parser then
    fails on what follows it unless that is the opening brace. *)
Theorem if_condition_up_to_first_paren :
  (forall cond,
     Forall (fun t => is_tok punct ")" t = false) cond ->
     parse ([TIdent (str "if"); TPunct (str "(")] ++ cond
              ++ [TPunct (str ")"); TPunct (str "{"); TPunct (str "}"); TEof])
     = ParseOk {| body := [If (map tok_value cond) [] None] |})
  /\ (forall cond,
        Forall (fun t => is_tok punct ")" t = false) cond ->
        parse ([TIdent (str "if"); TPunct (str "(")] ++ cond
                 ++ [TPunct (str ")"); TPunct (str "{"); TPunct (str "}");
                     TIdent (str "else"); TPunct (str "{"); TPunct (str "}");
                     TEof])
        = ParseOk {| body := [If (map tok_value cond) [] (Some [])] |})
  /\ (forall cond u rest,
        Forall (fun t => is_tok punct ")" t = false) cond ->
        is_tok punct "{" u = false ->
        parse ([TIdent (str "if"); TPunct (str "(")] ++ cond
                 ++ [TPunct (str ")"); u] ++ rest)
        = ParseThrow (Error (ExpectedGot punct (Some "{") u))).
Proof.
  split; [|split].
  - intros cond Hall. cbn [app].
    eapply parse_one; [done|]. rewrite length_cons, length_app. cbn [length].
    replace (length cond + 4) with (S (length cond + 3)) by lia.
    rewrite (parseStatement_if _ cond [] [TEof] Hall); [|lia| |done].
    + cbn [app]. reflexivity.
    + by intros ? ? [= <- <-].
  - intros cond Hall. cbn [app].
    eapply parse_one; [done|]. rewrite length_cons, length_app. cbn [length].
    replace (length cond + 7) with (S (length cond + 6)) by lia.
    rewrite (parseStatement_if_else _ cond [] [TEof] Hall); [|lia].
    cbn [app]. reflexivity.
  - intros cond u rest Hall Hu. cbn [app].
    eapply parse_one_throw; [done|].
    rewrite length_cons, length_app. cbn [length].
    apply parseStatement_if_early_close; [done | lia | done].
Qed.

Lemma if_condition_up_to_first_paren_witness :
  parse ([TIdent (str "if"); TPunct (str "(")]
           ++ [TPunct (str "("); TIdent (str "a")]
           ++ [TPunct (str ")"); TPunct (str ">")]
           ++ [TNumber (num 0); TPunct (str ")"); TPunct (str "{");
               TPunct (str "}"); TEof])
  = ParseThrow (Error (ExpectedGot punct (Some "{") (TPunct (str ">")))).
Proof.
  apply (proj2 (proj2 if_condition_up_to_first_paren)).
  - repeat constructor.
  - reflexivity.
Defined.

(** *** The forms of await and of events *)

(** The dispatch of [parseStatement] on an identifier that is one of its
    keywords. *)
Ltac pkeyword kw :=
  change (bool_decide (tok_type (TIdent (str kw)) = ident)) with true;
  repeat match goal with
         | |- context [is_str (tok_value (TIdent (str kw))) ?v] =>
             let b := eval vm_compute in
                        (is_str (tok_value (TIdent (str kw))) v) in
             match b with
             | true => change (is_str (tok_value (TIdent (str kw))) v) with true
             | false =>
                 change (is_str (tok_value (TIdent (str kw))) v) with false
             end
         end;
  cbv iota.

(** X7. [await until ( ... ) ;] gives an AwaitUntil with the values of the
    tokens up to the first closing parenthesis as its condition, and
    [await] followed by any token that is not the identifier [until]
    fails with 'Unknown await form'. *)
Theorem await_forms :
  (forall cond,
     Forall (fun t => is_tok punct ")" t = false) cond ->
     parse ([TIdent (str "await"); TIdent (str "until"); TPunct (str "(")]
              ++ cond ++ [TPunct (str ")"); TPunct (str ";"); TEof])
     = ParseOk {| body := [AwaitUntil (map tok_value cond)] |})
  /\ (forall u rest,
        is_tok ident "until" u = false ->
        parse ([TIdent (str "await"); u] ++ rest)
        = ParseThrow (Error UnknownAwaitForm)).
Proof.
  split.
  - intros cond Hall. cbn [app].
    eapply parse_one; [done|].
    rewrite !length_cons, length_app. cbn [length].
    cbn [parseStatement]. pstep. pkeyword "await".
    unfold parseAwait. pstep. pstep. pstep. pstep.
    erewrite bind_ok by (apply cond_loop_reads; [done | lia]).
    cbv beta. pstep. pstep.
    unfold bind at 1. change ([] ++ map Some cond) with (map Some cond).
    rewrite cond_values_eval. unfold ret.
    rewrite <- !app_assoc. reflexivity.
  - intros u rest Hu. cbn [app].
    eapply parse_one_throw; [done|]. cbn [length].
    cbn [parseStatement]. pstep. pkeyword "await".
    unfold parseAwait. pstep.
    erewrite bind_ok by apply peek_is_cur. cbv beta. by rewrite Hu.
Qed.

Lemma await_forms_witness :
  parse ([TIdent (str "await"); TIdent (str "until"); TPunct (str "(")]
           ++ [TIdent (str "x"); TPunct (str "=="); TNumber (num 1)]
           ++ [TPunct (str ")"); TPunct (str ";"); TEof])
  = ParseOk {| body := [AwaitUntil [VStr (str "x"); VStr (str "==");
                                    VNum (num 1)]] |}.
Proof. apply (proj1 await_forms). repeat constructor. Defined.

(** X8. The event forms.  [on start;] and [on click;] give their Event;
    [on key(k);] and [on backdrop(n);] take one identifier or string and
    keep its text as the key or the name; any other token after [on] fails
    with 'Unknown event' showing that token, and a key or backdrop
    argument that is neither identifier nor string fails with 'Expected
    key' or 'Expected string'. *)
Theorem event_forms :
  parse [TIdent (str "on"); TIdent (str "start"); TPunct (str ";"); TEof]
  = ParseOk {| body := [Event start None None] |}
  /\ parse [TIdent (str "on"); TIdent (str "click"); TPunct (str ";"); TEof]
     = ParseOk {| body := [Event click None None] |}
  /\ (forall a k,
        a = TIdent k \/ a = TString k ->
        parse [TIdent (str "on"); TIdent (str "key"); TPunct (str "("); a;
               TPunct (str ")"); TPunct (str ";"); TEof]
        = ParseOk {| body := [Event key (Some k) None] |}
        /\ parse [TIdent (str "on"); TIdent (str "backdrop");
                  TPunct (str "("); a; TPunct (str ")"); TPunct (str ";");
                  TEof]
           = ParseOk {| body := [Event backdrop None (Some k)] |})
  /\ (forall u rest,
        is_tok ident "start" u = false -> is_tok ident "key" u = false ->
        is_tok ident "click" u = false -> is_tok ident "backdrop" u = false ->
        parse ([TIdent (str "on"); u] ++ rest)
        = ParseThrow (Error (UnknownEvent u)))
  /\ (forall a rest,
        is_arg_token a = false \/ (exists n, a = TNumber n) ->
        parse ([TIdent (str "on"); TIdent (str "key"); TPunct (str "("); a]
                 ++ rest)
        = ParseThrow (Error ExpectedKey)
        /\ parse ([TIdent (str "on"); TIdent (str "backdrop");
                   TPunct (str "("); a] ++ rest)
           = ParseThrow (Error ExpectedString)).
Proof.
  split; [by vm_compute|]. split; [by vm_compute|].
  split; [|split].
  - intros a k Ha. split.
    + eapply parse_one; [done|]. cbn [length parseStatement].
      pstep. pkeyword "on". unfold parseEvent. pstep. pstep. pstep. pstep.
      destruct Ha as [-> | ->]; pstep; pstep; reflexivity.
    + eapply parse_one; [done|]. cbn [length parseStatement].
      pstep. pkeyword "on". unfold parseEvent. pstep. pstep. pstep. pstep.
      destruct Ha as [-> | ->]; pstep; pstep; reflexivity.
  - intros u rest H1 H2 H3 H4. cbn [app].
    eapply parse_one_throw; [done|]. cbn [length parseStatement].
    pstep. pkeyword "on". unfold parseEvent. pstep.
    erewrite bind_ok by apply next_d_cur. cbv beta.
    by rewrite H1, H2, H3, H4.
  - intros a rest Ha. split; cbn [app].
    + eapply parse_one_throw; [done|]. cbn [length parseStatement].
      pstep. pkeyword "on". unfold parseEvent. pstep. pstep. pstep. pstep.
      destruct Ha as [Ha | [n ->]]; [by destruct a | done].
    + eapply parse_one_throw; [done|]. cbn [length parseStatement].
      pstep. pkeyword "on". unfold parseEvent. pstep. pstep. pstep. pstep.
      destruct Ha as [Ha | [n ->]]; [by destruct a | done].
Qed.

Lemma event_forms_witness :
  parse [TIdent (str "on"); TIdent (str "key"); TPunct (str "(");
         TIdent (str "space"); TPunct (str ")"); TPunct (str ";"); TEof]
  = ParseOk {| body := [Event key (Some (str "space")) None] |}.
Proof.
  apply (proj1 (proj2 (proj2 event_forms)) (TIdent (str "space")) (str "space")).
  by left.
Defined.

(** *** The forms of a call *)

(** [parseStatement] on a name that is no keyword goes to [parseSimple]. *)
Lemma parseStatement_simple fuel name pre suf :
  Forall (fun kw => name <> str kw) statement_keywords ->
  parseStatement (S fuel) (cursor_at pre (TIdent name :: suf))
  = parseSimple fuel (cursor_at pre (TIdent name :: suf)).
Proof.
  intros Hkw. cbn [parseStatement]. erewrite bind_ok by apply peek_d_cur.
  cbv beta.
  change (bool_decide (tok_type (TIdent name) = ident)) with true.
  cbv iota. cbn [tok_value]. unfold statement_keywords in Hkw.
  repeat match goal with
         | H : Forall _ (_ :: _) |- _ => inversion H; clear H; subst
         end.
  rewrite (is_str_keyword name "on"), (is_str_keyword name "repeat"),
    (is_str_keyword name "loop"), (is_str_keyword name "if"),
    (is_str_keyword name "await") by done.
  by destruct (existsb _ _).
Qed.

(** X9. Forms of a call statement beside the argument list: a bare name,
    and a [for(n)] suffix after the name or after the arguments, which is
    kept as the call's [for].  What follows the name (or the arguments)
    must be [for] or the semicolon: anything else fails with 'Expected
    semicolon after statement' and the name; a [for] count that is no
    number fails with 'Expected number in for'. *)
Theorem call_forms (name : jsstring) :
  Forall (fun kw => name <> str kw) statement_keywords ->
  parse [TIdent name; TPunct (str ";"); TEof]
  = ParseOk {| body := [Call name [] None] |}
  /\ (forall n,
        parse [TIdent name; TIdent (str "for"); TPunct (str "(");
               TNumber n; TPunct (str ")"); TPunct (str ";"); TEof]
        = ParseOk {| body := [Call name [] (Some n)] |})
  /\ (forall ats n,
        Forall (fun x : token * bool => is_arg_token x.1 = true) ats ->
        parse ([TIdent name; TPunct (str "(")] ++ render_args ats
                 ++ [TPunct (str ")"); TIdent (str "for"); TPunct (str "(");
                     TNumber n; TPunct (str ")"); TPunct (str ";"); TEof])
        = ParseOk {| body := [Call name
                                (map (fun x : token * bool => arg_value x.1)
                                   ats)
                                (Some n)] |})
  /\ (forall u rest,
        is_tok punct "(" u = false -> is_tok ident "for" u = false ->
        is_tok punct ";" u = false ->
        parse ([TIdent name; u] ++ rest)
        = ParseThrow (Error (ExpectedSemicolonAfterStatement name)))
  /\ (forall u rest,
        (forall n, u <> TNumber n) ->
        parse ([TIdent name; TIdent (str "for"); TPunct (str "("); u] ++ rest)
        = ParseThrow (Error ExpectedNumberInFor)).
Proof.
  intros Hkw. split; [|split; [|split; [|split]]].
  - eapply parse_one; [done|]. rewrite parseStatement_simple by done.
    unfold parseSimple. pstep. cbv zeta. pstep.
    unfold bind at 1. unfold ret at 1. pstep.
    unfold bind at 1. unfold ret at 1. pstep. pstep. reflexivity.
  - intros n. eapply parse_one; [done|].
    rewrite parseStatement_simple by done.
    unfold parseSimple. pstep. cbv zeta. pstep.
    unfold bind at 1. unfold ret at 1. pstep.
    unfold bind at 1. pstep. pstep. pstep. pstep. unfold ret at 1.
    pstep. pstep. reflexivity.
  - intros ats n Hall. cbn [app]. eapply parse_one; [done|].
    rewrite parseStatement_simple by done.
    rewrite length_cons, length_app. cbn [length].
    unfold parseSimple. pstep. cbv zeta. pstep.
    unfold bind at 1. pstep.
    erewrite bind_ok.
    2:{ apply args_loop_render; [done|].
        assert (length ats <= length (render_args ats)); [|lia].
        clear. induction ats as [|[t []] ats IH]; simpl; lia. }
    cbv beta. pstep. unfold ret at 1. pstep.
    unfold bind at 1. pstep. pstep. pstep. pstep. unfold ret at 1.
    pstep. pstep. unfold ret. cbn [app]. rewrite <- !app_assoc. reflexivity.
  - intros u rest H1 H2 H3. cbn [app]. eapply parse_one_throw; [done|].
    rewrite parseStatement_simple by done.
    unfold parseSimple. pstep. cbv zeta.
    erewrite bind_ok by apply peek_is_cur. cbv beta. rewrite H1.
    unfold bind at 1. unfold ret at 1.
    erewrite bind_ok by apply peek_is_cur. cbv beta. rewrite H2.
    unfold bind at 1. unfold ret at 1.
    erewrite bind_ok by apply peek_is_cur. cbv beta. rewrite H3. done.
  - intros u rest Hu. cbn [app]. eapply parse_one_throw; [done|].
    rewrite parseStatement_simple by done.
    unfold parseSimple. pstep. cbv zeta. pstep.
    unfold bind at 1. unfold ret at 1. pstep.
    unfold bind at 1. pstep. pstep.
    erewrite bind_ok by apply next_d_cur. cbv beta.
    destruct u; try done. by destruct (Hu value).
Qed.

Lemma call_forms_witness :
  parse ([TIdent (str "say"); TPunct (str "(")]
           ++ render_args [(TString (str "hi"), false)]
           ++ [TPunct (str ")"); TIdent (str "for"); TPunct (str "(");
               TNumber (num 2); TPunct (str ")"); TPunct (str ";"); TEof])
  = ParseOk {| body := [Call (str "say") [LStr (str "hi")]
                          (Some (num 2))] |}.
Proof.
  apply (proj1 (proj2 (proj2 (call_forms (str "say")
                                ltac:(repeat constructor; discriminate))))
           [(TString (str "hi"), false)] (num 2)).
  repeat constructor.
Defined.

(** The argument loop reads argument tokens, with or without a comma after
    each, as long as the next token is no comma. *)
Lemma args_loop_prefix ats : forall pre u rest acc fuel,
  Forall (fun x : token * bool => is_arg_token x.1 = true) ats ->
  is_tok punct "," u = false ->
  args_loop (length ats + fuel) acc
    (cursor_at pre (render_args ats ++ u :: rest))
  = args_loop fuel
      (acc ++ map (fun x : token * bool => arg_value x.1) ats)
      (cursor_at (pre ++ render_args ats) (u :: rest)).
Proof.
  induction ats as [|[t c] ats IH]; intros pre u rest acc fuel Hall Hu.
  - simpl. by rewrite !app_nil_r.
  - inversion Hall as [|? ? Ht Hall']; subst. simpl in Ht.
    cbn [length Nat.add args_loop].
    replace (render_args ((t, c) :: ats) ++ u :: rest)
      with (t :: (if c then [TPunct (str ",")] else [])
              ++ render_args ats ++ u :: rest)
      by (destruct c; simpl; by rewrite <- ?app_assoc).
    erewrite bind_ok by apply peek_is_cur. cbv beta.
    rewrite (is_arg_token_not_punct _ _ Ht).
    erewrite bind_ok by apply next_d_cur. cbv beta.
    erewrite bind_ok by (by apply arg_of_token_eval). cbv beta.
    assert (Hhead : exists v l, render_args ats ++ u :: rest = v :: l
                                /\ is_tok punct "," v = false).
    { destruct ats as [|[t' c'] ats]; [by eexists _, _|].
      inversion Hall'; subst. exists t'.
      destruct c'; simpl; eexists; (split; [done|]);
        by apply is_arg_token_not_punct. }
    destruct Hhead as (v & l & Hv & Hnc).
    destruct c; cbn [app].
    + erewrite bind_ok by apply peek_is_cur. cbv beta.
      change (is_tok punct "," (TPunct (str ","))) with true. cbv iota.
      erewrite bind_ok by apply next_cur. cbv beta. unfold push.
      rewrite IH by done. cbn [map render_args flat_map snd fst].
      by rewrite <- !app_assoc.
    + rewrite Hv. erewrite bind_ok by apply peek_is_cur. cbv beta.
      rewrite Hnc. unfold bind at 1. unfold ret at 1. rewrite <- Hv.
      unfold push. rewrite IH by done.
      cbn [map render_args flat_map snd fst].
      by rewrite <- !app_assoc.
Qed.

(** The loop stops with an error on a token that is no argument and not
    the closing parenthesis. *)
Lemma args_loop_stuck fuel acc pre u rest :
  is_arg_token u = false -> is_tok punct ")" u = false ->
  args_loop (S fuel) acc (cursor_at pre (u :: rest))
  = Throw (Error (UnexpectedArgToken u)).
Proof.
  intros Ha Hc. cbn [args_loop].
  erewrite bind_ok by apply peek_is_cur. cbv beta. rewrite Hc.
  erewrite bind_ok by apply next_d_cur. cbv beta.
  by destruct u.
Qed.

Lemma render_args_length ats : length ats <= length (render_args ats).
Proof. induction ats as [|[t []] ats IH]; simpl; lia. Qed.

Lemma parseSimple_args_throw fuel name pre toks e :
  args_loop fuel []
    (cursor_at ((pre ++ [TIdent name]) ++ [TPunct (str "(")]) toks)
  = Throw e ->
  parseSimple fuel (cursor_at pre (TIdent name :: TPunct (str "(") :: toks))
  = Throw e.
Proof.
  intros H. unfold parseSimple. pstep. cbv zeta. pstep.
  unfold bind at 1. pstep. unfold bind at 1. by rewrite H.
Qed.

Ltac spend_fuel f n := replace f with (n + (f - n)) by lia.

(** X10. In an argument list, a token that is neither a number, a string,
    an identifier nor the closing parenthesis fails with 'Unexpected arg
    token' showing it, the end of input included.  A comma is only read
    right after an argument: before the first argument, or after an
    argument that already has its comma, it is such an error. *)
Theorem call_argument_not_a_literal (name : jsstring)
    (ats : list (token * bool)) (rest : list token) :
  Forall (fun kw => name <> str kw) statement_keywords ->
  Forall (fun x : token * bool => is_arg_token x.1 = true) ats ->
  (forall u,
     is_arg_token u = false -> is_tok punct ")" u = false ->
     is_tok punct "," u = false ->
     parse ([TIdent name; TPunct (str "(")] ++ render_args ats ++ [u] ++ rest)
     = ParseThrow (Error (UnexpectedArgToken u)))
  /\ (Forall (fun x : token * bool => x.2 = true) ats ->
      parse ([TIdent name; TPunct (str "(")] ++ render_args ats
               ++ [TPunct (str ",")] ++ rest)
      = ParseThrow (Error (UnexpectedArgToken (TPunct (str ","))))).
Proof.
  intros Hkw Hall. split.
  - intros u Ha Hc Hm. cbn [app]. eapply parse_one_throw; [done|].
    rewrite parseStatement_simple by done.
    apply parseSimple_args_throw.
    rewrite length_cons, length_app. cbn [length].
    pose proof (render_args_length ats) as Hlen.
    match goal with |- args_loop ?f _ _ = _ => spend_fuel f (length ats) end.
    rewrite args_loop_prefix by done.
    match goal with
    | |- args_loop ?f _ _ = _ => destruct f as [|k] eqn:E; [lia|]
    end.
    by apply args_loop_stuck.
  - intros Hflags. cbn [app]. eapply parse_one_throw; [done|].
    rewrite parseStatement_simple by done.
    apply parseSimple_args_throw.
    rewrite length_cons, length_app. cbn [length].
    destruct (decide (ats = [])) as [->|Hne].
    { cbn [render_args flat_map app length Nat.add].
      by apply args_loop_stuck. }
    destruct (exists_last Hne) as (ats' & [t c] & ->).
    apply Forall_app in Hall as [Hall' Ht].
    apply Forall_app in Hflags as [_ Hc].
    inversion Ht as [|? ? Ht' _]; subst. inversion Hc as [|? ? Hc' _]; subst.
    simpl in Ht', Hc'. subst c.
    unfold render_args. rewrite flat_map_app. fold (render_args ats').
    cbn [flat_map snd fst app]. rewrite <- app_assoc. cbn [app].
    pose proof (render_args_length ats') as Hlen.
    rewrite length_app. cbn [length].
    match goal with |- args_loop ?f _ _ = _ => spend_fuel f (length ats') end.
    rewrite args_loop_prefix by (done || by apply is_arg_token_not_punct).
    match goal with
    | |- args_loop ?f _ _ = _ => destruct f as [|[|k]] eqn:E; [lia|lia|]
    end.
    cbn [args_loop].
    erewrite bind_ok by apply peek_is_cur. cbv beta.
    rewrite (is_arg_token_not_punct _ _ Ht').
    erewrite bind_ok by apply next_d_cur. cbv beta.
    erewrite bind_ok by (by apply arg_of_token_eval). cbv beta.
    erewrite bind_ok by apply peek_is_cur. cbv beta.
    change (is_tok punct "," (TPunct (str ","))) with true. cbv iota.
    erewrite bind_ok by apply next_cur. cbv beta.
    erewrite bind_ok by apply peek_is_cur. cbv beta.
    change (is_tok punct ")" (TPunct (str ","))) with false. cbv iota.
    erewrite bind_ok by apply next_d_cur. done.
Qed.

Lemma call_argument_not_a_literal_witness :
  parse ([TIdent (str "foo"); TPunct (str "(")]
           ++ render_args [(TNumber (num 1), true)]
           ++ [TPunct (str ",")] ++ [TNumber (num 2); TPunct (str ")");
                                     TPunct (str ";"); TEof])
  = ParseThrow (Error (UnexpectedArgToken (TPunct (str ",")))).
Proof.
  apply (proj2 (call_argument_not_a_literal (str "foo")
                  [(TNumber (num 1), true)]
                  [TNumber (num 2); TPunct (str ")"); TPunct (str ";"); TEof]
                  ltac:(repeat constructor; discriminate)
                  ltac:(repeat constructor))).
  repeat constructor.
Defined.

(** *** Every well-formed statement is read back from its tokens *)

Lemma peek_is_head ty v pre toks h l :
  toks = h :: l ->
  peek_is ty v (cursor_at pre toks) = Ok (is_tok ty v h) (cursor_at pre toks).
Proof. intros ->. apply peek_is_cur. Qed.

Lemma peek_d_head pre toks h l :
  toks = h :: l -> peek_d (cursor_at pre toks) = Ok h (cursor_at pre toks).
Proof. intros ->. apply peek_d_cur. Qed.

Lemma call_name_ok name (l : list string) :
  forallb (fun kw => negb (jsstring_eqb name (str kw))) l = true ->
  Forall (fun kw => name <> str kw) l.
Proof.
  intros H. apply Forall_forall. intros kw Hin.
  apply forallb_forall with (x := kw) in H; [|by apply list_elem_of_In].
  apply negb_true_iff in H. unfold jsstring_eqb in H.
  by apply bool_decide_eq_false in H.
Qed.

(** A statement starts with a token that is not the end of input, a
    closing brace or [else]. *)
Lemma tokens_of_head s :
  well_formed s = true ->
  exists h l, tokens_of s = h :: l /\ tok_type h <> eof
              /\ is_tok punct "}" h = false /\ is_tok ident "else" h = false.
Proof.
  destruct s; intros Hwf; try (by eexists _, _).
  cbn [well_formed] in Hwf. apply andb_true_iff in Hwf as [Hn _].
  apply call_name_ok in Hn. inversion Hn as [|? ? Helse _]; subst.
  eexists _, _. split; [done|]. split; [done|]. split; [done|].
  unfold is_tok. simpl. unfold jsstring_eqb.
  by apply bool_decide_eq_false.
Qed.

Lemma tokens_of_nonempty s : 0 < length (tokens_of s).
Proof.
  destruct s; cbn [tokens_of app length]; lia.
Qed.

Lemma flat_map_tokens_length body :
  length body <= length (flat_map tokens_of body).
Proof.
  induction body as [|s body IH]; [done|]. cbn [flat_map length].
  rewrite length_app. pose proof (tokens_of_nonempty s). lia.
Qed.

Lemma flat_map_tokens_elem s body :
  s ∈ body -> length (tokens_of s) <= length (flat_map tokens_of body).
Proof.
  induction 1; cbn [flat_map]; rewrite length_app; lia.
Qed.

(** What follows a statement in a list of statements closed by [u]. *)
Lemma following_head body u rest :
  forallb well_formed body = true ->
  is_tok ident "else" u = false ->
  exists t l, flat_map tokens_of body ++ u :: rest = t :: l
              /\ is_tok ident "else" t = false.
Proof.
  intros Hwf Hu. destruct body as [|s body]; [by eexists _, _|].
  cbn [forallb] in Hwf. apply andb_true_iff in Hwf as [Hs _].
  destruct (tokens_of_head s Hs) as (h & l & Hh & _ & _ & He).
  cbn [flat_map]. rewrite Hh. by eexists _, _.
Qed.

(** The block loop reads the statements of a block up to its closing
    brace. *)
Lemma parseBlock_loop_reads ps body : forall fuel acc pre rest,
  Forall (reads ps) body ->
  forallb well_formed body = true ->
  length body < fuel ->
  parseBlock_loop ps fuel acc
    (cursor_at pre (flat_map tokens_of body ++ TPunct (str "}") :: rest))
  = Ok (acc ++ map tree_of body)
       (cursor_at (pre ++ flat_map tokens_of body ++ [TPunct (str "}")])
          rest).
Proof.
  induction body as [|s body IH]; intros fuel acc pre rest Hps Hwf Hf;
    (destruct fuel as [|fuel]; [simpl in Hf; lia|]).
  - cbn [parseBlock_loop flat_map app map]. pstep. pstep.
    unfold ret. by rewrite app_nil_r.
  - inversion Hps as [|? ? Hs Hps']; subst.
    cbn [forallb] in Hwf. apply andb_true_iff in Hwf as [Hws Hwf].
    destruct (tokens_of_head s Hws) as (h & l & Hh & Heof & Hbrace & _).
    destruct (following_head body (TPunct (str "}")) rest Hwf eq_refl)
      as (t & l' & Ht & Helse).
    cbn [parseBlock_loop flat_map map]. rewrite <- app_assoc.
    erewrite bind_ok by (eapply peek_is_head; by rewrite Hh).
    cbv beta. rewrite Hbrace.
    erewrite bind_ok by (eapply peek_d_head; by rewrite Hh).
    cbv beta. rewrite bool_decide_eq_false_2 by done.
    rewrite Ht. erewrite bind_ok by (by apply Hs). cbv beta.
    rewrite <- Ht. unfold push. cbn [length] in Hf.
    rewrite IH by (done || lia). by rewrite <- !app_assoc.
Qed.

(** The program loop reads the statements up to the end of input. *)
Lemma parseProgram_loop_reads ps body : forall fuel acc pre,
  Forall (reads ps) body ->
  forallb well_formed body = true ->
  length body < fuel ->
  parseProgram_loop ps fuel acc
    (cursor_at pre (flat_map tokens_of body ++ [TEof]))
  = Ok {| body := acc ++ map tree_of body |}
       (cursor_at (pre ++ flat_map tokens_of body) [TEof]).
Proof.
  induction body as [|s body IH]; intros fuel acc pre Hps Hwf Hf;
    (destruct fuel as [|fuel]; [simpl in Hf; lia|]).
  - cbn [parseProgram_loop flat_map app map]. pstep.
    unfold ret. by rewrite !app_nil_r.
  - inversion Hps as [|? ? Hs Hps']; subst.
    cbn [forallb] in Hwf. apply andb_true_iff in Hwf as [Hws Hwf].
    destruct (tokens_of_head s Hws) as (h & l & Hh & Heof & _ & _).
    destruct (following_head body TEof [] Hwf eq_refl)
      as (t & l' & Ht & Helse).
    cbn [parseProgram_loop flat_map map]. rewrite <- app_assoc.
    erewrite bind_ok by (eapply peek_d_head; by rewrite Hh).
    cbv beta. rewrite bool_decide_eq_false_2 by done. cbn [negb].
    rewrite Ht. erewrite bind_ok by (by apply Hs). cbv beta.
    rewrite <- Ht. unfold push. cbn [length] in Hf.
    rewrite IH by (done || lia). by rewrite <- !app_assoc.
Qed.

Lemma no_closing_paren cond :
  forallb (fun t => negb (is_tok punct ")" t)) cond = true ->
  Forall (fun t => is_tok punct ")" t = false) cond.
Proof.
  intros H. apply Forall_forall. intros t Hin.
  apply forallb_forall with (x := t) in H; [|by apply list_elem_of_In].
  by apply negb_true_iff.
Qed.

Lemma arg_tokens_ok (ats : list (token * bool)) :
  forallb (fun x : token * bool => is_arg_token x.1) ats = true ->
  Forall (fun x : token * bool => is_arg_token x.1 = true) ats.
Proof.
  intros H. apply Forall_forall. intros t Hin.
  by apply forallb_forall with (x := t) in H; [|by apply list_elem_of_In].
Qed.

(** The statements of a block are read by a parser that reads every
    statement shorter than its fuel. *)
Lemma body_reads ps f body :
  (forall s, well_formed s = true -> length (tokens_of s) < f -> reads ps s) ->
  forallb well_formed body = true ->
  length (flat_map tokens_of body) < f ->
  Forall (reads ps) body.
Proof.
  intros IH Hwf Hf. apply Forall_forall. intros s Hin. apply IH.
  - by apply forallb_forall with (x := s) in Hwf; [|by apply list_elem_of_In].
  - pose proof (flat_map_tokens_elem s body Hin). lia.
Qed.

(** *** The statement parser on the tokens of a statement *)

Ltac toks_length H :=
  cbn [tokens_of for_tokens] in H; rewrite ?length_app in H;
  cbn [length] in H; rewrite ?length_app in H; cbn [length] in H.

Ltac flat := repeat first [rewrite <- app_assoc | progress cbn [app]].

Ltac same_cursor :=
  unfold ret; rewrite <- ?app_assoc; cbn [app]; rewrite <- ?app_assoc;
  reflexivity.

(** [parseStatement] reads every well-formed statement shorter than its
    fuel. *)
Lemma parseStatement_reads : forall fuel s,
  well_formed s = true -> length (tokens_of s) < fuel ->
  reads (parseStatement fuel) s.
Proof.
  induction fuel as [|f IH]; intros s Hwf Hf; [lia|].
  intros pre t rest Helse.
  destruct s as [| |k|n|count body|body|cond consequent alternate|cond
                |name args for_|].
  - cbn [tokens_of app parseStatement tree_of]. pstep. pkeyword "on".
    unfold parseEvent. pstep. pstep. pstep. same_cursor.
  - cbn [tokens_of app parseStatement tree_of]. pstep. pkeyword "on".
    unfold parseEvent. pstep. pstep. pstep. same_cursor.
  - cbn [tokens_of app parseStatement tree_of]. pstep. pkeyword "on".
    unfold parseEvent. pstep. pstep. pstep. pstep.
    destruct k; try done; pstep; pstep; same_cursor.
  - cbn [tokens_of app parseStatement tree_of]. pstep. pkeyword "on".
    unfold parseEvent. pstep. pstep. pstep. pstep.
    destruct n; try done; pstep; pstep; same_cursor.
  - cbn [well_formed] in Hwf. toks_length Hf.
    pose proof (flat_map_tokens_length body).
    cbn [tokens_of app parseStatement tree_of]. flat.
    pstep. pkeyword "repeat".
    unfold parseRepeat. pstep. pstep. pstep. pstep. pstep.
    erewrite bind_ok.
    2:{ apply parseBlock_loop_reads; [|done|lia].
        apply (body_reads _ f); [by apply IH|done|lia]. }
    cbv beta. same_cursor.
  - cbn [well_formed] in Hwf. toks_length Hf.
    pose proof (flat_map_tokens_length body).
    cbn [tokens_of app parseStatement tree_of]. flat.
    pstep. pkeyword "loop". pstep. pstep.
    erewrite bind_ok.
    2:{ apply parseBlock_loop_reads; [|done|lia].
        apply (body_reads _ f); [by apply IH|done|lia]. }
    cbv beta. same_cursor.
  - cbn [well_formed] in Hwf.
    apply andb_true_iff in Hwf as [Hwf Halt].
    apply andb_true_iff in Hwf as [Hcond Hcons].
    apply no_closing_paren in Hcond. toks_length Hf.
    pose proof (flat_map_tokens_length consequent).
    destruct alternate as [b|].
    + toks_length Hf. pose proof (flat_map_tokens_length b).
      cbn [tokens_of app parseStatement tree_of]. flat.
      pstep. pkeyword "if". unfold parseIf. pstep. pstep.
      erewrite bind_ok by (apply cond_loop_reads; [done | lia]).
      cbv beta. pstep. pstep.
      change ([] ++ map Some cond) with (map Some cond).
      erewrite bind_ok.
      2:{ apply parseBlock_loop_reads; [|done|lia].
          apply (body_reads _ f); [by apply IH|done|lia]. }
      cbv beta. pstep. unfold bind at 1. pstep. pstep.
      erewrite bind_ok.
      2:{ apply parseBlock_loop_reads; [|done|lia].
          apply (body_reads _ f); [by apply IH|done|lia]. }
      cbv beta. unfold ret at 1. unfold bind at 1.
      rewrite cond_values_eval. cbn [option_map]. same_cursor.
    + cbn [length] in Hf.
      cbn [tokens_of app parseStatement tree_of]. flat.
      pstep. pkeyword "if". unfold parseIf. pstep. pstep.
      erewrite bind_ok by (apply cond_loop_reads; [done | lia]).
      cbv beta. pstep. pstep.
      change ([] ++ map Some cond) with (map Some cond).
      erewrite bind_ok.
      2:{ apply parseBlock_loop_reads; [|done|lia].
          apply (body_reads _ f); [by apply IH|done|lia]. }
      cbv beta. erewrite bind_ok by apply peek_is_cur. cbv beta.
      rewrite Helse. unfold bind at 1. unfold ret at 1. unfold bind at 1.
      rewrite cond_values_eval. cbn [option_map]. same_cursor.
  - cbn [well_formed] in Hwf. apply no_closing_paren in Hwf.
    toks_length Hf.
    cbn [tokens_of app parseStatement tree_of]. flat.
    pstep. pkeyword "await".
    unfold parseAwait. pstep. pstep. pstep. pstep.
    erewrite bind_ok by (apply cond_loop_reads; [done | lia]).
    cbv beta. pstep. pstep.
    change ([] ++ map Some cond) with (map Some cond).
    unfold bind at 1. rewrite cond_values_eval. same_cursor.
  - cbn [well_formed] in Hwf. apply andb_true_iff in Hwf as [Hn Hargs].
    apply call_name_ok in Hn. apply Forall_cons in Hn as [_ Hn].
    apply arg_tokens_ok in Hargs.
    destruct args as [ats|], for_ as [n|]; cbn [default] in *;
      toks_length Hf; try pose proof (render_args_length ats);
      cbn [tokens_of for_tokens app tree_of default]; flat;
      rewrite parseStatement_simple by done;
      unfold parseSimple; pstep; cbv zeta; cbn [tok_text].
    + pstep. unfold bind at 1. pstep.
      erewrite bind_ok by (apply args_loop_render; [done | lia]).
      cbv beta. pstep. unfold ret at 1.
      pstep. unfold bind at 1. pstep. pstep. pstep. pstep.
      unfold ret at 1. pstep. pstep. same_cursor.
    + pstep. unfold bind at 1. pstep.
      erewrite bind_ok by (apply args_loop_render; [done | lia]).
      cbv beta. pstep. unfold ret at 1.
      pstep. unfold bind at 1. unfold ret at 1. pstep. pstep.
      same_cursor.
    + pstep. unfold bind at 1. unfold ret at 1.
      pstep. unfold bind at 1. pstep. pstep. pstep. pstep.
      unfold ret at 1. pstep. pstep. same_cursor.
    + pstep. unfold bind at 1. unfold ret at 1.
      pstep. unfold bind at 1. unfold ret at 1. pstep. pstep.
      same_cursor.
  - cbn [tokens_of app parseStatement tree_of]. pstep.
    change (bool_decide (tok_type (TPunct (str ";")) = ident)) with false.
    cbv iota. pstep. same_cursor.
Qed.

(** The tokens of well-formed statements parse to their tree. *)
Lemma parse_flat_tokens prog :
  forallb well_formed prog = true ->
  parse (flat_map tokens_of prog ++ [TEof])
  = ParseOk {| body := map tree_of prog |}.
Proof.
  intros Hwf. unfold parse, parseProgram.
  change {| tokens := ?l; pos := 0 |} with (cursor_at [] l).
  pose proof (flat_map_tokens_length prog) as Hlen.
  rewrite parseProgram_loop_reads; [done| |done|rewrite length_app; lia].
  apply (body_reads _ (S (length (flat_map tokens_of prog ++ [TEof]))));
    [intros s Hs Hf; by apply parseStatement_reads|done|].
  rewrite length_app. lia.
Qed.

(** X11. Every well-formed program is read back from its tokens: the
    tokens of a list of statements of any of the forms, nested to any
    depth, followed by the end of input, parse to the tree of these
    statements. *)
Theorem parse_tokens_of (prog : list syntax) :
  forallb well_formed prog = true ->
  parse (flat_map tokens_of prog ++ [TEof])
  = ParseOk {| body := map tree_of prog |}.
Proof. apply parse_flat_tokens. Qed.

Lemma parse_tokens_of_witness :
  parse (flat_map tokens_of sample_syntax ++ [TEof])
  = ParseOk {| body := map tree_of sample_syntax |}.
Proof. apply parse_tokens_of. reflexivity. Defined.

(** *** Blocks left open *)

Lemma parseBlock_loop_prefix ps body : forall fuel acc pre u rest,
  Forall (reads ps) body ->
  forallb well_formed body = true ->
  is_tok ident "else" u = false ->
  parseBlock_loop ps (length body + fuel) acc
    (cursor_at pre (flat_map tokens_of body ++ u :: rest))
  = parseBlock_loop ps fuel (acc ++ map tree_of body)
      (cursor_at (pre ++ flat_map tokens_of body) (u :: rest)).
Proof.
  induction body as [|s body IH]; intros fuel acc pre u rest Hps Hwf Hu.
  - simpl. by rewrite !app_nil_r.
  - inversion Hps as [|? ? Hs Hps']; subst.
    cbn [forallb] in Hwf. apply andb_true_iff in Hwf as [Hws Hwf].
    destruct (tokens_of_head s Hws) as (h & l & Hh & Heof & Hbrace & _).
    destruct (following_head body u rest Hwf Hu) as (t & l' & Ht & Helse).
    cbn [length Nat.add parseBlock_loop flat_map map]. rewrite <- app_assoc.
    erewrite bind_ok by (eapply peek_is_head; by rewrite Hh).
    cbv beta. rewrite Hbrace.
    erewrite bind_ok by (eapply peek_d_head; by rewrite Hh).
    cbv beta. rewrite bool_decide_eq_false_2 by done.
    rewrite Ht. erewrite bind_ok by (by apply Hs). cbv beta.
    rewrite <- Ht. unfold push.
    rewrite IH by done. by rewrite <- !app_assoc.
Qed.

Lemma parseProgram_loop_prefix ps body : forall fuel acc pre u rest,
  Forall (reads ps) body ->
  forallb well_formed body = true ->
  is_tok ident "else" u = false ->
  parseProgram_loop ps (length body + fuel) acc
    (cursor_at pre (flat_map tokens_of body ++ u :: rest))
  = parseProgram_loop ps fuel (acc ++ map tree_of body)
      (cursor_at (pre ++ flat_map tokens_of body) (u :: rest)).
Proof.
  induction body as [|s body IH]; intros fuel acc pre u rest Hps Hwf Hu.
  - simpl. by rewrite !app_nil_r.
  - inversion Hps as [|? ? Hs Hps']; subst.
    cbn [forallb] in Hwf. apply andb_true_iff in Hwf as [Hws Hwf].
    destruct (tokens_of_head s Hws) as (h & l & Hh & Heof & _ & _).
    destruct (following_head body u rest Hwf Hu) as (t & l' & Ht & Helse).
    cbn [length Nat.add parseProgram_loop flat_map map].
    rewrite <- app_assoc.
    erewrite bind_ok by (eapply peek_d_head; by rewrite Hh).
    cbv beta. rewrite bool_decide_eq_false_2 by done. cbn [negb].
    rewrite Ht. erewrite bind_ok by (by apply Hs). cbv beta.
    rewrite <- Ht. unfold push.
    rewrite IH by done. by rewrite <- !app_assoc.
Qed.

(** An opener starts with a keyword. *)
Lemma opener_head o :
  exists h l, opener_tokens o = h :: l /\ tok_type h <> eof
              /\ is_tok punct "}" h = false /\ is_tok ident "else" h = false.
Proof. destruct o; by eexists _, _. Qed.

Lemma opener_length o : 2 <= length (opener_tokens o).
Proof.
  destruct o; cbn [opener_tokens app length]; rewrite ?length_app;
    cbn [length]; lia.
Qed.

(** The input left inside open blocks starts with a token that is not
    [else]; it is the end of input only with no block and no statement
    left. *)
Lemma unclosed_head fs body :
  forallb frame_ok fs = true -> forallb well_formed body = true ->
  exists h l, unclosed_tokens fs body = h :: l
              /\ is_tok punct "}" h = false /\ is_tok ident "else" h = false.
Proof.
  intros Hfs Hb. unfold unclosed_tokens.
  destruct fs as [|[before o] fs].
  - destruct body as [|s body]; [by eexists _, _|].
    cbn [forallb] in Hb. apply andb_true_iff in Hb as [Hs _].
    destruct (tokens_of_head s Hs) as (h & l & Hh & _ & ? & ?).
    cbn [flat_map app]. rewrite Hh. by eexists _, _.
  - cbn [forallb] in Hfs. apply andb_true_iff in Hfs as [Hf _].
    apply andb_true_iff in Hf as [Hbefore _]. cbn [fst] in Hbefore.
    cbn [flat_map]. unfold frame_tokens at 1. cbn [fst snd].
    destruct before as [|s before].
    + destruct (opener_head o) as (h & l & Hh & _ & ? & ?).
      cbn [flat_map app]. rewrite Hh. by eexists _, _.
    + cbn [forallb] in Hbefore. apply andb_true_iff in Hbefore as [Hs _].
      destruct (tokens_of_head s Hs) as (h & l & Hh & _ & ? & ?).
      cbn [flat_map]. rewrite Hh. by eexists _, _.
Qed.

(** A block that meets the end of input after its statements. *)
Lemma parseBlock_loop_eof ps body fuel acc pre :
  Forall (reads ps) body ->
  forallb well_formed body = true ->
  length body < fuel ->
  parseBlock_loop ps fuel acc
    (cursor_at pre (flat_map tokens_of body ++ [TEof]))
  = Throw (Error UnclosedBlock).
Proof.
  intros Hps Hwf Hf.
  replace fuel with (length body + (fuel - length body)) by lia.
  rewrite parseBlock_loop_prefix by done.
  destruct (fuel - length body) as [|k] eqn:E; [lia|].
  cbn [parseBlock_loop]. pstep. pstep. done.
Qed.

(** The statement that starts with an opener fails as the block loop does
    on what follows it. *)
Lemma parseStatement_opener f o pre toks e :
  opener_ok o = true ->
  length (opener_tokens o) <= f ->
  (forall pre', parseBlock_loop (parseStatement f) f [] (cursor_at pre' toks)
                = Throw e) ->
  parseStatement (S f) (cursor_at pre (opener_tokens o ++ toks)) = Throw e.
Proof.
  intros Ho Hf Hblock. destruct o.
  - cbn [opener_tokens app parseStatement]. pstep. pkeyword "loop".
    pstep. pstep. by erewrite bind_throw.
  - cbn [opener_tokens app parseStatement]. pstep. pkeyword "repeat".
    unfold parseRepeat. pstep. pstep. pstep. pstep. pstep.
    by erewrite bind_throw.
  - cbn [opener_ok] in Ho. apply no_closing_paren in Ho.
    cbn [opener_tokens] in Hf. rewrite ?length_app in Hf.
    cbn [length] in Hf. rewrite ?length_app in Hf. cbn [length] in Hf.
    cbn [opener_tokens app parseStatement]. flat. pstep. pkeyword "if".
    unfold parseIf. pstep. pstep.
    erewrite bind_ok by (apply cond_loop_reads; [done | lia]).
    cbv beta. pstep. pstep. by erewrite bind_throw.
  - cbn [opener_ok] in Ho. apply andb_true_iff in Ho as [Hc Hcons].
    apply no_closing_paren in Hc.
    cbn [opener_tokens] in Hf. rewrite ?length_app in Hf.
    cbn [length] in Hf. rewrite ?length_app in Hf. cbn [length] in Hf.
    pose proof (flat_map_tokens_length consequent).
    cbn [opener_tokens app parseStatement]. flat. pstep. pkeyword "if".
    unfold parseIf. pstep. pstep.
    erewrite bind_ok by (apply cond_loop_reads; [done | lia]).
    cbv beta. pstep. pstep.
    erewrite bind_ok.
    2:{ apply parseBlock_loop_reads; [|done|lia].
        apply (body_reads _ f); [|done|lia].
        intros s Hs Hl. by apply parseStatement_reads. }
    cbv beta. pstep. unfold bind at 1. pstep. pstep.
    by erewrite bind_throw.
Qed.

Lemma unclosed_tokens_cons fr fs body :
  unclosed_tokens (fr :: fs) body
  = flat_map tokens_of fr.1 ++ opener_tokens fr.2 ++ unclosed_tokens fs body.
Proof.
  unfold unclosed_tokens. cbn [flat_map]. unfold frame_tokens at 1.
  by rewrite <- !app_assoc.
Qed.

Lemma unclosed_tokens_nonempty fs body :
  0 < length (unclosed_tokens fs body).
Proof. unfold unclosed_tokens. rewrite !length_app. cbn [length]. lia. Qed.

(** Inside open blocks the block loop fails with 'Unclosed block'. *)
Lemma parseBlock_loop_unclosed fs : forall body f f' acc pre,
  forallb frame_ok fs = true -> forallb well_formed body = true ->
  length (unclosed_tokens fs body) <= f ->
  length (unclosed_tokens fs body) <= f' ->
  parseBlock_loop (parseStatement f) f' acc
    (cursor_at pre (unclosed_tokens fs body))
  = Throw (Error UnclosedBlock).
Proof.
  induction fs as [|[before o] fs IH]; intros body f f' acc pre Hfs Hb Hf Hf'.
  - unfold unclosed_tokens in *. cbn [flat_map app] in *.
    rewrite length_app in Hf, Hf'. cbn [length] in Hf, Hf'.
    pose proof (flat_map_tokens_length body).
    apply parseBlock_loop_eof; [|done|lia].
    apply (body_reads _ f); [|done|lia].
    intros s Hs Hl. by apply parseStatement_reads.
  - cbn [forallb] in Hfs. apply andb_true_iff in Hfs as [Hfr Hfs].
    apply andb_true_iff in Hfr as [Hbefore Ho]. cbn [fst snd] in *.
    rewrite unclosed_tokens_cons in *. cbn [fst snd] in *.
    rewrite !length_app in Hf, Hf'.
    pose proof (flat_map_tokens_length before).
    pose proof (opener_length o).
    pose proof (unclosed_tokens_nonempty fs body).
    destruct (opener_head o) as (h & l & Hh & Heof & Hbrace & Helse).
    rewrite Hh. cbn [app].
    replace f' with (length before + (f' - length before)) by lia.
    rewrite parseBlock_loop_prefix; [| |done|done].
    2:{ apply (body_reads _ f); [|done|lia].
        intros s Hs Hl. by apply parseStatement_reads. }
    destruct (f' - length before) as [|k] eqn:E; [lia|].
    cbn [parseBlock_loop].
    erewrite bind_ok by apply peek_is_cur. cbv beta. rewrite Hbrace.
    erewrite bind_ok by apply peek_d_cur. cbv beta.
    rewrite bool_decide_eq_false_2 by done.
    erewrite bind_throw; [done|].
    change (h :: l ++ unclosed_tokens fs body)
      with ((h :: l) ++ unclosed_tokens fs body).
    rewrite <- Hh. destruct f as [|f]; [lia|].
    apply parseStatement_opener; [done|lia|].
    intros pre'. apply IH; (done || lia).
Qed.

(** The same for the program loop, which meets the first open block. *)
Lemma parseProgram_loop_unclosed before o fs body n :
  forallb well_formed before = true -> opener_ok o = true ->
  forallb frame_ok fs = true -> forallb well_formed body = true ->
  length (unclosed_tokens ((before, o) :: fs) body) <= n ->
  parseProgram_loop (parseStatement (S n)) (S n) []
    (cursor_at [] (unclosed_tokens ((before, o) :: fs) body))
  = Throw (Error UnclosedBlock).
Proof.
  intros Hbefore Ho Hfs Hb Hn.
  rewrite unclosed_tokens_cons in *. cbn [fst snd] in *.
  rewrite !length_app in Hn.
  pose proof (flat_map_tokens_length before).
  pose proof (opener_length o).
  pose proof (unclosed_tokens_nonempty fs body).
  destruct (opener_head o) as (h & l & Hh & Heof & Hbrace & Helse).
  rewrite Hh. cbn [app].
  replace (S n) with (length before + (S n - length before)) at 2 by lia.
  rewrite parseProgram_loop_prefix; [| |done|done].
  2:{ apply (body_reads _ (S n)); [|done|lia].
      intros s Hs Hl. by apply parseStatement_reads. }
  destruct (S n - length before) as [|k] eqn:E; [lia|].
  cbn [parseProgram_loop].
  erewrite bind_ok by apply peek_d_cur. cbv beta.
  rewrite bool_decide_eq_false_2 by done. cbn [negb].
  erewrite bind_throw; [done|].
  change (h :: l ++ unclosed_tokens fs body)
    with ((h :: l) ++ unclosed_tokens fs body).
  rewrite <- Hh.
  apply parseStatement_opener; [done|lia|].
  intros pre'. apply parseBlock_loop_unclosed; (done || lia).
Qed.

(** X12. A block left open at the end of input fails with 'Unclosed
    block', at any depth: after any well-formed statements, inside any
    blocks of [loop], [repeat], [if] or [else] opened and not closed. *)
Theorem unclosed_block_at_any_depth (fs : list frame) (body : list syntax) :
  fs <> [] ->
  forallb frame_ok fs = true -> forallb well_formed body = true ->
  parse (unclosed_tokens fs body) = ParseThrow (Error UnclosedBlock).
Proof.
  intros Hne Hfs Hb. destruct fs as [|[before o] fs]; [done|].
  cbn [forallb] in Hfs. apply andb_true_iff in Hfs as [Hfr Hfs].
  apply andb_true_iff in Hfr as [Hbefore Ho]. cbn [fst snd] in *.
  unfold parse, parseProgram.
  change {| tokens := ?l; pos := 0 |} with (cursor_at [] l).
  by rewrite parseProgram_loop_unclosed.
Qed.

Lemma unclosed_block_at_any_depth_witness :
  parse (unclosed_tokens
           [([SOnStart], ORepeat (num 3));
            ([SCall (str "move") (Some [(TNumber (num 10), false)]) None],
             OElse [TIdent (str "x")] [SSemicolon])]
           [SCall (str "hide") None None])
  = ParseThrow (Error UnclosedBlock).
Proof. apply unclosed_block_at_any_depth; [discriminate | done | done]. Defined.

(** X13. After any well-formed statements at the top level, a token that
    can start no statement (not an identifier, not the semicolon, not the
    end of input: a stray closing brace, a number, a string) fails with
    'Unexpected token in statement' showing it. *)
Theorem stray_token_at_top_level (prog : list syntax) (u : token)
    (rest : list token) :
  forallb well_formed prog = true ->
  tok_type u <> ident -> tok_type u <> eof -> is_tok punct ";" u = false ->
  parse (flat_map tokens_of prog ++ u :: rest)
  = ParseThrow (Error (UnexpectedTokenInStatement u)).
Proof.
  intros Hwf Hid Heof Hsemi. unfold parse, parseProgram.
  change {| tokens := ?l; pos := 0 |} with (cursor_at [] l).
  pose proof (flat_map_tokens_length prog) as Hlen.
  assert (Helse : is_tok ident "else" u = false).
  { unfold is_tok. by rewrite bool_decide_eq_false_2. }
  set (n := length (flat_map tokens_of prog ++ u :: rest)).
  assert (Hn : length (flat_map tokens_of prog) < n).
  { unfold n. rewrite length_app. cbn [length]. lia. }
  clearbody n.
  replace (S n) with (length prog + (S n - length prog)) at 2 by lia.
  rewrite parseProgram_loop_prefix; [| |done|done].
  2:{ apply (body_reads _ (S n)); [|done|lia].
      intros s Hs Hl. by apply parseStatement_reads. }
  destruct (S n - length prog) as [|k] eqn:E; [lia|].
  cbn [parseProgram_loop].
  erewrite bind_ok by apply peek_d_cur. cbv beta.
  rewrite bool_decide_eq_false_2 by done. cbn [negb].
  erewrite bind_throw; [done|].
  cbn [parseStatement]. erewrite bind_ok by apply peek_d_cur. cbv beta.
  rewrite bool_decide_eq_false_2 by done. by rewrite Hsemi.
Qed.

Lemma stray_token_at_top_level_witness :
  parse (flat_map tokens_of [SLoop [SCall (str "hide") None None]]
           ++ TPunct (str "}") :: [TEof])
  = ParseThrow (Error (UnexpectedTokenInStatement (TPunct (str "}")))).
Proof. by apply stray_token_at_top_level. Defined.

(** *** The openers of repeat and loop *)

(** X21. What [repeat] and [loop] ask for: the count of a [repeat] is one
    number token, anything else there fails with 'Expected number in
    repeat'; [repeat] not followed by the opening parenthesis, a count
    not followed by the closing one, and [loop] not followed by the
    opening brace fail with 'Expected punct' naming what was expected and
    showing the token found. *)
Theorem repeat_and_loop_openers (u : token) (rest : list token) :
  ((forall n, u <> TNumber n) ->
   parse ([TIdent (str "repeat"); TPunct (str "("); u] ++ rest)
   = ParseThrow (Error ExpectedNumberInRepeat))
  /\ (is_tok punct "(" u = false ->
      parse ([TIdent (str "repeat"); u] ++ rest)
      = ParseThrow (Error (ExpectedGot punct (Some "(") u)))
  /\ (is_tok punct ")" u = false ->
      forall n,
        parse ([TIdent (str "repeat"); TPunct (str "("); TNumber n; u]
                 ++ rest)
        = ParseThrow (Error (ExpectedGot punct (Some ")") u)))
  /\ (is_tok punct "{" u = false ->
      parse ([TIdent (str "loop"); u] ++ rest)
      = ParseThrow (Error (ExpectedGot punct (Some "{") u))).
Proof.
  split; [|split; [|split]].
  - intros Hu. cbn [app]. eapply parse_one_throw; [done|].
    cbn [parseStatement]. pstep. pkeyword "repeat".
    unfold parseRepeat. pstep. pstep.
    erewrite bind_ok by apply next_d_cur. cbv beta.
    destruct u; try done. by destruct (Hu value).
  - intros Hu. cbn [app]. eapply parse_one_throw; [done|].
    cbn [parseStatement]. pstep. pkeyword "repeat".
    unfold parseRepeat. pstep.
    by erewrite bind_throw by (by apply expect_fail).
  - intros Hu n. cbn [app]. eapply parse_one_throw; [done|].
    cbn [parseStatement]. pstep. pkeyword "repeat".
    unfold parseRepeat. pstep. pstep. pstep.
    by erewrite bind_throw by (by apply expect_fail).
  - intros Hu. cbn [app]. eapply parse_one_throw; [done|].
    cbn [parseStatement]. pstep. pkeyword "loop". pstep.
    by erewrite bind_throw by (by apply expect_fail).
Qed.

Lemma repeat_and_loop_openers_witness :
  parse ([TIdent (str "repeat"); TPunct (str "("); TIdent (str "n")]
           ++ [TPunct (str ")"); TPunct (str "{"); TPunct (str "}"); TEof])
  = ParseThrow (Error ExpectedNumberInRepeat).
Proof.
  apply (proj1 (repeat_and_loop_openers (TIdent (str "n"))
                  [TPunct (str ")"); TPunct (str "{"); TPunct (str "}");
                   TEof])).
  discriminate.
Defined.

(** *** The parser returns only on the tokens of statements *)

Lemma cursor_end_lookup pre :
  tokens (cursor_at pre []) !! pos (cursor_at pre []) = None.
Proof. apply lookup_ge_None. cbn. rewrite app_nil_r. lia. Qed.

Lemma peek_d_end pre : peek_d (cursor_at pre []) = Throw TypeError.
Proof. unfold peek_d, bind, peek, deref. by rewrite cursor_end_lookup. Qed.

Lemma next_d_end pre : next_d (cursor_at pre []) = Throw TypeError.
Proof. unfold next_d, bind, next, deref. by rewrite cursor_end_lookup. Qed.

Lemma peek_is_end ty v pre :
  peek_is ty v (cursor_at pre []) = Throw TypeError.
Proof. unfold peek_is. by erewrite bind_throw by apply peek_d_end. Qed.

Lemma expect_end ty v pre :
  expect ty v (cursor_at pre []) = Throw TypeError.
Proof. unfold expect. by erewrite bind_throw by apply peek_d_end. Qed.

Lemma bind_inv {S A B} (m : M S A) (f : A -> M S B) s b s' :
  bind m f s = Ok b s' -> exists a s1, m s = Ok a s1 /\ f a s1 = Ok b s'.
Proof. unfold bind. destruct (m s) as [a s1| |]; [by eexists _, _|done..]. Qed.

Lemma is_str_true v (kw : string) : is_str (VStr v) kw = true -> v = str kw.
Proof. unfold is_str, jsstring_eqb. apply bool_decide_eq_true_1. Qed.

Lemma is_tok_punct v t : is_tok punct v t = true -> t = TPunct (str v).
Proof.
  unfold is_tok. intros [Hty Hv]%andb_true_iff.
  destruct t; try done. by apply is_str_true in Hv as ->.
Qed.

Lemma is_tok_ident v t : is_tok ident v t = true -> t = TIdent (str v).
Proof.
  unfold is_tok. intros [Hty Hv]%andb_true_iff.
  destruct t; try done. by apply is_str_true in Hv as ->.
Qed.

(** The run stops with a TypeError where no token is left. *)
Ltac off_end :=
  first [ erewrite bind_throw by apply peek_d_end
        | erewrite bind_throw by apply peek_is_end
        | erewrite bind_throw by apply expect_end
        | erewrite bind_throw by apply next_d_end ];
  discriminate.

(** The token at the cursor, if the run is to go on. *)
Ltac token_there :=
  match goal with
  | |- context [cursor_at _ ?s] =>
      is_var s; let t := fresh "t" in destruct s as [|t s]; [off_end|]
  end.

(** An [expect] on a token not known yet. *)
Ltac expected :=
  match goal with
  | |- context [bind (expect ?ty (Some ?v)) _ (cursor_at _ (?t :: _))] =>
      is_var t;
      let E := fresh "E" in
      destruct (is_tok ty v t) eqn:E;
      [first [apply is_tok_punct in E | apply is_tok_ident in E];
       subst t; pstep
      |erewrite bind_throw by (apply expect_fail; exact E); discriminate]
  end.

(** A test of the token at the cursor, not known yet. *)
Ltac tested :=
  match goal with
  | |- context [bind (peek_is ?ty ?v) _ (cursor_at _ (?t :: _))] =>
      is_var t;
      let E := fresh "E" in
      erewrite bind_ok by apply peek_is_cur; cbv beta;
      destruct (is_tok ty v t) eqn:E;
      [first [apply is_tok_punct in E | apply is_tok_ident in E]; subst t|]
  end.

Lemma cond_loop_inv fuel : forall acc pre suf r p',
  cond_loop fuel acc (cursor_at pre suf) = Ok r p' ->
  exists cond rest,
    suf = cond ++ TPunct (str ")") :: rest
    /\ p' = cursor_at (pre ++ cond) (TPunct (str ")") :: rest)
    /\ r = acc ++ map Some cond
    /\ forallb (fun t => negb (is_tok punct ")" t)) cond = true.
Proof.
  induction fuel as [|fuel IH]; intros acc pre suf r p'; [done|].
  cbn [cond_loop]. token_there. tested.
  - intros [= <- <-]. exists [], suf. by rewrite !app_nil_r.
  - pstep. intros H.
    apply IH in H as (cond & rest & -> & -> & -> & Hc).
    exists (t :: cond), rest. cbn [app map forallb]. unfold push.
    rewrite E, <- !app_assoc. by cbn.
Qed.

Lemma args_loop_inv fuel : forall acc pre suf r p',
  args_loop fuel acc (cursor_at pre suf) = Ok r p' ->
  exists ats rest,
    suf = render_args ats ++ TPunct (str ")") :: rest
    /\ p' = cursor_at (pre ++ render_args ats) (TPunct (str ")") :: rest)
    /\ r = acc ++ map (fun x : token * bool => arg_value x.1) ats
    /\ forallb (fun x : token * bool => is_arg_token x.1) ats = true.
Proof.
  induction fuel as [|fuel IH]; intros acc pre suf r p'; [done|].
  cbn [args_loop]. token_there. tested.
  - intros [= <- <-]. exists [], suf. by rewrite !app_nil_r.
  - pstep.
    assert (Harg : is_arg_token t = true
                   \/ match t with
                      | TNumber n => ret (LNum n)
                      | TString v | TIdent v => ret (LStr v)
                      | _ => throw (UnexpectedArgToken t)
                      end = (throw (UnexpectedArgToken t) : PM lit)).
    { destruct t; (by left) || (by right). }
    destruct Harg as [Harg| ->]; [|done].
    erewrite bind_ok by (by apply arg_of_token_eval). cbv beta.
    token_there. tested.
    + pstep. intros H.
      apply IH in H as (ats & rest & -> & -> & -> & Hc).
      exists ((t, true) :: ats), rest.
      cbn [render_args flat_map app map forallb fst snd]. unfold push.
      fold (render_args ats). rewrite Harg, <- !app_assoc. by cbn.
    + unfold bind at 1. unfold ret at 1. intros H.
      apply IH in H as (ats & rest & Hsuf & -> & -> & Hc).
      exists ((t, false) :: ats), rest.
      cbn [render_args flat_map app map forallb fst snd]. unfold push.
      fold (render_args ats). rewrite Harg, Hsuf, <- !app_assoc. by cbn.
Qed.

(** A value returned where the statement's tokens end. *)
Ltac returned_with syn rest :=
  intros [= <- <-]; exists syn, rest;
  cbn [tokens_of tree_of shaped for_tokens option_map default app];
  split; [|split; [|split]];
  try done;
  try (flat; done).

Lemma parseBlock_loop_inv ps fuel :
  reads_only ps ->
  forall acc pre suf r p',
    parseBlock_loop ps fuel acc (cursor_at pre suf) = Ok r p' ->
    exists syns rest,
      suf = flat_map tokens_of syns ++ TPunct (str "}") :: rest
      /\ p' = cursor_at (pre ++ flat_map tokens_of syns ++ [TPunct (str "}")])
                rest
      /\ r = acc ++ map tree_of syns
      /\ forallb shaped syns = true.
Proof.
  intros Hps. induction fuel as [|fuel IH]; intros acc pre suf r p'; [done|].
  cbn [parseBlock_loop]. token_there. tested.
  - pstep. intros [= <- <-]. exists [], suf. by rewrite !app_nil_r.
  - pstep. destruct (bool_decide (tok_type t = eof)); [done|].
    intros H. apply bind_inv in H as (s & p1 & Hs & H).
    apply Hps in Hs as (syn & suf' & Hsuf & -> & -> & Hsh).
    apply IH in H as (syns & rest & -> & -> & -> & Hall).
    exists (syn :: syns), rest. cbn [flat_map map forallb]. unfold push.
    rewrite Hsuf, Hsh, Hall, <- !app_assoc. by cbn.
Qed.

Lemma parseProgram_loop_inv ps fuel :
  reads_only ps ->
  forall acc pre suf ast p',
    parseProgram_loop ps fuel acc (cursor_at pre suf) = Ok ast p' ->
    exists prog rest,
      suf = flat_map tokens_of prog ++ TEof :: rest
      /\ ast = {| body := acc ++ map tree_of prog |}
      /\ forallb shaped prog = true.
Proof.
  intros Hps. induction fuel as [|fuel IH]; intros acc pre suf r p'; [done|].
  cbn [parseProgram_loop]. token_there. pstep.
  destruct (bool_decide (tok_type t = eof)) eqn:Et; cbn [negb].
  - apply bool_decide_eq_true_1 in Et. destruct t; try done.
    intros [= <- <-]. exists [], suf. by rewrite app_nil_r.
  - intros H. apply bind_inv in H as (s & p1 & Hs & H).
    apply Hps in Hs as (syn & suf' & Hsuf & -> & -> & Hsh).
    apply IH in H as (prog & rest & -> & -> & Hall).
    exists (syn :: prog), rest. cbn [flat_map map forallb]. unfold push.
    rewrite Hsuf, Hsh, Hall, <- !app_assoc. by cbn.
Qed.

Lemma cond_values_inv cond (p : Parser) r p' :
  cond_values (map Some cond) p = Ok r p' -> r = map tok_value cond /\ p' = p.
Proof. rewrite cond_values_eval. by intros [= <- <-]. Qed.

Lemma parseEvent_inv pre suf s p' :
  parseEvent (cursor_at pre (TIdent (str "on") :: suf)) = Ok s p' ->
  exists syn suf',
    TIdent (str "on") :: suf = tokens_of syn ++ suf'
    /\ p' = cursor_at (pre ++ tokens_of syn) suf'
    /\ s = tree_of syn
    /\ shaped syn = true.
Proof.
  unfold parseEvent. pstep. token_there.
  erewrite bind_ok by apply next_d_cur. cbv beta.
  destruct (is_tok ident "start" t) eqn:E1;
    [apply is_tok_ident in E1; subst t; token_there; expected;
     returned_with SOnStart suf|].
  destruct (is_tok ident "key" t) eqn:E2.
  { apply is_tok_ident in E2; subst t. token_there. expected.
    token_there. erewrite bind_ok by apply next_d_cur. cbv beta.
    destruct t as [v|v|v|n|]; try done.
    - token_there. expected. token_there. expected.
      returned_with (SOnKey (TIdent v)) suf.
    - token_there. expected. token_there. expected.
      returned_with (SOnKey (TString v)) suf. }
  destruct (is_tok ident "click" t) eqn:E3;
    [apply is_tok_ident in E3; subst t; token_there; expected;
     returned_with SOnClick suf|].
  destruct (is_tok ident "backdrop" t) eqn:E4; [|done].
  apply is_tok_ident in E4; subst t. token_there. expected.
  token_there. erewrite bind_ok by apply next_d_cur. cbv beta.
  destruct t as [v|v|v|n|]; try done.
  - token_there. expected. token_there. expected.
    returned_with (SOnBackdrop (TIdent v)) suf.
  - token_there. expected. token_there. expected.
    returned_with (SOnBackdrop (TString v)) suf.
Qed.

Lemma bind_assoc {S A B C} (m : M S A) (f : A -> M S B) (g : B -> M S C) s :
  bind (bind m f) g s = bind m (fun a => bind (f a) g) s.
Proof. unfold bind. by destruct (m s). Qed.

Lemma bind_ret {S A B} (a : A) (f : A -> M S B) s : bind (ret a) f s = f a s.
Proof. reflexivity. Qed.

Section Forms.

Variable parseBlock : PM (list stmt).

Hypothesis parseBlock_inv : forall pre suf r p',
  parseBlock (cursor_at pre suf) = Ok r p' ->
  exists syns rest,
    suf = flat_map tokens_of syns ++ TPunct (str "}") :: rest
    /\ p' = cursor_at (pre ++ flat_map tokens_of syns ++ [TPunct (str "}")])
              rest
    /\ r = map tree_of syns
    /\ forallb shaped syns = true.

(** The body of a block, where the run is to go on. *)
Ltac block_there syns rest Hall :=
  let H := fresh "H" in
  let r := fresh "r" in
  let p1 := fresh "p" in
  let Hb := fresh "Hb" in
  intros H; apply bind_inv in H as (r & p1 & Hb & H);
  apply parseBlock_inv in Hb as (syns & rest & -> & -> & -> & Hall);
  revert H; cbv beta.

Lemma parseRepeat_inv pre suf s p' :
  parseRepeat parseBlock (cursor_at pre (TIdent (str "repeat") :: suf))
  = Ok s p' ->
  exists syn suf',
    TIdent (str "repeat") :: suf = tokens_of syn ++ suf'
    /\ p' = cursor_at (pre ++ tokens_of syn) suf'
    /\ s = tree_of syn
    /\ shaped syn = true.
Proof.
  unfold parseRepeat. pstep. token_there. expected. token_there.
  erewrite bind_ok by apply next_d_cur. cbv beta.
  destruct t as [v|v|v|n|]; try done.
  token_there. expected. token_there. expected.
  block_there syns rest Hall.
  returned_with (SRepeat n syns) rest.
Qed.

Lemma parseLoop_inv pre suf s p' :
  (_ <- next ;;
   _ <- expect punct (Some "{") ;;
   body <- parseBlock ;;
   ret (LoopStatement body)) (cursor_at pre (TIdent (str "loop") :: suf))
  = Ok s p' ->
  exists syn suf',
    TIdent (str "loop") :: suf = tokens_of syn ++ suf'
    /\ p' = cursor_at (pre ++ tokens_of syn) suf'
    /\ s = tree_of syn
    /\ shaped syn = true.
Proof.
  pstep. token_there. expected. block_there syns rest Hall.
  returned_with (SLoop syns) rest.
Qed.

Lemma parseIf_inv fuel pre suf s p' :
  parseIf fuel parseBlock (cursor_at pre (TIdent (str "if") :: suf))
  = Ok s p' ->
  exists syn suf',
    TIdent (str "if") :: suf = tokens_of syn ++ suf'
    /\ p' = cursor_at (pre ++ tokens_of syn) suf'
    /\ s = tree_of syn
    /\ shaped syn = true.
Proof.
  unfold parseIf. pstep. token_there. expected.
  intros H. apply bind_inv in H as (ct & p1 & Hc & H).
  apply cond_loop_inv in Hc as (cond & rest & -> & -> & -> & Hcond).
  revert H. cbv beta. change ([] ++ map Some cond) with (map Some cond).
  pstep. token_there. expected. block_there syns rest1 Hall.
  token_there. tested.
  - rewrite bind_assoc. pstep. rewrite bind_assoc. token_there. expected.
    rewrite bind_assoc. block_there alt rest2 Halt.
    rewrite bind_ret. unfold bind at 1. rewrite cond_values_eval.
    returned_with (SIf cond syns (Some alt)) rest2.
    by rewrite Hcond, Hall, Halt.
  - rewrite bind_ret. unfold bind at 1. rewrite cond_values_eval.
    returned_with (SIf cond syns None) (t :: rest1).
    by rewrite Hcond, Hall.
Qed.

End Forms.

Lemma parseAwait_inv fuel pre suf s p' :
  parseAwait fuel (cursor_at pre (TIdent (str "await") :: suf)) = Ok s p' ->
  exists syn suf',
    TIdent (str "await") :: suf = tokens_of syn ++ suf'
    /\ p' = cursor_at (pre ++ tokens_of syn) suf'
    /\ s = tree_of syn
    /\ shaped syn = true.
Proof.
  unfold parseAwait. pstep. token_there. tested; [|done].
  pstep. token_there. expected.
  intros H. apply bind_inv in H as (ct & p1 & Hc & H).
  apply cond_loop_inv in Hc as (cond & rest & -> & -> & -> & Hcond).
  revert H. cbv beta. change ([] ++ map Some cond) with (map Some cond).
  pstep. token_there. expected.
  unfold bind at 1. rewrite cond_values_eval.
  returned_with (SAwaitUntil cond) rest.
Qed.

(** The [for] suffix of a call and its semicolon. *)
Lemma call_end_inv name args pre suf s p' :
  (has_for <- peek_is ident "for" ;;
   for_ <-
     (if has_for then
        _ <- next ;;
        _ <- expect punct (Some "(") ;;
        n <- next_d ;;
        match n with
        | TNumber v => _ <- expect punct (Some ")") ;; ret (Some v)
        | _ => throw ExpectedNumberInFor
        end
      else ret None) ;;
   semi <- peek_is punct ";" ;;
   if semi then (_ <- next ;; ret (Call name args for_))
   else throw (ExpectedSemicolonAfterStatement name)) (cursor_at pre suf)
  = Ok s p' ->
  exists for_ suf',
    suf = for_tokens for_ ++ TPunct (str ";") :: suf'
    /\ p' = cursor_at (pre ++ for_tokens for_ ++ [TPunct (str ";")]) suf'
    /\ s = Call name args for_.
Proof.
  token_there. tested.
  - rewrite bind_assoc. pstep. rewrite bind_assoc. token_there. expected.
    rewrite bind_assoc. token_there.
    erewrite bind_ok by apply next_d_cur. cbv beta.
    destruct t as [v|v|v|n|]; try done.
    rewrite bind_assoc. token_there. expected. rewrite bind_ret.
    token_there. tested; [|done]. pstep.
    intros [= <- <-]. exists (Some n), suf. cbn [for_tokens app].
    split; [done|]. split; [|done]. flat. done.
  - rewrite bind_ret. tested; [|done]. pstep.
    intros [= <- <-]. exists None, suf. cbn [for_tokens app].
    split; [done|]. split; [|done]. flat. done.
Qed.

Lemma parseSimple_inv fuel name pre suf s p' :
  forallb (fun kw => negb (jsstring_eqb name (str kw))) statement_keywords
  = true ->
  parseSimple fuel (cursor_at pre (TIdent name :: suf)) = Ok s p' ->
  exists syn suf',
    TIdent name :: suf = tokens_of syn ++ suf'
    /\ p' = cursor_at (pre ++ tokens_of syn) suf'
    /\ s = tree_of syn
    /\ shaped syn = true.
Proof.
  intros Hname. unfold parseSimple. pstep. cbv zeta. cbn [tok_text].
  token_there. tested.
  - rewrite bind_assoc. pstep. rewrite bind_assoc.
    intros H. apply bind_inv in H as (a & p1 & Ha & H).
    apply args_loop_inv in Ha as (ats & rest & -> & -> & -> & Hargs).
    revert H. cbv beta. rewrite bind_assoc. pstep. rewrite bind_ret.
    intros H.
    apply call_end_inv in H as (for_ & suf' & -> & -> & ->).
    exists (SCall name (Some ats) for_), suf'.
    cbn [tokens_of tree_of shaped default app].
    unfold id. split; [by flat|]. split; [by flat|]. split; [done|].
    by rewrite Hname, Hargs.
  - rewrite bind_ret. intros H.
    apply call_end_inv in H as (for_ & suf' & Hsuf & -> & ->).
    exists (SCall name None for_), suf'.
    cbn [tokens_of tree_of shaped default app map forallb].
    rewrite Hsuf. split; [by flat|]. split; [by flat|]. split; [done|].
    by rewrite Hname.
Qed.

(** [parseStatement] returns only on the tokens of a statement. *)
Lemma parseStatement_inv fuel : reads_only (parseStatement fuel).
Proof.
  induction fuel as [|fuel IH]; intros pre suf s p'; [done|].
  assert (Hblock : forall pre suf r p',
            parseBlock_loop (parseStatement fuel) fuel [] (cursor_at pre suf)
            = Ok r p' ->
            exists syns rest,
              suf = flat_map tokens_of syns ++ TPunct (str "}") :: rest
              /\ p' = cursor_at
                        (pre ++ flat_map tokens_of syns ++ [TPunct (str "}")])
                        rest
              /\ r = map tree_of syns
              /\ forallb shaped syns = true).
  { intros pre0 suf0 r p0 H. by apply parseBlock_loop_inv in H. }
  cbn [parseStatement]. cbv zeta. token_there. pstep.
  destruct t as [v|v|v|n|];
    try (change (bool_decide (tok_type _ = ident)) with false; cbv iota;
         ptests; done).
  - change (bool_decide (tok_type (TPunct v) = ident)) with false. cbv iota.
    destruct (is_tok punct ";" (TPunct v)) eqn:E; [|done].
    apply is_tok_punct in E as [= ->]. pstep.
    returned_with SSemicolon suf.
  - change (bool_decide (tok_type (TIdent v) = ident)) with true. cbv iota.
    cbn [tok_value].
    destruct (is_str (VStr v) "on") eqn:Eon;
      [apply is_str_true in Eon as ->; apply parseEvent_inv|].
    destruct (is_str (VStr v) "repeat") eqn:Erepeat;
      [apply is_str_true in Erepeat as ->; by apply parseRepeat_inv|].
    destruct (is_str (VStr v) "loop") eqn:Eloop;
      [apply is_str_true in Eloop as ->; by apply parseLoop_inv|].
    destruct (is_str (VStr v) "if") eqn:Eif;
      [apply is_str_true in Eif as ->; by apply parseIf_inv|].
    destruct (is_str (VStr v) "await") eqn:Eawait;
      [apply is_str_true in Eawait as ->; apply parseAwait_inv|].
    assert (Hname : forallb (fun kw => negb (jsstring_eqb v (str kw)))
                      statement_keywords = true).
    { unfold is_str in *. cbn [statement_keywords forallb].
      by rewrite Eon, Erepeat, Eloop, Eif, Eawait. }
    destruct (existsb (is_str (VStr v)) simple_verbs);
      by apply parseSimple_inv.
Qed.

(** X22. The parser returns a tree only for the tokens of statements:
    when [parse] returns, the tokens up to the first end-of-input token at
    the top level are the tokens of a list of statements of the forms
    above, well shaped, and the tree returned is the tree of these
    statements; what follows that token is not read. *)
Theorem parse_returns_only_statements (toks : list token) (ast : Program) :
  parse toks = ParseOk ast ->
  exists prog rest,
    toks = flat_map tokens_of prog ++ TEof :: rest
    /\ forallb shaped prog = true
    /\ ast = {| body := map tree_of prog |}.
Proof.
  unfold parse, parseProgram.
  change {| tokens := toks; pos := 0 |} with (cursor_at [] toks).
  destruct (parseProgram_loop _ _ _ _) as [a p'| |] eqn:Hrun; [|done..].
  intros [= ->].
  apply parseProgram_loop_inv in Hrun as (prog & rest & -> & -> & Hall);
    [|apply parseStatement_inv].
  by exists prog, rest.
Qed.

Lemma parse_returns_only_statements_witness :
  exists prog rest,
    [TIdent (str "loop"); TPunct (str "{"); TIdent (str "hide");
     TPunct (str ";"); TPunct (str "}"); TEof]
    = flat_map tokens_of prog ++ TEof :: rest
    /\ forallb shaped prog = true
    /\ {| body := [LoopStatement [Call (str "hide") [] None]] |}
       = {| body := map tree_of prog |}.
Proof. apply parse_returns_only_statements. reflexivity. Defined.

(* ===================================================================== *)
(** ** The lowering: what every run leaves *)
(* ===================================================================== *)

Lemma wp_weaken {S A} (m : M S A) s (Q Q' : A -> S -> Prop)
    (E E' : jserror -> Prop) :
  wp m s Q E -> (forall a s', Q a s' -> Q' a s') -> (forall e, E e -> E' e) ->
  wp m s Q' E'.
Proof. unfold wp. destruct (m s); eauto. Qed.

Lemma grown_refl g : grown g g 0 0.
Proof. split; [apply ext_refl|]. by rewrite !Nat.add_0_r. Qed.

Lemma grown_trans g1 g2 g3 n1 u1 n2 u2 :
  grown g1 g2 n1 u1 -> grown g2 g3 n2 u2 -> grown g1 g3 (n1 + n2) (u1 + u2).
Proof.
  intros (He1 & Hc1 & Hd1) (He2 & Hc2 & Hd2).
  split; [by eapply ext_trans|]. lia.
Qed.

Lemma grown_ext g g' n u : grown g g' n u -> ext g g'.
Proof. by intros [? _]. Qed.

Section Growth.

Variable uuidv4 : nat -> jsstring.

Lemma known_in_dom g o r :
  Inv uuidv4 g -> known g o -> r ∈ option_list o -> r ∈ dom (blocks g).
Proof.
  intros HI Hk Hr. destruct o as [i|]; [|by apply elem_of_nil in Hr].
  apply list_elem_of_singleton in Hr as ->.
  apply elem_of_dom. apply (known_block uuidv4); [done|]. by apply Hk.
Qed.

Lemma closed_insert g id b d c :
  closed g ->
  (forall r, r ∈ refs b -> r ∈ dom (blocks g) \/ r = id) ->
  closed {| blocks := <[id := b]> (blocks g); draws := d; created := c |}.
Proof.
  intros Hc Hb id' b' Hl r Hr. cbn [blocks] in *. rewrite dom_insert_L.
  apply elem_of_union. destruct (decide (id' = id)) as [->|Hne].
  - rewrite lookup_insert_eq in Hl. injection Hl as <-.
    destruct (Hb r Hr) as [?| ->]; [by right|].
    left. by apply elem_of_singleton.
  - rewrite lookup_insert_ne in Hl by done. right. by eapply Hc.
Qed.

Lemma fresh_id_grown g E :
  Good uuidv4 g ->
  wp (fresh_id uuidv4) g (fun _ g' => Good uuidv4 g' /\ grown g g' 0 1) E.
Proof.
  intros [HI Hc]. pose proof (fresh_id_wp uuidv4 g E HI) as H.
  unfold wp in *. rewrite fresh_id_eval in *. destruct H as [HI' He].
  split; [split; [done|]|].
  - intros id b Hl r Hr. by eapply Hc.
  - split; [done|]. cbn [created draws]. lia.
Qed.

Lemma addBlock_grown op i f g E :
  Good uuidv4 g ->
  (forall r, r ∈ flat_map substack_ref i -> r ∈ created g) ->
  wp (addBlock uuidv4 op i f None None) g
    (fun id g' => Good uuidv4 g' /\ id ∈ created g' /\ grown g g' 1 1) E.
Proof.
  intros [HI Hc] Hi.
  pose proof (addBlock_wp uuidv4 op i f None None g E HI) as H.
  unfold wp in *. rewrite addBlock_eval in *.
  destruct H as (HI' & He & Hid).
  split; [split; [done|]|split; [done|]].
  - apply closed_insert; [done|]. intros r Hr. left.
    unfold refs in Hr. cbn [Block.next Block.parent Block.inputs] in Hr.
    cbn [option_list app] in Hr.
    apply elem_of_dom. apply (known_block uuidv4); [done|]. by apply Hi.
  - split; [done|]. unfold added. cbn [created draws].
    rewrite length_app. cbn [length]. lia.
Qed.

Lemma set_next_grown i v g E :
  Good uuidv4 g -> i ∈ created g -> known g v ->
  wp (set_next i v) g (fun _ g' => Good uuidv4 g' /\ grown g g' 0 0) E.
Proof.
  intros [HI Hc] Hi Hv. unfold wp, set_next.
  destruct (known_block uuidv4 g i HI Hi) as [b Hb]. rewrite Hb.
  split; [split|].
  - by apply Inv_rewrite.
  - apply closed_insert; [done|]. intros r Hr. left.
    unfold refs in Hr. cbn [Block.next Block.parent Block.inputs] in Hr.
    apply elem_of_app in Hr as [Hr|Hr]; [by eapply known_in_dom|].
    apply (Hc i b Hb). unfold refs. apply elem_of_app. by right.
  - split; [|done]. split; [done|]. exists []. by rewrite app_nil_r.
Qed.

Lemma set_parent_grown i v g E :
  Good uuidv4 g -> i ∈ created g -> known g v ->
  wp (set_parent i v) g (fun _ g' => Good uuidv4 g' /\ grown g g' 0 0) E.
Proof.
  intros [HI Hc] Hi Hv. unfold wp, set_parent.
  destruct (known_block uuidv4 g i HI Hi) as [b Hb]. rewrite Hb.
  split; [split|].
  - by apply Inv_rewrite.
  - apply closed_insert; [done|]. intros r Hr. left.
    unfold refs in Hr. cbn [Block.next Block.parent Block.inputs] in Hr.
    apply elem_of_app in Hr as [Hr|Hr].
    { apply (Hc i b Hb). unfold refs. apply elem_of_app. by left. }
    apply elem_of_app in Hr as [Hr|Hr]; [by eapply known_in_dom|].
    apply (Hc i b Hb). unfold refs. rewrite !elem_of_app. by right; right.
  - split; [|done]. split; [done|]. exists []. by rewrite app_nil_r.
Qed.

(** A block with no substack, returned as the statement's node. *)
Lemma node_grown op i f g s found :
  nodes s = 1 -> uuids s = 1 -> flat_map substack_ref i = [] ->
  Good uuidv4 g ->
  wp (id <- addBlock uuidv4 op i f None None ;; ret (Some id)) g
    (stmt_grown uuidv4 s g) (key_event_error found).
Proof.
  intros Hn Hu Hi HG. eapply wp_bind.
  { apply addBlock_grown; [done|]. rewrite Hi. by intros r ?%elem_of_nil. }
  intros id g' (HG' & Hid & Hg). apply wp_ret.
  split; [done|]. split; [by intros ? [= <-]|]. by rewrite Hn, Hu.
Qed.

Lemma compileCall_grows name args for_ :
  stmt_grows uuidv4 (fun _ => compileCall uuidv4 name args for_)
    (Call name args for_).
Proof.
  intros g HG. unfold compileCall.
  repeat match goal with
         | |- wp (if ?b then _ else _) _ _ _ => destruct b
         | |- wp (match ?o with Some _ => _ | None => _ end) _ _ _ =>
             destruct o
         | |- wp (let _ := _ in _) _ _ _ => cbv zeta
         end; by apply node_grown.
Qed.

Section Lists.

Variable cs : stmt -> GM (option jsstring).

Lemma compileStatements_loop_grows stmts :
  Forall (stmt_grows uuidv4 cs) stmts ->
  forall order firstId prevId g,
    Good uuidv4 g -> known g firstId -> known g prevId ->
    (order <> [] -> id_truthy firstId = true) ->
    wp (compileStatements_loop cs stmts order firstId prevId) g
      (list_grown uuidv4 stmts g)
      (key_event_error (existsb has_key stmts)).
Proof.
  induction 1 as [|s stmts Hs Hall IH];
    intros order firstId prevId g HG Hf Hp Ho; cbn [compileStatements_loop].
  - apply wp_ret. split; [done|]. split; [done|]. split; [done|].
    apply grown_refl.
  - eapply wp_bind.
    { eapply wp_weaken; [by apply Hs|intros a s' H; exact H|].
      intros e [He Hk]. split; [done|]. cbn [existsb]. by rewrite Hk. }
    intros id g1 (HG1 & Hk1 & Hg1). pose proof (grown_ext _ _ _ _ Hg1) as He1.
    assert (Hlater : forall e, key_event_error (existsb has_key stmts) e ->
                               key_event_error (existsb has_key (s :: stmts)) e).
    { intros e [He Hk]. split; [done|]. cbn [existsb]. rewrite Hk.
      apply orb_true_r. }
    destruct (id_truthy id) eqn:Hid; cbn [negb].
    + eapply wp_bind
        with (Q1 := fun _ g2 => Good uuidv4 g2 /\ grown g1 g2 0 0).
      { destruct (id_truthy prevId) eqn:Hpt.
        - destruct prevId as [p|]; [|done]. cbn [at_id].
          apply set_next_grown; [done| |done].
          eapply known_ext; [exact He1 | exact Hp | done].
        - apply wp_ret. split; [done | apply grown_refl]. }
      intros _u g2 (HG2 & Hg2). pose proof (grown_ext _ _ _ _ Hg2) as He2.
      eapply wp_weaken; [|clear IH; intros c g3 H; exact H|exact Hlater].
      eapply wp_mono.
      * apply IH; [done | | by eapply known_ext | ].
        -- destruct (id_truthy firstId); cbn [negb];
             eapply known_ext; try exact He2; try done.
           eapply known_ext; [exact He1 | done].
        -- intros _. destruct (id_truthy firstId) eqn:Hft; by cbn [negb].
      * intros c g3 (HG3 & Hk3 & Ho3 & Hg3).
        split; [done|]. split; [done|]. split; [done|].
        cbn [map list_sum].
        pose proof (grown_trans _ _ _ _ _ _ _ Hg1
                      (grown_trans _ _ _ _ _ _ _ Hg2 Hg3)) as Hg.
        exact Hg.
    + eapply wp_weaken; [|clear IH; intros c g3 H; exact H|exact Hlater].
      eapply wp_mono.
      * apply IH; [done | | | done]; by eapply known_ext.
      * intros c g3 (HG3 & Hk3 & Ho3 & Hg3).
        split; [done|]. split; [done|]. split; [done|].
        cbn [map list_sum]. exact (grown_trans _ _ _ _ _ _ _ Hg1 Hg3).
Qed.

Lemma compileStatements_grows stmts g :
  Forall (stmt_grows uuidv4 cs) stmts -> Good uuidv4 g ->
  wp (compileStatements cs stmts) g (list_grown uuidv4 stmts g)
    (key_event_error (existsb has_key stmts)).
Proof.
  intros Hall HG. by apply compileStatements_loop_grows.
Qed.

Lemma container_grows body op (inputs : option jsstring -> list (string * jsval))
    s g :
  Forall (stmt_grows uuidv4 cs) body ->
  (forall o r, r ∈ flat_map substack_ref (inputs o) -> r ∈ option_list o) ->
  has_key s = existsb has_key body ->
  nodes s = S (list_sum (map nodes body)) ->
  Good uuidv4 g ->
  wp (container cs body
        (fun bodyFirst => addBlock uuidv4 op (inputs bodyFirst) [] None None))
    g
    (fun r g' => Good uuidv4 g' /\ known g' r
                 /\ grown g g' (nodes s) (S (list_sum (map uuids body))))
    (key_event_error (has_key s)).
Proof.
  intros Hall Hin Hs Hn HG. unfold container. rewrite Hs, Hn.
  eapply wp_bind; [by apply compileStatements_grows|].
  intros c g1 (HG1 & Hk1 & Ho1 & Hg1).
  eapply wp_bind.
  { apply addBlock_grown; [done|]. intros r Hr. apply Hin in Hr.
    destruct (first c) as [fi|]; [|by apply elem_of_nil in Hr].
    apply list_elem_of_singleton in Hr as ->. by apply Hk1. }
  intros id g2 (HG2 & Hid & Hg2). pose proof (grown_ext _ _ _ _ Hg2) as He2.
  eapply wp_bind with (Q1 := fun _ g3 => Good uuidv4 g3 /\ grown g2 g3 0 0).
  { destruct (length (blocksOrder c) =? 0) eqn:El; cbn [negb].
    - apply wp_ret. split; [done | apply grown_refl].
    - assert (Hne : blocksOrder c <> []).
      { intros Hnil. rewrite Hnil in El. done. }
      specialize (Ho1 Hne). destruct (first c) as [fi|] eqn:Ef; [|done].
      cbn [at_id]. apply set_parent_grown; [done| |by intros ? [= <-]].
      eapply known_ext; [exact He2 | exact Hk1 | done]. }
  intros _u g3 (HG3 & Hg3). apply wp_ret.
  split; [done|]. split.
  - intros ? [= <-]. destruct Hg3 as [[_ (new & ->)] _].
    apply elem_of_app. by left.
  - pose proof (grown_trans _ _ _ _ _ _ _ Hg1
                  (grown_trans _ _ _ _ _ _ _ Hg2 Hg3)) as Hg.
    by rewrite !Nat.add_0_r, !Nat.add_1_r in Hg.
Qed.

End Lists.

Lemma substack_input_ref (o : option jsstring) (pre : list (string * jsval))
    r :
  flat_map substack_ref pre = [] ->
  r ∈ flat_map substack_ref
        (pre ++ [("SUBSTACK", VArr [VNum (num 2); id_val o])]) ->
  r ∈ option_list o.
Proof.
  intros Hpre. rewrite flat_map_app, Hpre. cbn [app flat_map].
  unfold substack_ref at 1. cbn [fst snd]. by destruct o.
Qed.

(** Every statement's lowering keeps the blocks closed, adds the blocks
    and makes the calls of [uuidv4] counted for it, and throws only the
    error for a key event, and only when a key event stands in what it
    lowers. *)
Lemma compileStatement_grows s :
  stmt_grows uuidv4 (compileStatement uuidv4) s.
Proof.
  induction s as [k a b|c b IH|b IH|c b a IH|c|n a f|]
    using stmt_lowered_ind; intros g HG; cbn [compileStatement].
  - destruct k; try by apply node_grown. done.
  - eapply wp_bind; [by apply fresh_id_grown|].
    intros _u g1 (HG1 & Hg1).
    eapply wp_mono.
    + apply (container_grows _ b "control_repeat"
               (fun o => [("TIMES", num_input (VNum c));
                          ("SUBSTACK", VArr [VNum (num 2); id_val o])])
               (Repeat c b)); try done.
      intros o r. by apply (substack_input_ref o [_]).
    + intros r g2 (HG2 & Hk2 & Hg2).
      split; [done|]. split; [done|].
      exact (grown_trans _ _ _ _ _ _ _ Hg1 Hg2).
  - apply (container_grows _ b "control_forever"
             (fun o => [("SUBSTACK", VArr [VNum (num 2); id_val o])])
             (LoopStatement b)); try done.
    intros o r. by apply (substack_input_ref o []).
  - apply (container_grows _ b "control_if"
             (fun o => [("CONDITION", VArr [VNum (num 1); VJoin c]);
                        ("SUBSTACK", VArr [VNum (num 2); id_val o])])
             (If c b a)); try done.
    intros o r. by apply (substack_input_ref o [_]).
  - by apply node_grown.
  - by apply compileCall_grows.
  - apply wp_ret. split; [done|]. split; [by intros ? [=]|].
    apply grown_refl.
Qed.

End Growth.

(** *** The top level *)

Section TopLevel.

Variable uuidv4 : nat -> jsstring.

Lemma added_grown op i f g :
  Good uuidv4 g ->
  (forall r, r ∈ flat_map substack_ref i -> r ∈ created g) ->
  Good uuidv4 (added uuidv4 g (Block.Make op i f None None))
  /\ grown g (added uuidv4 g (Block.Make op i f None None)) 1 1.
Proof.
  intros HG Hi.
  pose proof (addBlock_grown uuidv4 op i f g (fun _ => True) HG Hi) as H.
  unfold wp in H. rewrite addBlock_eval in H. by destruct H as (? & _ & ?).
Qed.

(** The hat of an event that is no key event. *)
Lemma event_lowered node g :
  is_event node = true -> has_key node = false ->
  exists op i,
    flat_map substack_ref i = []
    /\ compileStatement uuidv4 node g
       = Ok (Some (next_id uuidv4 g))
            (added uuidv4 g (Block.Make op i [] None None)).
Proof.
  intros He Hk. destruct node as [k a b| | | | | |]; try done.
  destruct k; try done; eexists _, _; (split; [|reflexivity]); reflexivity.
Qed.

Lemma news_added g b g' :
  ext (added uuidv4 g b) g' ->
  news g g' = next_id uuidv4 g :: news (added uuidv4 g b) g'.
Proof.
  intros [_ (new & E)]. unfold news. rewrite E. unfold added.
  cbn [created]. rewrite (drop_app_length (created g ++ [_]) new).
  rewrite <- app_assoc. cbn [app]. by rewrite drop_app_length.
Qed.

Lemma news_same g g' g'' :
  created g' = created g -> news g g'' = news g' g''.
Proof. unfold news. by intros ->. Qed.

Lemma top_loop_grows all rest : forall scripts g,
  (exists pre, all = pre ++ rest /\ existsb has_key pre = false) ->
  Good uuidv4 g -> Forall (known g) scripts ->
  wp (top_loop uuidv4 all rest scripts) g
    (fun r g' =>
       Good uuidv4 g' /\ Forall (known g') r
       /\ grown g g'
            (leading_events rest
             + (if all_events rest then 0 else S (list_sum (map nodes all))))
            (leading_events rest
             + (if all_events rest then 0 else S (list_sum (map uuids all))))
       /\ r = scripts ++ (Some <$> take (leading_events rest) (news g g')))
    (key_event_error (existsb has_key rest)).
Proof.
  induction rest as [|node rest IH]; intros scripts g Hpre HG Hs;
    cbn [top_loop].
  - apply wp_ret. split; [done|]. split; [done|]. split; [apply grown_refl|].
    cbn [leading_events take fmap list_fmap]. by rewrite app_nil_r.
  - destruct (is_event node) eqn:Hev.
    + destruct (has_key node) eqn:Hkey.
      { destruct node as [k a b| | | | | |]; try done.
        by destruct k. }
      destruct (event_lowered node g Hev Hkey) as (op & i & Hi & Hrun).
      destruct (added_grown op i [] g HG) as [HG1 Hg1].
      { rewrite Hi. by intros r ?%elem_of_nil. }
      unfold wp. erewrite bind_ok by exact Hrun.
      pose proof (grown_ext _ _ _ _ Hg1) as He1.
      eapply wp_weaken.
      * apply IH; [|done|].
        -- destruct Hpre as (pre & -> & Hp). exists (pre ++ [node]).
           rewrite <- app_assoc. split; [done|].
           rewrite existsb_app, Hp. cbn [existsb]. by rewrite Hkey.
        -- unfold push. apply Forall_app. split.
           ++ eapply Forall_impl; [exact Hs|]. intros o Ho.
              by eapply known_ext.
           ++ apply Forall_singleton. intros ? [= <-].
              unfold added. cbn [created]. apply elem_of_app. right.
              by apply list_elem_of_singleton.
      * intros r g2 (HG2 & Hk2 & Hg2 & ->).
        split; [done|]. split; [done|].
        cbn [leading_events all_events forallb]. rewrite Hev. cbn [andb].
        fold (all_events rest). split.
        -- exact (grown_trans _ _ _ _ _ _ _ Hg1 Hg2).
        -- rewrite (news_added g _ g2 (grown_ext _ _ _ _ Hg2)).
           cbn [take fmap list_fmap]. unfold push.
           by rewrite <- app_assoc.
      * intros e [He Hk]. split; [done|]. cbn [existsb]. rewrite Hk.
        apply orb_true_r.
    + destruct Hpre as (pre & -> & Hp).
      assert (Hkeys : existsb has_key (pre ++ node :: rest)
                      = existsb has_key (node :: rest)).
      { by rewrite existsb_app, Hp. }
      cbn [leading_events all_events forallb]. rewrite Hev. cbn [andb].
      eapply wp_bind.
      { apply addBlock_grown; [done|]. by intros r ?%elem_of_nil. }
      intros startHat g1 (HG1 & Hh & Hg1).
      eapply wp_bind.
      { eapply wp_weaken.
        - apply compileStatements_grows; [|done].
          apply Forall_forall. intros ? _. apply compileStatement_grows.
        - intros c g2 H. exact H.
        - intros e [He Hk]. split; [done|]. by rewrite <- Hkeys. }
      intros c g2 (HG2 & Hk2 & Ho2 & Hg2).
      eapply wp_bind with (Q1 := fun _ g3 => Good uuidv4 g3 /\ grown g2 g3 0 0).
      { destruct (id_truthy (first c)).
        - apply set_next_grown; [done| |done].
          destruct Hg2 as [[_ (new & ->)] _]. apply elem_of_app. by left.
        - apply wp_ret. split; [done|apply grown_refl]. }
      intros _u g3 (HG3 & Hg3). apply wp_ret.
      pose proof (grown_trans _ _ _ _ _ _ _ Hg1
                    (grown_trans _ _ _ _ _ _ _ Hg2 Hg3)) as Hg.
      rewrite !Nat.add_0_r in Hg.
      split; [done|]. split; [|split; [exact Hg|]].
      * eapply Forall_impl; [exact Hs|]. intros o Ho.
        eapply known_ext; [|exact Ho]. by eapply grown_ext.
      * cbn [take fmap list_fmap]. by rewrite app_nil_r.
Qed.

(** What [generateProject] leaves. *)
Lemma generateProject_grows ast :
  wp (fun g => generateProject uuidv4 ast) init_gen
    (fun r g' =>
       Good uuidv4 g' /\ Forall (known g') r
       /\ length (created g') = top_nodes (body ast)
       /\ draws g' = top_uuids (body ast)
       /\ r = Some <$> take (leading_events (body ast)) (created g'))
    (key_event_error (existsb has_key (body ast))).
Proof.
  unfold generateProject. eapply wp_mono.
  - apply (top_loop_grows (body ast) (body ast) [] init_gen).
    + by exists [].
    + split; [apply Inv_init|]. by intros id b ?.
    + constructor.
  - intros r g' (HG & Hk & (_ & Hc & Hd) & Hr).
    split; [done|]. split; [done|]. split; [exact Hc|]. split; [exact Hd|].
    rewrite Hr. unfold news. cbn [init_gen created length]. by rewrite drop_0.
Qed.

End TopLevel.

(** X14. A program with no key event at the top level or in a body that
    is lowered always gets its project, whatever [uuidv4] returns: the
    writes to [next] and [parent] find their block even when ids repeat
    or are empty.  The run creates one block for each leading event, and,
    if a statement that is no event follows, one start hat and one block
    for every statement of the whole body that is not empty, in all
    blocks that are lowered; it calls [uuidv4] once more for each Repeat;
    and [scripts] holds the ids of the leading events' hats and nothing
    else. *)
Theorem lowering_succeeds (uuidv4 : nat -> jsstring) (ast : Program) :
  existsb has_key (body ast) = false ->
  exists scripts g,
    generateProject uuidv4 ast = Ok scripts g
    /\ length (created g) = top_nodes (body ast)
    /\ draws g = top_uuids (body ast)
    /\ scripts = Some <$> take (leading_events (body ast)) (created g).
Proof.
  intros Hkey. pose proof (generateProject_grows uuidv4 ast) as H.
  unfold wp in H. destruct (generateProject uuidv4 ast) as [r g|e|].
  - exists r, g. by destruct H as (_ & _ & ? & ? & ?).
  - destruct H as [_ H]. congruence.
  - done.
Qed.

Lemma lowering_succeeds_witness :
  exists scripts g,
    generateProject uuid_tail example_tree = Ok scripts g
    /\ length (created g) = top_nodes (body example_tree)
    /\ draws g = top_uuids (body example_tree)
    /\ scripts = Some <$> take (leading_events (body example_tree))
                           (created g).
Proof. apply lowering_succeeds. reflexivity. Defined.

(** X15. In the project [generateProject] returns no block refers to a
    block that is not there: every [next], every [parent] and every
    SUBSTACK input that is not null names a key of [blocks], and so does
    every entry of [scripts], whatever [uuidv4] returns. *)
Theorem no_dangling_reference (uuidv4 : nat -> jsstring) (ast : Program)
    (scripts : list (option jsstring)) (g : gen) :
  generateProject uuidv4 ast = Ok scripts g ->
  closed g
  /\ forall i, Some i ∈ scripts -> i ∈ dom (blocks g).
Proof.
  intros Hrun. pose proof (generateProject_grows uuidv4 ast) as H.
  unfold wp in H. rewrite Hrun in H.
  destruct H as ([HI Hc] & Hk & _). split; [done|].
  intros i Hi. apply elem_of_dom. apply (known_block uuidv4); [done|].
  rewrite Forall_forall in Hk. by apply (Hk (Some i)).
Qed.

Lemma no_dangling_reference_witness :
  exists scripts g,
    generateProject uuid_tail example_tree = Ok scripts g
    /\ closed g
    /\ forall i, Some i ∈ scripts -> i ∈ dom (blocks g).
Proof.
  remember (generateProject uuid_tail example_tree) as r eqn:Er.
  assert (Hok : is_ok r = true) by (rewrite Er; vm_compute; reflexivity).
  destruct r as [scripts g|e|]; [|discriminate Hok..].
  exists scripts, g. split; [reflexivity|].
  apply (no_dangling_reference uuid_tail example_tree scripts g).
  symmetry. exact Er.
Defined.

(* ===================================================================== *)
(** ** The lowering: what it does not read *)
(* ===================================================================== *)

Lemma bind_ext {S A B} (m m' : M S A) (f f' : A -> M S B) s :
  (forall s0, m s0 = m' s0) -> (forall a s0, f a s0 = f' a s0) ->
  bind m f s = bind m' f' s.
Proof.
  intros Hm Hf. unfold bind. rewrite Hm. by destruct (m' s).
Qed.

Section Unread.

Variable uuidv4 : nat -> jsstring.

Lemma read_call_lowered name args for_ g :
  compileStatement uuidv4 (read_call name args for_) g
  = compileCall uuidv4 name args for_ g.
Proof.
  unfold read_call.
  destruct (jsstring_eqb name (str "move")) eqn:Hmove;
    [|destruct (jsstring_eqb name (str "turn")) eqn:Hturn;
      [|destruct (jsstring_eqb name (str "say")) eqn:Hsay;
        [|destruct (jsstring_eqb name (str "wait")) eqn:Hwait]]];
    cbn [compileStatement]; unfold compileCall;
    rewrite ?Hmove, ?Hturn, ?Hsay, ?Hwait; cbv zeta;
    rewrite ?lookup_take_lt by lia; reflexivity.
Qed.

Lemma read_part_is_empty s : is_empty (read_part s) = is_empty s.
Proof.
  destruct s; try done. cbn [read_part]. unfold read_call.
  by repeat destruct (jsstring_eqb _ _).
Qed.

Lemma read_part_is_event s : is_event (read_part s) = is_event s.
Proof.
  destruct s; try done. cbn [read_part]. unfold read_call.
  by repeat destruct (jsstring_eqb _ _).
Qed.

Section Lists.

Variable cs : stmt -> GM (option jsstring).
Hypothesis cs_empty : forall g, cs Empty g = Ok None g.

Lemma compileStatements_loop_read stmts :
  Forall (fun s => forall g, cs (read_part s) g = cs s g) stmts ->
  forall order firstId prevId g,
    compileStatements_loop cs
      (List.filter (fun x => negb (is_empty x)) (map read_part stmts))
      order firstId prevId g
    = compileStatements_loop cs stmts order firstId prevId g.
Proof.
  induction 1 as [|s stmts Hs Hall IH]; intros order firstId prevId g;
    [done|].
  cbn [map List.filter]. rewrite read_part_is_empty.
  destruct (is_empty s) eqn:He; cbn [negb].
  - destruct s; try done. cbn [compileStatements_loop].
    erewrite bind_ok by apply cs_empty. cbn [id_truthy negb]. apply IH.
  - cbn [compileStatements_loop]. unfold bind at 1 3. rewrite Hs.
    destruct (cs s g) as [id g1| |]; [|done..].
    destruct (negb (id_truthy id)); [apply IH|].
    unfold bind.
    destruct ((if id_truthy prevId
               then at_id prevId (fun p => set_next p id)
               else ret tt) g1) as [u g2| |]; [|done..].
    apply IH.
Qed.

Lemma compileStatements_loop_read_all stmts :
  Forall (fun s => forall g, cs (read_part s) g = cs s g) stmts ->
  forall order firstId prevId g,
    compileStatements_loop cs (map read_part stmts) order firstId prevId g
    = compileStatements_loop cs stmts order firstId prevId g.
Proof.
  induction 1 as [|s stmts Hs Hall IH]; intros order firstId prevId g;
    [done|].
  cbn [map compileStatements_loop]. unfold bind at 1 3. rewrite Hs.
  destruct (cs s g) as [id g1| |]; [|done..].
  destruct (negb (id_truthy id)); [apply IH|].
  unfold bind.
  destruct ((if id_truthy prevId
             then at_id prevId (fun p => set_next p id)
             else ret tt) g1) as [u g2| |]; [|done..].
  apply IH.
Qed.

Lemma container_read body mk g :
  Forall (fun s => forall g, cs (read_part s) g = cs s g) body ->
  container cs (List.filter (fun x => negb (is_empty x)) (map read_part body))
    mk g
  = container cs body mk g.
Proof.
  intros Hall. unfold container, compileStatements.
  apply bind_ext; [|done]. intros g1. by apply compileStatements_loop_read.
Qed.

End Lists.

(** A statement and the part of it that is read are lowered alike. *)
Lemma compileStatement_read s : forall g,
  compileStatement uuidv4 (read_part s) g = compileStatement uuidv4 s g.
Proof.
  induction s as [k a b|c b IH|b IH|c b a IH|c|n a f|]
    using stmt_lowered_ind; intros g; cbn [read_part compileStatement].
  - by destruct k.
  - apply bind_ext; [done|]. intros u g1. by apply container_read.
  - by apply container_read.
  - by apply container_read.
  - done.
  - apply read_call_lowered.
  - done.
Qed.

Lemma top_loop_read all rest : forall scripts g,
  top_loop uuidv4 (map read_part all) (map read_part rest) scripts g
  = top_loop uuidv4 all rest scripts g.
Proof.
  induction rest as [|node rest IH]; intros scripts g; [done|].
  cbn [map top_loop]. rewrite read_part_is_event.
  destruct (is_event node).
  - apply bind_ext; [apply compileStatement_read|]. intros h g1. apply IH.
  - apply bind_ext; [done|]. intros h g1.
    apply bind_ext; [|done]. intros g2. unfold compileStatements.
    apply compileStatements_loop_read_all.
    apply Forall_forall. intros s _. apply compileStatement_read.
Qed.

End Unread.

(** X16. What the lowering does not read changes nothing: the [else]
    block of an [if], an empty statement in a block, the arguments of a
    call after the first (the second for [turn]), every argument of a
    call that is not [move], [turn], [say] or [wait], a [for] on a call
    that is not [say], the key of an event.  A program and the program
    cut down to the part that is read give the same blocks, the same
    ids and the same error. *)
Theorem lowering_reads_only (uuidv4 : nat -> jsstring) (ast : Program) :
  generateProject uuidv4 {| body := map read_part (body ast) |}
  = generateProject uuidv4 ast.
Proof. unfold generateProject. cbn [body]. apply top_loop_read. Qed.

(* ===================================================================== *)
(** ** The lowering: the blocks of a tree *)
(* ===================================================================== *)

Lemma put_next_insert (p : jsstring) (v : option jsstring) (b : Block.t)
    (m : gmap (list N) Block.t) :
  put_next p v (<[p := b]> m) = <[p := with_next v b]> m.
Proof.
  unfold put_next. by rewrite lookup_insert_eq, insert_insert_eq.
Qed.

Lemma put_parent_insert (p : jsstring) (v : option jsstring) (b : Block.t)
    (m : gmap (list N) Block.t) :
  put_parent p v (<[p := b]> m) = <[p := with_parent v b]> m.
Proof.
  unfold put_parent. by rewrite lookup_insert_eq, insert_insert_eq.
Qed.

Lemma put_next_union_l (p : jsstring) (v : option jsstring)
    (m1 m2 : gmap (list N) Block.t) :
  is_Some (m1 !! p) -> put_next p v (m1 ∪ m2) = put_next p v m1 ∪ m2.
Proof.
  intros [b Hb]. unfold put_next.
  rewrite (lookup_union_Some_l m1 m2 p b Hb), Hb. by rewrite insert_union_l.
Qed.

Lemma put_next_union_r (p : jsstring) (v : option jsstring)
    (m1 m2 : gmap (list N) Block.t) :
  m1 !! p = None -> put_next p v (m1 ∪ m2) = m1 ∪ put_next p v m2.
Proof.
  intros Hb. unfold put_next. rewrite lookup_union_r by done.
  destruct (m2 !! p); [|done]. by rewrite insert_union_r.
Qed.

Lemma put_parent_union_l (p : jsstring) (v : option jsstring)
    (m1 m2 : gmap (list N) Block.t) :
  is_Some (m1 !! p) -> put_parent p v (m1 ∪ m2) = put_parent p v m1 ∪ m2.
Proof.
  intros [b Hb]. unfold put_parent.
  rewrite (lookup_union_Some_l m1 m2 p b Hb), Hb. by rewrite insert_union_l.
Qed.

Lemma put_parent_union_r (p : jsstring) (v : option jsstring)
    (m1 m2 : gmap (list N) Block.t) :
  m1 !! p = None -> put_parent p v (m1 ∪ m2) = m1 ∪ put_parent p v m2.
Proof.
  intros Hb. unfold put_parent. rewrite lookup_union_r by done.
  destruct (m2 !! p); [|done]. by rewrite insert_union_r.
Qed.

Lemma set_next_eval p v g :
  is_Some (blocks g !! p) ->
  exists g', set_next p v g = Ok tt g'
             /\ blocks g' = put_next p v (blocks g) /\ draws g' = draws g.
Proof.
  intros [b Hb]. unfold set_next, put_next. rewrite Hb. by eexists.
Qed.

Lemma set_parent_eval p v g :
  is_Some (blocks g !! p) ->
  exists g', set_parent p v g = Ok tt g'
             /\ blocks g' = put_parent p v (blocks g) /\ draws g' = draws g.
Proof.
  intros [b Hb]. unfold set_parent, put_parent. rewrite Hb. by eexists.
Qed.

Lemma uuids_pos s : is_empty s = false -> 1 <= uuids s.
Proof. destruct s; cbn; (done || lia). Qed.

Lemma sum_cons (f : stmt -> nat) s l :
  list_sum (map f (s :: l)) = f s + list_sum (map f l).
Proof. reflexivity. Qed.

Lemma list_sum_elem (f : stmt -> nat) s l :
  s ∈ l -> f s <= list_sum (map f l).
Proof. induction 1; rewrite sum_cons; lia. Qed.

Section RefFacts.

Variable uuidv4 : nat -> jsstring.

Lemma ids_ok_sub k n k' n' :
  ids_ok uuidv4 k n -> k <= k' -> k' + n' <= k + n -> ids_ok uuidv4 k' n'.
Proof.
  intros H Hk Hn i Hi. destruct (H i) as [Hne Hinj]; [lia|].
  split; [done|]. intros j Hj. apply Hinj. lia.
Qed.

Lemma ids_ok_ne k n i j :
  ids_ok uuidv4 k n -> k <= i < k + n -> k <= j < k + n -> i <> j ->
  sid uuidv4 i <> sid uuidv4 j.
Proof. intros H Hi Hj Hij Heq. destruct (H i Hi) as [_ Hinj]. auto. Qed.

(** The equations of [lowered]. *)
Lemma lowered_eq s k nx pa :
  lowered uuidv4 s k nx pa
  = match s with
    | Empty => ∅
    | Repeat _ _ | LoopStatement _ | If _ _ _ =>
        <[sid uuidv4 (k + uuids s - 1)
          := block_of s (first_root uuidv4 (body_of s) (k + body_offset s))
               nx pa]>
          (lowered_list uuidv4 (body_of s) (k + body_offset s)
             (Some (sid uuidv4 (k + uuids s - 1))))
    | _ => <[sid uuidv4 k := block_of s None nx pa]> ∅
    end.
Proof. by destruct s. Qed.

(** The block of a statement is the last entry put in. *)
Lemma lowered_shape s k :
  is_empty s = false ->
  exists bf inner, forall nx pa,
    lowered uuidv4 s k nx pa
    = <[sid uuidv4 (k + uuids s - 1) := block_of s bf nx pa]> inner.
Proof.
  intros Hs. destruct s as [kd a b|c b|b|c b a|c|n a f|]; try done;
    try (exists None, ∅; intros nx pa; rewrite lowered_eq;
         cbn [uuids]; by replace (k + 1 - 1) with k by lia);
    eexists _, _; intros nx pa; by rewrite lowered_eq.
Qed.

Lemma root_eq s k :
  is_empty s = false -> root uuidv4 s k = Some (sid uuidv4 (k + uuids s - 1)).
Proof. by destruct s. Qed.

Lemma root_empty s k : is_empty s = true -> root uuidv4 s k = None.
Proof. by destruct s. Qed.

Lemma lowered_empty s k nx pa :
  is_empty s = true -> lowered uuidv4 s k nx pa = ∅ /\ uuids s = 0.
Proof. by destruct s. Qed.

(** The keys of the blocks of a statement are ids of its UUIDs. *)
Lemma lowered_dom s : forall k nx pa i,
  i ∈ dom (lowered uuidv4 s k nx pa) ->
  exists j, k <= j < k + uuids s /\ i = sid uuidv4 j.
Proof.
  induction s as [kd a b|c b IH|b IH|c b a IH|c|n a f|]
    using stmt_lowered_ind; intros k nx pa i; rewrite lowered_eq;
    cbn [body_of body_offset uuids].
  all: try (rewrite dom_insert_L, dom_empty_L, (right_id_L ∅ (∪));
            intros ->%elem_of_singleton; exists k; split; [lia|done]).
  all: try (by intros ?%elem_of_empty).
  all: rewrite dom_insert_L; intros [->%elem_of_singleton|Hi]%elem_of_union;
    [eexists; split; [|reflexivity]; lia|].
  all: assert (Hlist : forall l k0 pa0,
         Forall (fun s => forall k nx pa i,
                   i ∈ dom (lowered uuidv4 s k nx pa) ->
                   exists j, k <= j < k + uuids s /\ i = sid uuidv4 j) l ->
         i ∈ dom (lowered_list uuidv4 l k0 pa0) ->
         exists j, k0 <= j < k0 + list_sum (map uuids l)
                   /\ i = sid uuidv4 j).
  all: try (clear; intros l; induction l as [|x l IHl]; intros k0 pa0 Hall;
            cbn [lowered_list]; rewrite ?sum_cons;
            [by intros ?%elem_of_empty|];
            inversion Hall as [|? ? Hx Hl]; subst;
            rewrite dom_union_L;
            intros [Hi|Hi]%elem_of_union;
            [destruct (IHl _ _ Hl Hi) as (j & Hj & ->); exists j;
             split; [lia|done]
            |destruct (Hx _ _ _ _ Hi) as (j & Hj & ->); exists j;
             split; [lia|done]]).
  all: destruct (Hlist _ _ _ IH Hi) as (j & Hj & ->); exists j;
    split; [lia|done].
Qed.

Lemma lowered_list_dom l k pa i :
  i ∈ dom (lowered_list uuidv4 l k pa) ->
  exists j, k <= j < k + list_sum (map uuids l) /\ i = sid uuidv4 j.
Proof.
  revert k pa. induction l as [|x l IHl]; intros k pa;
    cbn [lowered_list]; rewrite ?sum_cons; [by intros ?%elem_of_empty|].
  rewrite dom_union_L. intros [Hi|Hi]%elem_of_union.
  - destruct (IHl _ _ Hi) as (j & Hj & ->). exists j. split; [lia|done].
  - destruct (lowered_dom _ _ _ _ _ Hi) as (j & Hj & ->). exists j.
    split; [lia|done].
Qed.

Lemma first_root_range l : forall k r,
  first_root uuidv4 l k = Some r ->
  exists j, k <= j < k + list_sum (map uuids l) /\ r = sid uuidv4 j.
Proof.
  induction l as [|s l IH]; intros k r; cbn [first_root]; rewrite ?sum_cons;
    [done|].
  destruct (is_empty s) eqn:Hs.
  - rewrite (root_empty _ _ Hs). intros H.
    destruct (IH _ _ H) as (j & Hj & ->). exists j. split; [lia|done].
  - rewrite (root_eq _ _ Hs). intros [= <-].
    pose proof (uuids_pos s Hs). eexists. split; [|reflexivity]. lia.
Qed.

Lemma lowered_list_no_root l : forall k pa,
  first_root uuidv4 l k = None -> lowered_list uuidv4 l k pa = ∅.
Proof.
  induction l as [|s l IH]; intros k pa; cbn [first_root lowered_list];
    [done|].
  destruct (is_empty s) eqn:Hs.
  - destruct s; try done. cbn [root uuids is_empty]. intros H.
    rewrite lowered_eq, (right_id_L ∅ (∪)). by apply IH.
  - by rewrite (root_eq _ _ Hs).
Qed.

End RefFacts.

(** *** The run against the blocks of the tree *)

Section RefRun.

Variable uuidv4 : nat -> jsstring.

(** Naming the next block of a statement's block. *)
Lemma lowered_put_next (s : stmt) (k : nat) (r : jsstring)
    (pa : option jsstring) (m : gmap (list N) Block.t) :
  is_empty s = false ->
  put_next (sid uuidv4 (k + uuids s - 1)) (Some r)
    (lowered uuidv4 s k None pa ∪ m)
  = lowered uuidv4 s k (Some r) pa ∪ m.
Proof.
  intros Hs. destruct (lowered_shape uuidv4 s k Hs) as (bf & inner & Hsh).
  rewrite !Hsh. rewrite put_next_union_l by (rewrite lookup_insert_eq; by eexists).
  by rewrite put_next_insert.
Qed.

Lemma lowered_root_there s k nx pa :
  is_empty s = false ->
  is_Some (lowered uuidv4 s k nx pa !! sid uuidv4 (k + uuids s - 1)).
Proof.
  intros Hs. destruct (lowered_shape uuidv4 s k Hs) as (bf & inner & Hsh).
  rewrite Hsh, lookup_insert_eq. by eexists.
Qed.

(** An id of an earlier UUID is no key of later blocks. *)
Lemma lowered_list_later l k pa k0 n i :
  ids_ok uuidv4 k0 n -> k0 <= i < k -> k + list_sum (map uuids l) <= k0 + n ->
  lowered_list uuidv4 l k pa !! sid uuidv4 i = None.
Proof.
  intros Hok Hi Hn. apply not_elem_of_dom. intros Hd.
  apply lowered_list_dom in Hd as (j & Hj & Heq).
  apply (ids_ok_ne uuidv4 k0 n i j Hok); [lia|lia|lia|done].
Qed.

(** Naming the parent of the first block of a list. *)
Lemma lowered_list_put_parent l :
  forall (k : nat) (fr : jsstring) (v : option jsstring)
         (m : gmap (list N) Block.t),
  ids_ok uuidv4 k (list_sum (map uuids l)) ->
  first_root uuidv4 l k = Some fr ->
  is_Some ((lowered_list uuidv4 l k None ∪ m) !! fr)
  /\ put_parent fr v (lowered_list uuidv4 l k None ∪ m)
     = lowered_list uuidv4 l k v ∪ m.
Proof.
  induction l as [|s l IH]; intros k fr v m Hok; cbn [first_root]; [done|].
  rewrite sum_cons in Hok. cbn [lowered_list].
  destruct (is_empty s) eqn:Hs.
  - destruct s; try done. cbn [root uuids] in *.
    rewrite !lowered_eq, !(right_id_L ∅ (∪)). apply IH.
    by rewrite Nat.add_0_r.
  - rewrite (root_eq _ _ _ Hs). intros [= <-].
    pose proof (uuids_pos s Hs) as Hpos.
    assert (Hlater : lowered_list uuidv4 l (k + uuids s) None
                       !! sid uuidv4 (k + uuids s - 1) = None).
    { eapply lowered_list_later; [exact Hok|lia|lia]. }
    destruct (lowered_shape uuidv4 s k Hs) as (bf & inner & Hsh).
    assert (Hthere : is_Some ((lowered_list uuidv4 l (k + uuids s) None
                               ∪ lowered uuidv4 s k
                                   (first_root uuidv4 l (k + uuids s)) None)
                                !! sid uuidv4 (k + uuids s - 1))).
    { rewrite lookup_union_r by done. by apply lowered_root_there. }
    split.
    + destruct Hthere as [b Hb]. exists b. by apply lookup_union_Some_l.
    + rewrite put_parent_union_l by done.
      rewrite put_parent_union_r by done.
      by rewrite !Hsh, put_parent_insert.
Qed.

Lemma insert_empty_union (i : jsstring) (b : Block.t)
    (m : gmap (list N) Block.t) :
  <[i := b]> m = <[i := b]> ∅ ∪ m.
Proof. by rewrite <- insert_union_l, (left_id_L ∅ (∪)). Qed.

(** The block of a call. *)
Lemma compileCall_eval name args for_ g :
  compileCall uuidv4 name args for_ g
  = Ok (Some (sid uuidv4 (draws g)))
       (added uuidv4 g (block_of (Call name args for_) None None None)).
Proof.
  unfold compileCall, block_of, node_of, call_node.
  repeat match goal with
         | |- context [if ?b then _ else _] => destruct b
         | |- context [match ?o with Some _ => _ | None => _ end] =>
             destruct o
         end; reflexivity.
Qed.

(** A statement with one block and no body. *)
Lemma leaf_lowers s :
  is_empty s = false -> body_of s = [] -> uuids s = 1 ->
  (forall g, compileStatement uuidv4 s g
             = Ok (Some (sid uuidv4 (draws g)))
                  (added uuidv4 g (block_of s None None None))) ->
  (forall k nx pa,
     lowered uuidv4 s k nx pa = <[sid uuidv4 k := block_of s None nx pa]> ∅) ->
  lowers_to uuidv4 (compileStatement uuidv4) s.
Proof.
  intros Hs Hb Hu Hrun Hlow g Hkey Hok. eexists. split; [|split].
  - rewrite Hrun, (root_eq _ _ _ Hs), Hu.
    by replace (draws g + 1 - 1) with (draws g) by lia.
  - unfold added. cbn [blocks]. rewrite Hlow. apply insert_empty_union.
  - unfold added. cbn [draws]. lia.
Qed.

Section Lists.

Variable cs : stmt -> GM (option jsstring).

Lemma link_none (prevId : option jsstring) (m : gmap (list N) Block.t) :
  link prevId None m = m.
Proof. by destruct prevId. Qed.

(** The loop of [compileStatements] makes the blocks of the list and
    links the block before the list to the first of them. *)
Lemma loop_lowers stmts :
  Forall (lowers_to uuidv4 cs) stmts ->
  forall order firstId prevId g,
    existsb has_key stmts = false ->
    ids_ok uuidv4 (draws g) (list_sum (map uuids stmts)) ->
    prev_ok uuidv4 prevId g (list_sum (map uuids stmts)) ->
    firstId = None \/ id_truthy firstId = true ->
    exists c g',
      compileStatements_loop cs stmts order firstId prevId g = Ok c g'
      /\ first c = match firstId with
                   | Some f => Some f
                   | None => first_root uuidv4 stmts (draws g)
                   end
      /\ (blocksOrder c = []
          <-> order = [] /\ first_root uuidv4 stmts (draws g) = None)
      /\ blocks g'
         = lowered_list uuidv4 stmts (draws g) None
             ∪ link prevId (first_root uuidv4 stmts (draws g)) (blocks g)
      /\ draws g' = draws g + list_sum (map uuids stmts).
Proof.
  induction 1 as [|s stmts Hs Hall IH];
    intros order firstId prevId g Hkey Hok Hprev Hfirst.
  - eexists _, _. split; [reflexivity|]. cbn [first blocksOrder].
    split; [by destruct firstId|]. split; [tauto|].
    cbn [lowered_list first_root map list_sum].
    by rewrite link_none, (left_id_L ∅ (∪)), Nat.add_0_r.
  - cbn [existsb] in Hkey. apply orb_false_iff in Hkey as [Hks Hkl].
    rewrite sum_cons in *. cbn [compileStatements_loop].
    destruct (Hs g Hks) as (g1 & Hrun & Hb1 & Hd1).
    { eapply ids_ok_sub; [exact Hok|lia|lia]. }
    erewrite bind_ok by exact Hrun.
    destruct (is_empty s) eqn:He.
    + destruct s; try done. cbn [root id_truthy negb uuids] in *.
      rewrite lowered_eq, (left_id_L ∅ (∪)) in Hb1.
      rewrite Nat.add_0_r in Hd1.
      destruct (IH order firstId prevId g1 Hkl) as (c & g' & Hloop & Hf & Ho
                                                   & Hb & Hd).
      { rewrite Hd1. eapply ids_ok_sub; [exact Hok|lia|lia]. }
      { intros p Hp. destruct (Hprev p Hp) as (Hne & Hin & Hfar).
        rewrite Hb1, Hd1. split; [done|]. split; [done|].
        intros j Hj. apply Hfar. lia. }
      { done. }
      exists c, g'. split; [done|]. rewrite Hd1, Hb1 in *.
      cbn [first_root root lowered_list uuids is_empty].
      rewrite !Nat.add_0_r, lowered_eq, (right_id_L ∅ (∪)).
      split; [done|]. split; [done|]. split; [done|]. lia.
    + pose proof (uuids_pos s He) as Hpos.
      rewrite (root_eq _ _ _ He) in Hrun |- *.
      set (r := sid uuidv4 (draws g + uuids s - 1)) in *.
      assert (Hr : r <> []).
      { apply (Hok (draws g + uuids s - 1)). lia. }
      assert (Ht : id_truthy (Some r) = true) by (by destruct r).
      rewrite Ht. cbn [negb].
      assert (Hprev1 : exists g2,
                (if id_truthy prevId
                 then at_id prevId (fun p => set_next p (Some r))
                 else ret tt) g1 = Ok tt g2
                /\ blocks g2
                   = lowered uuidv4 s (draws g) None None
                       ∪ link prevId (Some r) (blocks g)
                /\ draws g2 = draws g1).
      { destruct prevId as [p|]; [|by exists g1].
        destruct (Hprev p eq_refl) as (Hne & Hin & Hfar).
        assert (Hp : lowered uuidv4 s (draws g) None None !! p = None).
        { apply not_elem_of_dom. intros Hd.
          apply lowered_dom in Hd as (j & Hj & ->).
          apply (Hfar j); [lia|done]. }
        assert (Htp : id_truthy (Some p) = true) by (by destruct p).
        rewrite Htp. cbn [at_id].
        destruct (set_next_eval p (Some r) g1) as (g2 & Hset & Hb2 & Hd2).
        { rewrite Hb1. destruct Hin as [b Hb].
          exists b. rewrite lookup_union_r by done. done. }
        exists g2. split; [done|]. split; [|done].
        rewrite Hb2, Hb1. cbn [link]. by apply put_next_union_r. }
      destruct Hprev1 as (g2 & Hset & Hb2 & Hd2).
      erewrite bind_ok by exact Hset.
      destruct (IH (push order (Some r))
                  (if negb (id_truthy firstId) then Some r else firstId)
                  (Some r) g2 Hkl)
        as (c & g' & Hloop & Hf & Ho & Hb & Hd).
      { rewrite Hd2, Hd1. eapply ids_ok_sub; [exact Hok|lia|lia]. }
      { intros p [= <-]. split; [done|]. split.
        - rewrite Hb2. apply lookup_union_is_Some. left.
          by apply lowered_root_there.
        - intros j Hj. rewrite Hd2, Hd1 in Hj. unfold r.
          apply (ids_ok_ne uuidv4 _ _ _ _ Hok); lia. }
      { destruct Hfirst as [->|Hft]; [by right|]. rewrite Hft. by right. }
      exists c, g'. split; [done|]. rewrite Hd2, Hd1 in *.
      cbn [first_root lowered_list]. rewrite (root_eq _ _ _ He), He.
      fold r. split; [|split; [|split]].
      * rewrite Hf. destruct Hfirst as [->|Hft]; [done|].
        rewrite Hft. cbn [negb]. by destruct firstId.
      * rewrite Ho. unfold push. split; [|by intros [_ ?]].
        intros [Hnil _]. by destruct order.
      * rewrite Hb, Hb2.
        assert (Hlink : link (Some r)
                          (first_root uuidv4 stmts (draws g + uuids s))
                          (lowered uuidv4 s (draws g) None None
                             ∪ link prevId (Some r) (blocks g))
                        = lowered uuidv4 s (draws g)
                            (first_root uuidv4 stmts (draws g + uuids s))
                            None
                            ∪ link prevId (Some r) (blocks g)).
        { destruct (first_root uuidv4 stmts (draws g + uuids s)) as [x|];
            [|done]. cbn [link]. by apply lowered_put_next. }
        by rewrite Hlink, (assoc_L (∪)).
      * lia.
Qed.

(** A container: its body, its block, and the parent of the first block
    of the body. *)
Lemma container_lowers body op
    (inputs : option jsstring -> list (string * jsval)) g :
  Forall (lowers_to uuidv4 cs) body ->
  existsb has_key body = false ->
  ids_ok uuidv4 (draws g) (S (list_sum (map uuids body))) ->
  let me := sid uuidv4 (draws g + list_sum (map uuids body)) in
  exists g',
    container cs body
      (fun bodyFirst => addBlock uuidv4 op (inputs bodyFirst) [] None None) g
    = Ok (Some me) g'
    /\ blocks g'
       = <[me := Block.Make op (inputs (first_root uuidv4 body (draws g))) []
                   None None]>
           (lowered_list uuidv4 body (draws g) (Some me))
           ∪ blocks g
    /\ draws g' = draws g + S (list_sum (map uuids body)).
Proof.
  intros Hall Hkey Hok me. unfold container, compileStatements.
  destruct (loop_lowers body Hall [] None None g Hkey)
    as (c & g1 & Hloop & Hf & Ho & Hb & Hd).
  { eapply ids_ok_sub; [exact Hok|lia|lia]. }
  { by intros p. }
  { by left. }
  erewrite bind_ok by exact Hloop. cbn [link] in Hb.
  erewrite bind_ok by apply addBlock_eval.
  assert (Hme : next_id uuidv4 g1 = me).
  { unfold next_id, me, sid. by rewrite Hd. }
  rewrite Hme, Hf.
  destruct (first_root uuidv4 body (draws g)) as [fr|] eqn:Hfr.
  - assert (Hne : blocksOrder c <> []).
    { intros Hnil. apply Ho in Hnil as [_ ?]. done. }
    assert (Hlen : negb (length (blocksOrder c) =? 0) = true).
    { destruct (blocksOrder c); done. }
    rewrite Hlen. cbn [at_id].
    destruct (first_root_range uuidv4 _ _ _ Hfr) as (j & Hj & Hfrj).
    assert (Hfm : fr <> me).
    { rewrite Hfrj. unfold me.
      apply (ids_ok_ne uuidv4 _ _ _ _ Hok); lia. }
    destruct (lowered_list_put_parent body (draws g) fr (Some me) (blocks g))
      as [Hthere Hput]; [|done|].
    { eapply ids_ok_sub; [exact Hok|lia|lia]. }
    destruct (set_parent_eval fr (Some me)
                (added uuidv4 g1
                   (Block.Make op (inputs (Some fr)) [] None None)))
      as (g3 & Hset & Hb3 & Hd3).
    { unfold added. cbn [blocks]. rewrite Hme, lookup_insert_ne by done.
      by rewrite Hb. }
    erewrite bind_ok by exact Hset. eexists. split; [reflexivity|].
    split.
    + rewrite Hb3. unfold added. cbn [blocks]. rewrite Hme, Hb.
      unfold put_parent. rewrite lookup_insert_ne by done.
      destruct Hthere as [b Hbk]. rewrite Hbk.
      rewrite insert_insert_ne by done.
      rewrite <- insert_union_l, <- Hput. unfold put_parent. by rewrite Hbk.
    + rewrite Hd3. unfold added. cbn [draws]. lia.
  - assert (Hnil : blocksOrder c = []) by (by apply Ho).
    rewrite Hnil. cbn [length Nat.eqb negb].
    eexists. split; [reflexivity|]. split.
    + unfold added. cbn [blocks]. rewrite Hme, Hb.
      rewrite !lowered_list_no_root by done.
      by rewrite insert_union_l.
    + unfold added. cbn [draws]. lia.
Qed.

End Lists.

(** Every statement is lowered to its blocks. *)
Lemma compileStatement_lowers s :
  lowers_to uuidv4 (compileStatement uuidv4) s.
Proof.
  induction s as [kd a b|c b IH|b IH|c b a IH|c|n a f|]
    using stmt_lowered_ind.
  - destruct kd; try (by apply leaf_lowers). by intros g.
  - intros g Hkey Hok. cbn [compileStatement has_key uuids] in *.
    erewrite bind_ok by apply fresh_id_eval.
    destruct (container_lowers (compileStatement uuidv4) b "control_repeat"
                (fun o => [("TIMES", num_input (VNum c));
                           ("SUBSTACK", VArr [VNum (num 2); id_val o])])
                {| blocks := blocks g; draws := S (draws g);
                   created := created g |} IH Hkey)
      as (g' & Hrun & Hb & Hd).
    { cbn [draws]. eapply ids_ok_sub; [exact Hok|lia|lia]. }
    cbn [draws blocks] in *. exists g'.
    rewrite lowered_eq. cbn [root uuids body_of body_offset].
    replace (draws g + (2 + list_sum (map uuids b)) - 1)
      with (S (draws g) + list_sum (map uuids b)) by lia.
    replace (draws g + 1) with (S (draws g)) by lia.
    split; [done|]. split; [done|]. lia.
  - intros g Hkey Hok. cbn [compileStatement has_key uuids] in *.
    destruct (container_lowers (compileStatement uuidv4) b "control_forever"
                (fun o => [("SUBSTACK", VArr [VNum (num 2); id_val o])])
                g IH Hkey Hok)
      as (g' & Hrun & Hb & Hd).
    exists g'. rewrite lowered_eq. cbn [root uuids body_of body_offset].
    replace (draws g + S (list_sum (map uuids b)) - 1)
      with (draws g + list_sum (map uuids b)) by lia.
    rewrite Nat.add_0_r. by split.
  - intros g Hkey Hok. cbn [compileStatement has_key uuids] in *.
    destruct (container_lowers (compileStatement uuidv4) b "control_if"
                (fun o => [("CONDITION", VArr [VNum (num 1); VJoin c]);
                           ("SUBSTACK", VArr [VNum (num 2); id_val o])])
                g IH Hkey Hok)
      as (g' & Hrun & Hb & Hd).
    exists g'. rewrite lowered_eq. cbn [root uuids body_of body_offset].
    replace (draws g + S (list_sum (map uuids b)) - 1)
      with (draws g + list_sum (map uuids b)) by lia.
    rewrite Nat.add_0_r. by split.
  - by apply leaf_lowers.
  - apply leaf_lowers; try done. intros g. apply compileCall_eval.
  - intros g _ _. exists g. cbn [compileStatement root uuids].
    rewrite lowered_eq, (left_id_L ∅ (∪)). split; [done|]. split; [done|].
    lia.
Qed.

End RefRun.

(** *** The blocks of a program *)

Section RefTop.

Variable uuidv4 : nat -> jsstring.

Lemma ids_ok_check k n :
  NoDup (sid uuidv4 <$> seq k n) ->
  Forall (fun i => i <> []) (sid uuidv4 <$> seq k n) ->
  ids_ok uuidv4 k n.
Proof.
  intros Hnd Hne i Hi.
  assert (Hat : forall j, k <= j < k + n ->
                  (sid uuidv4 <$> seq k n) !! (j - k) = Some (sid uuidv4 j)).
  { intros j Hj. rewrite list_lookup_fmap, lookup_seq_lt by lia.
    cbn. f_equal. f_equal. lia. }
  split.
  - rewrite Forall_lookup in Hne. apply (Hne (i - k)). by apply Hat.
  - intros j Hj Heq.
    assert (i - k = j - k); [|lia].
    eapply NoDup_lookup; [exact Hnd|by apply Hat|].
    rewrite Heq. by apply Hat.
Qed.

(** The program loop makes the hats of the leading events, then the start
    hat and the blocks of the whole body. *)
Lemma top_loop_lowers all rest : forall scripts g,
  existsb has_key all = false -> existsb has_key rest = false ->
  ids_ok uuidv4 (draws g)
    (leading_events rest
     + (if all_events rest then 0 else S (list_sum (map uuids all)))) ->
  exists g',
    top_loop uuidv4 all rest scripts g
    = Ok (scripts
            ++ (Some <$> (sid uuidv4 <$> seq (draws g) (leading_events rest))))
         g'
    /\ blocks g' = top_lowered uuidv4 all rest (draws g) ∪ blocks g.
Proof.
  induction rest as [|node rest IH]; intros scripts g Hall Hrest Hok.
  - exists g. cbn [top_loop leading_events seq fmap list_fmap top_lowered].
    by rewrite app_nil_r, (left_id_L ∅ (∪)).
  - cbn [existsb] in Hrest. apply orb_false_iff in Hrest as [Hkn Hkr].
    cbn [top_loop leading_events all_events forallb top_lowered] in *.
    destruct (is_event node) eqn:Hev; cbn [andb] in Hok.
    + fold (all_events rest) in Hok.
      assert (Hu : uuids node = 1) by (by destruct node).
      destruct (compileStatement_lowers uuidv4 node g Hkn)
        as (g1 & Hrun & Hb1 & Hd1).
      { rewrite Hu. eapply ids_ok_sub; [exact Hok|lia|lia]. }
      rewrite Hu in Hd1. rewrite root_eq, Hu in Hrun by (by destruct node).
      replace (draws g + 1 - 1) with (draws g) in Hrun by lia.
      erewrite bind_ok by exact Hrun.
      destruct (IH (push scripts (Some (sid uuidv4 (draws g)))) g1 Hall Hkr)
        as (g' & Hloop & Hb).
      { rewrite Hd1. eapply ids_ok_sub; [exact Hok|lia|lia]. }
      exists g'. rewrite Hloop, Hb, Hb1, Hd1. unfold push.
      replace (draws g + 1) with (S (draws g)) by lia.
      cbn [seq fmap list_fmap]. rewrite <- app_assoc. cbn [app].
      split; [done|]. by rewrite (assoc_L (∪)).
    + cbn [Nat.add] in Hok.
      erewrite bind_ok by apply addBlock_eval.
      set (h := next_id uuidv4 g).
      set (g1 := added uuidv4 g
                   (Block.Make "event_whenflagclicked" [] [] None None)).
      destruct (loop_lowers uuidv4 (compileStatement uuidv4) all
                  ltac:(apply Forall_forall; intros s _;
                        apply compileStatement_lowers)
                  [] None None g1 Hall)
        as (c & g2 & Hloop & Hf & Ho & Hb2 & Hd2).
      { unfold g1, added. cbn [draws].
        eapply ids_ok_sub; [exact Hok|lia|lia]. }
      { by intros p. }
      { by left. }
      unfold compileStatements. erewrite bind_ok by exact Hloop.
      cbn [link] in Hb2. unfold g1, added in Hb2, Hd2, Hf.
      cbn [blocks draws] in Hb2, Hd2, Hf. fold h in Hb2.
      assert (Hh : h = sid uuidv4 (draws g)) by done.
      assert (Hlater : lowered_list uuidv4 all (S (draws g)) None !! h = None).
      { rewrite Hh. eapply lowered_list_later; [exact Hok|lia|lia]. }
      rewrite Hf.
      destruct (first_root uuidv4 all (S (draws g))) as [fr|] eqn:Hfr.
      * destruct (first_root_range uuidv4 _ _ _ Hfr) as (j & Hj & Hfrj).
        assert (Hne : fr <> []).
        { rewrite Hfrj. apply (Hok j). lia. }
        assert (Ht : id_truthy (Some fr) = true) by (by destruct fr).
        rewrite Ht.
        destruct (set_next_eval h (Some fr) g2) as (g3 & Hset & Hb3 & Hd3).
        { rewrite Hb2, lookup_union_r, lookup_insert_eq by done.
          by eexists. }
        erewrite bind_ok by exact Hset. exists g3.
        cbn [seq fmap list_fmap]. rewrite app_nil_r. split; [done|].
        rewrite Hb3, Hb2, put_next_union_r, put_next_insert by done.
        rewrite <- (assoc_L (∪)), <- Hh. f_equal.
        apply insert_empty_union.
      * cbn [id_truthy]. exists g2.
        cbn [seq fmap list_fmap]. rewrite app_nil_r. split; [done|].
        rewrite Hb2, <- (assoc_L (∪)), <- Hh. f_equal.
        apply insert_empty_union.
Qed.

End RefTop.

(** X18. With ids that are not empty and differ from one another, a
    statement with no key event is lowered to exactly the blocks of its
    tree, added to the blocks there were: one block for the statement,
    with the id made of the last UUID drawn for it, no next and no
    parent; for a container the blocks of its body's statements, each
    with the next statement's block as its next, the first of them named
    by the SUBSTACK input and having the container as its parent, the
    others having no parent.  A list of statements is lowered to the
    chain of its statements' blocks, and [first] is the id of the first
    of them. *)
Theorem statement_blocks (uuidv4 : nat -> jsstring) (g : gen) :
  (forall s,
     has_key s = false -> ids_ok uuidv4 (draws g) (uuids s) ->
     exists g',
       compileStatement uuidv4 s g = Ok (root uuidv4 s (draws g)) g'
       /\ blocks g' = lowered uuidv4 s (draws g) None None ∪ blocks g
       /\ draws g' = draws g + uuids s)
  /\ (forall stmts,
        existsb has_key stmts = false ->
        ids_ok uuidv4 (draws g) (list_sum (map uuids stmts)) ->
        exists c g',
          compileStatements (compileStatement uuidv4) stmts g = Ok c g'
          /\ first c = first_root uuidv4 stmts (draws g)
          /\ blocks g' = lowered_list uuidv4 stmts (draws g) None ∪ blocks g
          /\ draws g' = draws g + list_sum (map uuids stmts)).
Proof.
  split.
  - intros s. apply compileStatement_lowers.
  - intros stmts Hkey Hok.
    destruct (loop_lowers uuidv4 (compileStatement uuidv4) stmts
                ltac:(apply Forall_forall; intros s _;
                      apply compileStatement_lowers)
                [] None None g Hkey Hok)
      as (c & g' & Hloop & Hf & Ho & Hb & Hd).
    + by intros p.
    + by left.
    + by exists c, g'.
Qed.

Lemma statement_blocks_witness :
  exists g',
    compileStatement uuid_counter example_repeat init_gen
    = Ok (root uuid_counter example_repeat 0) g'
    /\ blocks g' = lowered uuid_counter example_repeat 0 None None ∪ ∅
    /\ draws g' = uuids example_repeat.
Proof.
  apply (proj1 (statement_blocks uuid_counter init_gen) example_repeat).
  - reflexivity.
  - apply ids_ok_check; apply (bool_decide_unpack _); vm_compute; exact I.
Defined.

(** X19. With ids that are not empty and differ from one another, the
    project of a program with no key event holds exactly these blocks: a
    hat with no next for each event before the first statement that is
    no event; and, if there is such a statement, a start hat whose next
    is the first block of the chain of the whole body, events before it
    included; [scripts] is the ids of the leading events' hats. *)
Theorem project_blocks (uuidv4 : nat -> jsstring) (ast : Program) :
  existsb has_key (body ast) = false ->
  ids_ok uuidv4 0 (top_uuids (body ast)) ->
  exists g,
    generateProject uuidv4 ast
    = Ok (Some <$> (sid uuidv4 <$> seq 0 (leading_events (body ast)))) g
    /\ blocks g = top_lowered uuidv4 (body ast) (body ast) 0.
Proof.
  intros Hkey Hok. unfold generateProject.
  destruct (top_loop_lowers uuidv4 (body ast) (body ast) [] init_gen
              Hkey Hkey Hok) as (g & Hrun & Hb).
  exists g. split; [done|]. rewrite Hb. apply (right_id_L ∅ (∪)).
Qed.

Lemma project_blocks_witness :
  exists g,
    generateProject uuid_counter example_tree
    = Ok (Some <$> (sid uuid_counter
                      <$> seq 0 (leading_events (body example_tree)))) g
    /\ blocks g
       = top_lowered uuid_counter (body example_tree) (body example_tree) 0.
Proof.
  apply project_blocks.
  - reflexivity.
  - apply ids_ok_check; apply (bool_decide_unpack _); vm_compute; exact I.
Defined.

(* ===================================================================== *)
(** ** From the source text to the project *)
(* ===================================================================== *)

(** X20. A source text of well-formed statements, written token by token
    with a space after each, goes through the whole compiler: it is
    tokenized and parsed to the tree of these statements, and, when no
    key event stands where the lowering goes, the project is generated,
    with as many blocks created as the tree asks for and no reference to
    a block that is not there, whatever [uuidv4] returns. *)
Theorem source_compiles (uuidv4 : nat -> jsstring) (ws : list written)
    (prog : list syntax) :
  forallb written_ok ws = true ->
  map token_of ws = flat_map tokens_of prog ->
  forallb well_formed prog = true ->
  parse_source (text ws) = Some (ParseOk {| body := map tree_of prog |})
  /\ (existsb has_key (map tree_of prog) = false ->
      exists scripts g,
        compile_source uuidv4 (text ws) = Some (Ok scripts g)
        /\ closed g
        /\ length (created g) = top_nodes (map tree_of prog)).
Proof.
  intros Hws Htoks Hwf.
  assert (Hparse : parse_source (text ws)
                   = Some (ParseOk {| body := map tree_of prog |})).
  { unfold parse_source. rewrite tokenize_text by done.
    by rewrite Htoks, parse_flat_tokens. }
  split; [done|]. intros Hkey. unfold compile_source. rewrite Hparse.
  pose proof (generateProject_grows uuidv4 {| body := map tree_of prog |})
    as H.
  unfold wp in H.
  destruct (generateProject uuidv4 {| body := map tree_of prog |})
    as [r g|e|].
  - exists r, g. destruct H as ([_ Hc] & _ & Hn & _). by split.
  - destruct H as [_ H]. cbn [body] in H. congruence.
  - done.
Qed.

Lemma source_compiles_witness :
  parse_source (text sample_written)
  = Some (ParseOk {| body := map tree_of sample_statements |})
  /\ (existsb has_key (map tree_of sample_statements) = false ->
      exists scripts g,
        compile_source uuid_tail (text sample_written) = Some (Ok scripts g)
        /\ closed g
        /\ length (created g) = top_nodes (map tree_of sample_statements)).
Proof. apply source_compiles; reflexivity. Defined.
